(** * resumable.js: chunked upload engine

    A shallow embedding of the classes of resumable.js and the proofs of the
    properties its specification states about them, and of further
    properties read off the code:
    - [ResumableChunk] (src/resumableChunk.ts): status and progress of a
      chunk, its probe and upload requests and their listeners;
    - [ResumableFile] (src/resumableFile.ts): chunking, abort, cancel,
      retry, upload, progress and the handlers of the chunk events;
    - [ResumableEventHandler] and [ResumableHelpers] (dist/main.js):
      listeners, [uniqBy], [flattenDeep];
    - [Resumable] (dist/main.js, the build with file categories): the
      constructor, the intake of a batch of files, completion tracking and
      the queue ([uploadNextChunk], [upload], [pause], [progress]).

    Conventions of the embedding.
    - A JavaScript [number] that the code divides, multiplies or compares is
      a [num]: an exact rational, an infinity or NaN.  Rounding of IEEE
      doubles and the sign of zero are not modelled; byte counts and chunk
      indices are integers ([Z]).
    - A getter or method that writes to [this] returns the new object next to
      its result; [fire] and the calls made on the transport are appended to
      a log of signals instead of being dispatched to listeners.  Where a
      listener of the library itself only fires again (a file for the
      [chunkProgress] of its chunk, the queue for the [chunkProgress] and
      [fileProgress] of its files), what it fires is put in the log.
    - Asynchronous steps (identifier generators, custom validators) are run
      to completion in list order: an intake is followed from its call to
      its end, without another intake begun in between.
    - The objects the code uses as maps ([files], [fileTypes],
      [validators], [registeredEventHandlers]) are plain objects: a [gmap]
      holds their own properties, and the reads that also find the
      properties of [Object.prototype] are modelled as such ([inherited]).
    - Strings are strings of ASCII characters; [toLowerCase] lowers the
      letters A to Z.
    - The transport is a request handle with a ready state and a status
      code: [send()] and [test()] open one, the transport answers it with a
      status code and the listener of the request runs.  Where the state of
      a chunk between two reads does not matter, it is an arbitrary new
      state of that chunk ([op_chunk]). *)

From Stdlib Require Import ZArith QArith Qround String Ascii List Lia Lqa.
From stdpp Require Import gmap strings list pretty.

Close Scope Q_scope.
Open Scope Z_scope.

(** ** JavaScript numbers *)

Inductive num : Type :=
| NaN
| Inf (negative : bool)
| Fin (q : Q).

Definition of_Z (z : Z) : num := Fin (inject_Z z).

Definition Qis_zero (q : Q) : bool := Qnum q =? 0.
Definition Qis_neg (q : Q) : bool := Qnum q <? 0.

(** [a / b] *)
Definition jdiv (a b : num) : num :=
  match a, b with
  | NaN, _ | _, NaN => NaN
  | Inf _, Inf _ => NaN
  | Inf s, Fin q => Inf (xorb s (Qis_neg q))
  | Fin _, Inf _ => Fin 0
  | Fin p, Fin q =>
      if Qis_zero q
      then (if Qis_zero p then NaN else Inf (Qis_neg p))
      else Fin (p / q)
  end.

(** [a * b] *)
Definition jmul (a b : num) : num :=
  match a, b with
  | NaN, _ | _, NaN => NaN
  | Inf s, Inf t => Inf (xorb s t)
  | Inf s, Fin q | Fin q, Inf s =>
      if Qis_zero q then NaN else Inf (xorb s (Qis_neg q))
  | Fin p, Fin q => Fin (p * q)
  end.

(** [a + b] *)
Definition jadd (a b : num) : num :=
  match a, b with
  | NaN, _ | _, NaN => NaN
  | Inf s, Inf t => if Bool.eqb s t then Inf s else NaN
  | Inf s, Fin _ | Fin _, Inf s => Inf s
  | Fin p, Fin q => Fin (p + q)
  end.

(** [a < b]; every comparison with NaN is false. *)
Definition jlt (a b : num) : bool :=
  match a, b with
  | NaN, _ | _, NaN => false
  | Inf s, Inf t => s && negb t
  | Inf s, Fin _ => s
  | Fin _, Inf t => negb t
  | Fin p, Fin q => match (p ?= q)%Q with Lt => true | _ => false end
  end.

(** [a > b] *)
Definition jgt (a b : num) : bool := jlt b a.

(** [Math.max(a, b)] *)
Definition jmax (a b : num) : num :=
  match a, b with
  | NaN, _ | _, NaN => NaN
  | _, _ => if jlt a b then b else a
  end.

(** [Math.ceil(a)] *)
Definition jceil (a : num) : num :=
  match a with
  | Fin q => of_Z (Qceiling q)
  | _ => a
  end.

(** Number of turns of [for (var i = 0; i < bound; i++)]; [None] when the
    loop never ends. *)
Definition for_turns (bound : num) : option nat :=
  match bound with
  | NaN => Some 0%nat
  | Inf true => Some 0%nat
  | Inf false => None
  | Fin q => Some (Z.to_nat (Qceiling q))
  end.

(** ** Signals *)

(** What a file and its chunks [fire], and the abort of a request handle. *)
Inductive FileSignal : Type :=
| chunkingStart
| chunkingProgress (fraction : num)
| chunkingComplete
| chunkProgress (offset : Z)
| chunkSuccess (offset : Z)
| chunkError (offset : Z)
| chunkRetry (offset : Z)
| chunkCancel (offset : Z)
| fileProgress
| fileSuccess
| fileError
| fileRetry
| fileCancel
| xhrAbort (offset : Z).

(** ** ResumableChunk *)

Module ResumableChunk.

Inductive ResumableChunkStatus : Type :=
| PENDING
| UPLOADING
| SUCCESS
| ERROR.

(** The two fields of the request handle that the chunk reads;
    [status_code] is its [status]. *)
Record XMLHttpRequest : Type := {
  readyState : Z;
  status_code : Z;
}.

(** The options read by files and chunks; [None] is an option left out. *)
Record ChunkOptions : Type := {
  opt_chunkSize : option Z;
  opt_maxChunkRetries : option Z;
  opt_permanentErrors : option (list Z);
}.

Definition no_options : ChunkOptions :=
  {| opt_chunkSize := None; opt_maxChunkRetries := None;
     opt_permanentErrors := None |}.

Record t : Type := {
  fileObjSize : Z;
  offset : Z;
  tested : bool;
  retries : Z;
  pendingRetry : bool;
  isMarkedComplete : bool;
  loaded : Z;
  startByte : Z;
  endByte : Z;
  xhr : option XMLHttpRequest;
  chunkSize : Z;
  maxChunkRetries : Z;
  permanentErrors : list Z;
}.

Definition default_chunkSize : Z := 1024 * 1024.
Definition default_maxChunkRetries : Z := 100.
Definition default_permanentErrors : list Z :=
  [400; 401; 403; 404; 409; 415; 500; 501].

(** [new ResumableChunk(fileObj, offset, options)] *)
Definition newResumableChunk (size : Z) (off : Z) (o : ChunkOptions)
  : t :=
  let cs := default default_chunkSize (opt_chunkSize o) in
  {| fileObjSize := size;
     offset := off;
     tested := false;
     retries := 0;
     pendingRetry := false;
     isMarkedComplete := false;
     loaded := 0;
     startByte := off * cs;
     endByte := Z.min size ((off + 1) * cs);
     xhr := None;
     chunkSize := cs;
     maxChunkRetries := default default_maxChunkRetries (opt_maxChunkRetries o);
     permanentErrors := default default_permanentErrors (opt_permanentErrors o) |}.

Definition set_xhr (c : t) (x : option XMLHttpRequest)
  : t :=
  {| fileObjSize := fileObjSize c; offset := offset c; tested := tested c;
     retries := retries c; pendingRetry := pendingRetry c;
     isMarkedComplete := isMarkedComplete c; loaded := loaded c;
     startByte := startByte c; endByte := endByte c; xhr := x;
     chunkSize := chunkSize c; maxChunkRetries := maxChunkRetries c;
     permanentErrors := permanentErrors c |}.

(** [abort()]: cancel a live request, forget the handle. *)
Definition abort (c : t) : t * list FileSignal :=
  (set_xhr c None,
   match xhr c with Some _ => [xhrAbort (offset c)] | None => [] end).

(** [permanentErrors.includes(code)] *)
Definition includes_Z (l : list Z) (code : Z) : bool :=
  existsb (Z.eqb code) l.

(** [get status()] *)
Definition status (c : t)
  : ResumableChunkStatus * t * list FileSignal :=
  if pendingRetry c then (UPLOADING, c, [])
  else if isMarkedComplete c then (SUCCESS, c, [])
  else match xhr c with
       | None => (PENDING, c, [])
       | Some x =>
           if readyState x <? 4 then (UPLOADING, c, [])
           else if (status_code x =? 200) || (status_code x =? 201)
                then (SUCCESS, c, [])
           else if includes_Z (permanentErrors c) (status_code x)
                   || (maxChunkRetries c <=? retries c)
                then (ERROR, c, [])
           else let '(c', log) := abort c in (PENDING, c', log)
       end.

(** [markComplete()] *)
Definition markComplete (c : t) : t :=
  {| fileObjSize := fileObjSize c; offset := offset c; tested := tested c;
     retries := retries c; pendingRetry := pendingRetry c;
     isMarkedComplete := true; loaded := loaded c;
     startByte := startByte c; endByte := endByte c; xhr := xhr c;
     chunkSize := chunkSize c; maxChunkRetries := maxChunkRetries c;
     permanentErrors := permanentErrors c |}.

(** [!this.xhr || !this.xhr.status] *)
Definition no_status_yet (c : t) : bool :=
  match xhr c with
  | None => true
  | Some x => status_code x =? 0
  end.

(** [progress(relative)] *)
Definition progress (c : t) (relative : bool)
  : num * t * list FileSignal :=
  let factor :=
    if relative
    then jdiv (of_Z (endByte c - startByte c)) (of_Z (fileObjSize c))
    else Fin 1 in
  if pendingRetry c then (Fin 0, c, [])
  else
    let factor :=
      if no_status_yet c && negb (isMarkedComplete c)
      then jmul factor (Fin (95 # 100))
      else factor in
    let '(st, c', log) := status c in
    match st with
    | SUCCESS | ERROR => (factor, c', log)
    | PENDING => (Fin 0, c', log)
    | UPLOADING =>
        (jmul (jdiv (of_Z (loaded c')) (of_Z (endByte c' - startByte c'))) factor,
         c', log)
    end.

(** *** Requests of a chunk *)

(** The options of a chunk that the record [t] does not hold: [testChunks]
    and [chunkRetryInterval] ([None] is [undefined]). *)
Record TransportOptions : Type := {
  testChunks : bool;
  chunkRetryInterval : option Z;
}.

Definition default_transport : TransportOptions :=
  {| testChunks := true; chunkRetryInterval := None |}.

(** A request handle after [new XMLHttpRequest()] and [open()]: no status
    code yet. *)
Definition opened : XMLHttpRequest := {| readyState := 1; status_code := 0 |}.

(** A request handle once the transport has the answer; a network error and
    a timeout end with the status code 0. *)
Definition finished (code : Z) : XMLHttpRequest :=
  {| readyState := 4; status_code := code |}.

Definition set_tested (c : t) (b : bool) : t :=
  {| fileObjSize := fileObjSize c; offset := offset c; tested := b;
     retries := retries c; pendingRetry := pendingRetry c;
     isMarkedComplete := isMarkedComplete c; loaded := loaded c;
     startByte := startByte c; endByte := endByte c; xhr := xhr c;
     chunkSize := chunkSize c; maxChunkRetries := maxChunkRetries c;
     permanentErrors := permanentErrors c |}.

Definition set_retries (c : t) (n : Z) : t :=
  {| fileObjSize := fileObjSize c; offset := offset c; tested := tested c;
     retries := n; pendingRetry := pendingRetry c;
     isMarkedComplete := isMarkedComplete c; loaded := loaded c;
     startByte := startByte c; endByte := endByte c; xhr := xhr c;
     chunkSize := chunkSize c; maxChunkRetries := maxChunkRetries c;
     permanentErrors := permanentErrors c |}.

Definition set_pendingRetry (c : t) (b : bool) : t :=
  {| fileObjSize := fileObjSize c; offset := offset c; tested := tested c;
     retries := retries c; pendingRetry := b;
     isMarkedComplete := isMarkedComplete c; loaded := loaded c;
     startByte := startByte c; endByte := endByte c; xhr := xhr c;
     chunkSize := chunkSize c; maxChunkRetries := maxChunkRetries c;
     permanentErrors := permanentErrors c |}.

Definition set_loaded (c : t) (n : Z) : t :=
  {| fileObjSize := fileObjSize c; offset := offset c; tested := tested c;
     retries := retries c; pendingRetry := pendingRetry c;
     isMarkedComplete := isMarkedComplete c; loaded := n;
     startByte := startByte c; endByte := endByte c; xhr := xhr c;
     chunkSize := chunkSize c; maxChunkRetries := maxChunkRetries c;
     permanentErrors := permanentErrors c |}.

(** [test()]: the probe request is opened and sent; nothing is fired. *)
Definition test (c : t) : t := set_xhr c (Some opened).

(** [send()].  With [testChunks] and no probe made yet, the probe is sent
    and the status is read once for the debug message.  Otherwise the
    upload request replaces the handle, [loaded] and [pendingRetry] are
    reset and [chunkProgress] is fired. *)
Definition send (o : TransportOptions) (c : t) : t * list FileSignal :=
  if testChunks o && negb (tested c)
  then let '(_, c1, log) := status (test c) in (c1, log)
  else (set_pendingRetry (set_loaded (set_xhr c (Some opened)) 0) false,
        [chunkProgress (offset c)]).

(** [testHandler], the listener of the probe request. *)
Definition testHandler (o : TransportOptions) (c : t) : t * list FileSignal :=
  let '(st, c1, l1) := status (set_tested c true) in
  match st with
  | SUCCESS => (c1, l1 ++ [chunkSuccess (offset c)])
  | _ => let '(c2, l2) := send o c1 in (c2, l1 ++ l2)
  end.

(** [doneHandler], the listener of the upload request; the third component
    is the delay of the timer set for the retry, if one is set. *)
Definition doneHandler (o : TransportOptions) (c : t)
  : t * list FileSignal * option Z :=
  let '(st, c1, l1) := status c in
  match st with
  | SUCCESS => (c1, l1 ++ [chunkSuccess (offset c)], None)
  | ERROR => (c1, l1 ++ [chunkError (offset c)], None)
  | _ =>
      let '(c2, l2) := abort c1 in
      let c3 := set_retries c2 (retries c2 + 1) in
      match chunkRetryInterval o with
      | Some retryInterval =>
          (set_pendingRetry c3 true,
           l1 ++ [chunkRetry (offset c)] ++ l2, Some retryInterval)
      | None =>
          let '(c4, l4) := send o c3 in
          (c4, l1 ++ [chunkRetry (offset c)] ++ l2 ++ l4, None)
      end
  end.

(** The transport ends the upload request of a chunk with [code]: the
    handle is finished and its listener runs. *)
Definition uploadAnswered (o : TransportOptions) (c : t) (code : Z)
  : t * list FileSignal * option Z :=
  doneHandler o (set_xhr c (Some (finished code))).

(** The transport ends the probe request of a chunk with [code]. *)
Definition probeAnswered (o : TransportOptions) (c : t) (code : Z)
  : t * list FileSignal :=
  testHandler o (set_xhr c (Some (finished code))).

(** A request of the chunk is on its way: only then can the transport
    answer it. *)
Definition in_flight (c : t) : bool :=
  match xhr c with
  | Some x => readyState x <? 4
  | None => false
  end.

(** The transport answers the request in flight with [code].  [send()]
    makes the request a probe exactly when [testChunks] is set and no probe
    has been answered, and [tested] changes only in the listener of the
    probe, so the same test tells which listener the request carries. *)
Definition answered (o : TransportOptions) (c : t) (code : Z)
  : option (t * list FileSignal * option Z) :=
  if in_flight c
  then Some (if testChunks o && negb (tested c)
             then let '(c1, log) := probeAnswered o c code in (c1, log, None)
             else uploadAnswered o c code)
  else None.

(** The requests of a chunk answered one after the other; a timer set for a
    retry fires, and sends, before the next answer. *)
Fixpoint answers (o : TransportOptions) (c : t) (codes : list Z)
  : option (t * list FileSignal) :=
  match codes with
  | [] => Some (c, [])
  | code :: rest =>
      match answered o c code with
      | Some (c1, l1, timer) =>
          let '(c2, l2) :=
            match timer with
            | Some _ => send o c1
            | None => (c1, [])
            end in
          match answers o c2 rest with
          | Some (c3, l3) => Some (c3, l1 ++ l2 ++ l3)
          | None => None
          end
      | None => None
      end
  end.

End ResumableChunk.

(** ** ResumableFile *)

Module ResumableFile.

Import ResumableChunk.

Record t : Type := {
  opts : ChunkOptions;
  _prevProgress : num;
  isPaused : bool;
  _fileName : string;
  _size : Z;
  _relativePath : string;
  _uniqueIdentifier : string;
  _fileCategory : string;
  _error : bool;
  _chunks : list ResumableChunk.t;
  (** one-shot [chunkingComplete] listeners left armed by [retry()] *)
  retryListeners : nat;
}.

(** [this.chunkSize], assigned from the options. *)
Definition chunkSize (f : t) : Z :=
  default default_chunkSize (opt_chunkSize (opts f)).

Definition set_chunks (f : t) (cs : list ResumableChunk.t) : t :=
  {| opts := opts f; _prevProgress := _prevProgress f; isPaused := isPaused f;
     _fileName := _fileName f; _size := _size f;
     _relativePath := _relativePath f;
     _uniqueIdentifier := _uniqueIdentifier f;
     _fileCategory := _fileCategory f; _error := _error f; _chunks := cs;
     retryListeners := retryListeners f |}.

Definition set_error (f : t) (e : bool) : t :=
  {| opts := opts f; _prevProgress := _prevProgress f; isPaused := isPaused f;
     _fileName := _fileName f; _size := _size f;
     _relativePath := _relativePath f;
     _uniqueIdentifier := _uniqueIdentifier f;
     _fileCategory := _fileCategory f; _error := e; _chunks := _chunks f;
     retryListeners := retryListeners f |}.

Definition set_prevProgress (f : t) (p : num) : t :=
  {| opts := opts f; _prevProgress := p; isPaused := isPaused f;
     _fileName := _fileName f; _size := _size f;
     _relativePath := _relativePath f;
     _uniqueIdentifier := _uniqueIdentifier f;
     _fileCategory := _fileCategory f; _error := _error f;
     _chunks := _chunks f; retryListeners := retryListeners f |}.

Definition set_retryListeners (f : t) (n : nat) : t :=
  {| opts := opts f; _prevProgress := _prevProgress f; isPaused := isPaused f;
     _fileName := _fileName f; _size := _size f;
     _relativePath := _relativePath f;
     _uniqueIdentifier := _uniqueIdentifier f;
     _fileCategory := _fileCategory f; _error := _error f;
     _chunks := _chunks f; retryListeners := n |}.

Definition is_UPLOADING (s : ResumableChunkStatus) : bool :=
  match s with UPLOADING => true | _ => false end.
Definition is_PENDING (s : ResumableChunkStatus) : bool :=
  match s with PENDING => true | _ => false end.
Definition is_ERROR (s : ResumableChunkStatus) : bool :=
  match s with ERROR => true | _ => false end.

(** The loop of [abort()]: the chunks as left behind, the log and
    [abortCount]. *)
Fixpoint abort_loop (cs : list ResumableChunk.t)
  : list ResumableChunk.t * list FileSignal * nat :=
  match cs with
  | [] => ([], [], 0%nat)
  | c :: rest =>
      let '(st, c1, l1) := status c in
      let '(c2, l2, k) :=
        if is_UPLOADING st
        then let '(c2, l2) := ResumableChunk.abort c1 in (c2, l2, 1%nat)
        else (c1, [], 0%nat) in
      let '(rest', l3, n) := abort_loop rest in
      (c2 :: rest', l1 ++ l2 ++ l3, (k + n)%nat)
  end.

(** [abort()] *)
Definition abort (f : t) : t * list FileSignal :=
  let '(cs, log, abortCount) := abort_loop (_chunks f) in
  (set_chunks f cs,
   log ++ (if (0 <? abortCount)%nat then [fileProgress] else [])).

(** The loop of [cancel()]. *)
Fixpoint cancel_loop (cs : list ResumableChunk.t)
  : list ResumableChunk.t * list FileSignal :=
  match cs with
  | [] => ([], [])
  | c :: rest =>
      let '(st, c1, l1) := status c in
      let '(c2, l2) :=
        if is_UPLOADING st
        then let '(c2, l2) := ResumableChunk.abort c1 in
             (c2, l2 ++ [chunkCancel (offset c)])
        else (c1, []) in
      let '(rest', l3) := cancel_loop rest in
      (c2 :: rest', l1 ++ l2 ++ l3)
  end.

(** [cancel()] *)
Definition cancel (f : t) : t * list FileSignal :=
  let '(_, log) := cancel_loop (_chunks f) in
  (set_chunks f [], log ++ [fileCancel; fileProgress]).

(** [Math.max(Math.ceil(this._size / this.chunkSize), 1)] *)
Definition maxOffset (f : t) : num :=
  jmax (jceil (jdiv (of_Z (_size f)) (of_Z (chunkSize f)))) (Fin 1).

(** [bootstrap()]; [None] when the chunking loop never ends. *)
Definition bootstrap (f : t) : option (t * list FileSignal) :=
  let '(f1, l1) := abort f in
  let f2 := set_prevProgress (set_chunks (set_error f1 false) []) (Fin 0) in
  n ← for_turns (maxOffset f2);
  let offsets := Z.of_nat <$> seq 0 n in
  let chunks := (λ off, newResumableChunk (_size f2) off (opts f2)) <$> offsets in
  let l2 := (λ off, chunkingProgress (jdiv (of_Z off) (maxOffset f2))) <$> offsets in
  Some (set_retryListeners (set_chunks f2 chunks) 0,
        l1 ++ l2 ++ [chunkingComplete] ++ replicate (retryListeners f2) fileRetry).

(** [retry()]: the listener is registered after [bootstrap()] has fired
    [chunkingComplete], so it stays armed until the next bootstrap.  What the
    listeners of the queue do when [fileRetry] reaches them (the queue calls
    its [upload()]) is not part of this function: a [retry()] that fires
    [fileRetry] is followed by it. *)
Definition retry (f : t) : option (t * list FileSignal) :=
  '(f1, log) ← bootstrap f;
  Some (set_retryListeners f1 (S (retryListeners f1)), log).

(** [new ResumableFile(file, uniqueIdentifier, fileCategory, options)] *)
Definition newResumableFile (name : string) (size : Z)
    (webkitRelativePath uniqueIdentifier fileCategory : string)
    (o : ChunkOptions)
  : option (t * list FileSignal) :=
  let f := {| opts := o; _prevProgress := Fin 0; isPaused := false;
              _fileName := name; _size := size;
              _relativePath :=
                (if String.eqb webkitRelativePath EmptyString then name
                 else webkitRelativePath);
              _uniqueIdentifier := uniqueIdentifier;
              _fileCategory := fileCategory; _error := true; _chunks := [];
              retryListeners := 0 |} in
  '(f1, log) ← bootstrap f;
  Some (f1, chunkingStart :: log).

(** The loop of [progress()]: the chunks as left behind, [error], [ret]. *)
Fixpoint progress_loop (cs : list ResumableChunk.t) (error : bool) (ret : num)
  : list ResumableChunk.t * bool * num :=
  match cs with
  | [] => ([], error, ret)
  | c :: rest =>
      let '(st, c1, _) := status c in
      let error := if is_ERROR st then true else error in
      let '(p, c2, _) := ResumableChunk.progress c1 true in
      let '(rest', error, ret) := progress_loop rest error (jadd ret p) in
      (c2 :: rest', error, ret)
  end.

(** The value [ret] holds before it is compared with [_prevProgress]. *)
Definition progress_fresh (error : bool) (ret : num) : num :=
  if error then Fin 1
  else if jgt ret (Fin (99999 # 100000)) then Fin 1 else ret.

(** [progress()] *)
Definition progress (f : t) : num * t :=
  if _error f then (Fin 1, f)
  else
    let '(cs, error, ret) := progress_loop (_chunks f) false (Fin 0) in
    let ret := progress_fresh error ret in
    let ret := jmax (_prevProgress f) ret in
    (ret, set_prevProgress (set_chunks f cs) ret).

(** [_chunks.some(p)] for a predicate on the status, which is read chunk by
    chunk up to the first hit. *)
Fixpoint some_status (p : ResumableChunkStatus → bool)
    (cs : list ResumableChunk.t) : bool * list ResumableChunk.t :=
  match cs with
  | [] => (false, [])
  | c :: rest =>
      let '(st, c1, _) := status c in
      if p st then (true, c1 :: rest)
      else let '(b, rest') := some_status p rest in (b, c1 :: rest')
  end.

(** [get isUploading()] *)
Definition isUploading (f : t) : bool * t :=
  let '(b, cs) := some_status is_UPLOADING (_chunks f) in (b, set_chunks f cs).

(** [get isComplete()]; the second operand of [||] reads the status again. *)
Definition isComplete (f : t) : bool * t :=
  let '(b, cs) :=
    some_status (λ st, is_PENDING st || is_UPLOADING st) (_chunks f) in
  (negb b, set_chunks f cs).

(** [markChunksCompleted(chunkNumber)] *)
Definition markChunksCompleted (f : t) (chunkNumber : nat) : t :=
  if (length (_chunks f) <=? chunkNumber)%nat then f
  else set_chunks f
         (foldl (λ cs num, alter markComplete num cs) (_chunks f)
                (seq 0 chunkNumber)).

(** The handlers [bootstrap()] attaches to every chunk. *)
Definition progressHandler (f : t) (off : Z) : t * list FileSignal :=
  (f, [chunkProgress off; fileProgress]).

Definition retryHandler (f : t) (off : Z) : t * list FileSignal :=
  (f, [chunkRetry off; fileRetry]).

Definition successHandler (f : t) (off : Z) : t * list FileSignal :=
  if _error f then (f, [])
  else
    let '(b, f1) := isComplete f in
    (f1, [chunkSuccess off; fileProgress] ++ (if b then [fileSuccess] else [])).

Definition errorHandler (f : t) (off : Z) : t * list FileSignal :=
  let '(f1, log) := abort f in
  (set_chunks (set_error f1 true) [],
   [chunkError off] ++ log ++ [fileError]).

(** What can happen to a file between two reads of its progress.
    [op_chunk i c] stands for everything the chunk at index [i] and its
    request do on their own (send, test, transport callbacks, retries): the
    chunk is left in state [c]. *)
Inductive Op : Type :=
| op_progress
| op_abort
| op_cancel
| op_retry
| op_markChunksCompleted (chunkNumber : nat)
| op_isUploading
| op_isComplete
| op_chunk (i : nat) (c : ResumableChunk.t)
| op_progressHandler (off : Z)
| op_retryHandler (off : Z)
| op_successHandler (off : Z)
| op_errorHandler (off : Z).

Definition is_retry (o : Op) : bool :=
  match o with op_retry => true | _ => false end.

(** One operation: the file it leaves and the value returned when the
    operation is [progress()]. *)
Definition step (o : Op) (f : t) : option (t * option num) :=
  match o with
  | op_progress => let '(r, f') := progress f in Some (f', Some r)
  | op_abort => Some ((abort f).1, None)
  | op_cancel => Some ((cancel f).1, None)
  | op_retry => '(f', _) ← retry f; Some (f', None)
  | op_markChunksCompleted n => Some (markChunksCompleted f n, None)
  | op_isUploading => Some ((isUploading f).2, None)
  | op_isComplete => Some ((isComplete f).2, None)
  | op_chunk i c => Some (set_chunks f (<[i:=c]> (_chunks f)), None)
  | op_progressHandler off => Some ((progressHandler f off).1, None)
  | op_retryHandler off => Some ((retryHandler f off).1, None)
  | op_successHandler off => Some ((successHandler f off).1, None)
  | op_errorHandler off => Some ((errorHandler f off).1, None)
  end.

(** A sequence of operations: the final file and the values returned by the
    calls of [progress()], in call order. *)
Fixpoint run (ops : list Op) (f : t) : option (t * list num) :=
  match ops with
  | [] => Some (f, [])
  | o :: rest =>
      '(f1, r) ← step o f;
      '(f2, rs) ← run rest f1;
      Some (f2, match r with Some v => v :: rs | None => rs end)
  end.

(** What the file fires when one of its chunks fires [s]; of what [send()]
    fires and calls, only [chunkProgress] has a listener. *)
Definition heard (f : t) (s : FileSignal) : list FileSignal :=
  match s with
  | chunkProgress off => (progressHandler f off).2
  | _ => [s]
  end.

(** The loop of [upload()]: the first chunk found PENDING is sent. *)
Fixpoint upload_loop (o : TransportOptions) (cs : list ResumableChunk.t)
  : bool * list ResumableChunk.t * list FileSignal :=
  match cs with
  | [] => (false, [], [])
  | c :: rest =>
      let '(st, c1, l1) := status c in
      if is_PENDING st
      then let '(c2, l2) := send o c1 in (true, c2 :: rest, l1 ++ l2)
      else let '(b, rest', l3) := upload_loop o rest in
           (b, c1 :: rest', l1 ++ l3)
  end.

(** [upload()] *)
Definition upload (o : TransportOptions) (f : t)
  : bool * t * list FileSignal :=
  if isPaused f then (false, f, [])
  else
    let '(b, cs, log) := upload_loop o (_chunks f) in
    (b, set_chunks f cs, log ≫= heard f).

End ResumableFile.

(** ** Outcome of a call *)

(** A call returns, throws (a [TypeError] on [undefined]) or never ends. *)
Inductive result (A : Type) : Type :=
| Returns (a : A)
| Throws
| Diverges.

Arguments Returns {A} a.
Arguments Throws {A}.
Arguments Diverges {A}.

#[export] Instance result_bind : MBind result :=
  λ A B k m,
    match m with
    | Returns a => k a
    | Throws => Throws
    | Diverges => Diverges
    end.

(** An object property that the code uses without checking it. *)
Definition defined {A : Type} (o : option A) : result A :=
  match o with Some a => Returns a | None => Throws end.

(** A call whose loop may never end. *)
Definition ending {A : Type} (o : option A) : result A :=
  match o with Some a => Returns a | None => Diverges end.

(** ** Strings *)

Definition lower (c : ascii) : ascii :=
  let n := nat_of_ascii c in
  if ((65 <=? n) && (n <=? 90))%nat then ascii_of_nat (n + 32) else c.

(** [s.toLowerCase()].  The names of files, types, categories and events
    are strings of ASCII characters here; a character above 127 is left as
    it is. *)
Definition toLowerCase (s : string) : string :=
  string_of_list_ascii (lower <$> list_ascii_of_string s).

(** [s.split('.').pop()] *)
Fixpoint last_segment (acc : string) (s : string) : string :=
  match s with
  | EmptyString => acc
  | String c s' =>
      if Ascii.eqb c "."
      then last_segment EmptyString s'
      else last_segment (acc +:+ String c EmptyString) s'
  end.

(** [s.includes(c)] for a one-character needle *)
Definition includes_char (c : ascii) (s : string) : bool :=
  existsb (Ascii.eqb c) (list_ascii_of_string s).

(** [s.substring(0, s'.indexOf('*'))] *)
Definition before_star (pattern s : string) : string :=
  match String.index 0 "*" pattern with
  | Some n => String.substring 0 n s
  | None => EmptyString
  end.

(** [\s] and [.]: what the sanitizing of file types removes. *)
Definition is_space_or_dot (c : ascii) : bool :=
  let n := nat_of_ascii c in
  ((n =? 32) || (9 <=? n) && (n <=? 13) || (n =? 46))%nat.

(** [type.replace(/[\s.]/g, '').toLowerCase()] *)
Definition sanitizeFileType (s : string) : string :=
  toLowerCase
    (string_of_list_ascii
       (filter (λ c, is_space_or_dot c = false) (list_ascii_of_string s))).

(** [[0-9a-zA-Z_-]] *)
Definition is_identifier_char (c : ascii) : bool :=
  let n := nat_of_ascii c in
  ((48 <=? n) && (n <=? 57) || (97 <=? n) && (n <=? 122)
   || (65 <=? n) && (n <=? 90) || (n =? 95) || (n =? 45))%nat.


(** ** Plain objects

    [files], [fileTypes], [validators] and [registeredEventHandlers] are
    objects made by [{}].  A [gmap] holds their own properties.  [key in
    object] and a read of [object[key]] also find what the object inherits
    from [Object.prototype]; [hasOwnProperty] does not.  An assignment to
    [object[key]] makes an own property, except for the key [__proto__],
    which the object inherits with a setter. *)

(** The names of the properties of [Object.prototype].  Their values are
    functions, but for [__proto__], whose value for a plain object is
    [Object.prototype] itself; all of them are truthy, none is an array. *)
Definition Object_prototype : list string :=
  ["constructor"; "__defineGetter__"; "__defineSetter__"; "hasOwnProperty";
   "__lookupGetter__"; "__lookupSetter__"; "isPrototypeOf";
   "propertyIsEnumerable"; "toString"; "valueOf"; "__proto__";
   "toLocaleString"].

(** [key in Object.prototype] *)
Definition inherited (key : string) : bool :=
  existsb (String.eqb key) Object_prototype.

(** ** ResumableEventHandler (dist/main.js)

    The base class of the three classes.  The callbacks are not run here:
    [fire] returns the calls it makes, in order.  Event names are compared
    after [toLowerCase]. *)

Module ResumableEventHandler.

Section Handlers.

Context {Callback Arg : Type}.

(** What a callback is called with: the arguments given to [fire], after
    the name of the event for the callbacks of ['*']. *)
Inductive Value : Type :=
| eventName (event : string)
| argument (a : Arg).

Definition Call : Type := Callback * list Value.

(** [registeredEventHandlers] *)
Definition t : Type := gmap string (list Callback).

Definition newResumableEventHandler : t := ∅.

(** [on(event, callback)].  For the event [__proto__] the assignment of
    [[]] goes to the inherited setter: the new array becomes the prototype
    of the object and receives the callback, the object gets no property
    of its own. *)
Definition on (registeredEventHandlers : t) (event : string)
    (callback : Callback) : t :=
  let event := toLowerCase event in
  match registeredEventHandlers !! event with
  | Some _ =>
      alter (λ callbacks, callbacks ++ [callback]) event
            registeredEventHandlers
  | None =>
      if String.eqb event "__proto__" then registeredEventHandlers
      else alter (λ callbacks, callbacks ++ [callback]) event
                 (<[event := []]> registeredEventHandlers)
  end.

(** [executeEventCallback(event, ...args)] *)
Definition executeEventCallback (registeredEventHandlers : t)
    (event : string) (args : list Value) : list Call :=
  match registeredEventHandlers !! event with
  | Some callbacks => (λ callback, (callback, args)) <$> callbacks
  | None => []
  end.

(** [fire(event, ...args)] *)
Definition fire (registeredEventHandlers : t) (event : string)
    (args : list Arg) : list Call :=
  let event := toLowerCase event in
  executeEventCallback registeredEventHandlers event (argument <$> args)
  ++ executeEventCallback registeredEventHandlers "*"
       (eventName event :: (argument <$> args)).

End Handlers.

End ResumableEventHandler.

(** ** ResumableHelpers (dist/main.js) *)

(** An array whose elements are values or arrays again. *)
Unset Elimination Schemes.
Inductive Nested (A : Type) : Type :=
| value (a : A)
| array (elements : list (Nested A)).
Set Elimination Schemes.

Arguments value {A} a.
Arguments array {A} elements.

(** [Helpers.flattenDeep(array)] *)
Fixpoint flattenDeep {A : Type} (array_ : Nested A) : list A :=
  match array_ with
  | array elements => foldl (λ a b, a ++ flattenDeep b) [] elements
  | value a => [a]
  end.

(** ** Resumable *)

Module Resumable.

Import ResumableChunk.

(** A [File] of the browser; [ref] stands for the identity of the object. *)
Record File : Type := {
  ref : nat;
  name : string;
  size : Z;
  type : string;
  webkitRelativePath : string;
}.

(** A [File] after [uniqueIdentifier] has been written to it. *)
Record ExtendedFile : Type := {
  file : File;
  uniqueIdentifier : string;
}.

Inductive Reason : Type :=
| unknownFileCategory
| duplicate
| fileType
| minFileSize_
| maxFileSize_
| validation
| maxFiles_.

(** What the scheduler fires, and the error callbacks it calls. *)
Inductive Signal : Type :=
| fileProcessingFailed (f : option ExtendedFile) (why : Reason) (fileCategory : string)
| errorCallback (why : Reason) (fs : list File)
| fileAdded (f : ResumableFile.t) (fileCategory : string)
| filesAdded (validated skipped : list ExtendedFile) (fileCategory : string)
| fileSuccess (fileCategory : string)
| categoryComplete (fileCategory : string)
| complete.

Record t : Type := {
  opts : ChunkOptions;
  files : gmap string (list ResumableFile.t);
  uncompletedFileCategories : list string;
  validators : gmap string (ExtendedFile → string → bool);
  fileCategories : list string;
  defaultFileCategory : option string;
  fileTypes : gmap string (list string);
  generateUniqueIdentifier : option (File → string → string);
  maxFileSize : option Z;
  maxFiles : option Z;
  minFileSize : option Z;
}.

Definition set_files (r : t) (m : gmap string (list ResumableFile.t)) : t :=
  {| opts := opts r; files := m;
     uncompletedFileCategories := uncompletedFileCategories r;
     validators := validators r; fileCategories := fileCategories r;
     defaultFileCategory := defaultFileCategory r; fileTypes := fileTypes r;
     generateUniqueIdentifier := generateUniqueIdentifier r;
     maxFileSize := maxFileSize r; maxFiles := maxFiles r;
     minFileSize := minFileSize r |}.

Definition set_uncompletedFileCategories (r : t) (l : list string) : t :=
  {| opts := opts r; files := files r; uncompletedFileCategories := l;
     validators := validators r; fileCategories := fileCategories r;
     defaultFileCategory := defaultFileCategory r; fileTypes := fileTypes r;
     generateUniqueIdentifier := generateUniqueIdentifier r;
     maxFileSize := maxFileSize r; maxFiles := maxFiles r;
     minFileSize := minFileSize r |}.

(** The options of the constructor, defaults filled in. *)
Record ResumableConfiguration : Type := {
  cfg_chunk : ChunkOptions;
  cfg_fileCategories : list string;
  cfg_defaultFileCategory : option string;
  cfg_fileTypes : list string;
  cfg_generateUniqueIdentifier : option (File → string → string);
  cfg_maxFileSize : option Z;
  cfg_maxFiles : option Z;
  cfg_minFileSize : option Z;
}.

(** [array.includes(s)] *)
Definition includes (l : list string) (s : string) : bool :=
  existsb (String.eqb s) l.

(** The loop of [setInstanceProperties] that declares the categories.  A
    category is passed over when [this.files[fileCategory]] is truthy: when
    it has its entry in [files] already, and also when its name is one that
    [files] inherits. *)
Fixpoint declare_categories (cats : list string)
    (m : gmap string (list ResumableFile.t)) (uncompleted dedup : list string)
  : gmap string (list ResumableFile.t) * list string * list string :=
  match cats with
  | [] => (m, uncompleted, dedup)
  | c :: rest =>
      match m !! c with
      | Some _ => declare_categories rest m uncompleted dedup
      | None =>
          if inherited c then declare_categories rest m uncompleted dedup
          else declare_categories rest (<[c:=[]]> m) (uncompleted ++ [c])
                                  (dedup ++ [c])
      end
  end.

(** [new Resumable(options)], for [fileTypes] given as an array. *)
Definition newResumable (o : ResumableConfiguration) : result t :=
  cats ← match cfg_defaultFileCategory o with
         | None =>
             if (length (cfg_fileCategories o) =? 0)%nat then Throws
             else Returns (cfg_fileCategories o)
         | Some d =>
             if includes (cfg_fileCategories o) d
             then Returns (cfg_fileCategories o)
             else Returns (cfg_fileCategories o ++ [d])
         end;
  let '(m, uncompleted, dedup) := declare_categories cats ∅ [] [] in
  Returns
    {| opts := cfg_chunk o; files := m;
       uncompletedFileCategories := uncompleted;
       validators := ∅; fileCategories := dedup;
       defaultFileCategory := cfg_defaultFileCategory o;
       fileTypes :=
         list_to_map ((λ c, (c, sanitizeFileType <$> cfg_fileTypes o)) <$> dedup);
       generateUniqueIdentifier := cfg_generateUniqueIdentifier o;
       maxFileSize := cfg_maxFileSize o; maxFiles := cfg_maxFiles o;
       minFileSize := cfg_minFileSize o |}.

(** [getFilesOfAllCategories()]; every declared category has its entry in
    [files] from the constructor on. *)
Definition getFilesOfAllCategories (r : t) : list ResumableFile.t :=
  concat ((λ c, default [] (files r !! c)) <$> fileCategories r).

(** [Helpers.generateUniqueIdentifier(file)] *)
Definition Helpers_generateUniqueIdentifier (f : File) : string :=
  pretty (size f) +:+ "-" +:+
  string_of_list_ascii
    (filter (λ c, is_identifier_char c = true) (list_ascii_of_string (name f))).

(** [callGenerateUniqueIdentifier(file, event, fileCategory)] *)
Definition callGenerateUniqueIdentifier (r : t) (f : File) (fileCategory : string)
  : string :=
  match generateUniqueIdentifier r with
  | Some g => g f fileCategory
  | None => Helpers_generateUniqueIdentifier f
  end.

(** [Helpers.uniqBy(files, file => file.uniqueIdentifier, errorCallback)] *)
Fixpoint uniqBy (seen : gset string) (l : list ExtendedFile) (fileCategory : string)
  : list ExtendedFile * list Signal :=
  match l with
  | [] => ([], [])
  | item :: rest =>
      let k := uniqueIdentifier item in
      if decide (k ∈ seen)
      then let '(out, log) := uniqBy seen rest fileCategory in
           (out, fileProcessingFailed (Some item) duplicate fileCategory :: log)
      else let '(out, log) := uniqBy ({[k]} ∪ seen) rest fileCategory in
           (item :: out, log)
  end.

(** The test of one allowed type against a file. *)
Definition fileTypeMatches (fileExtension fileType_ type_ : string) : bool :=
  String.eqb fileExtension type_
  || includes_char "/" type_
     && (includes_char "*" type_
         && String.eqb (before_star type_ fileType_) (before_star type_ type_)
         || String.eqb fileType_ type_).

(** [validators[fileExtension](file, fileCategory)] for an extension that
    [validators] has no property for, but inherits: what the call returns,
    as a truth value.  [Object(file, fileCategory)] returns the file, which
    is truthy; the value of [__proto__] is not a function, the call throws a
    [TypeError].  The other names of [Object.prototype] hold an upper-case
    letter; an extension, which is lower-cased, is none of them
    ([toLowerCase_inherited]). *)
Definition inherited_validator (fileExtension : string)
  : option (result bool) :=
  if String.eqb fileExtension "constructor" then Some (Returns true)
  else if String.eqb fileExtension "__proto__" then Some Throws
  else None.

(** The callback [validateFiles] maps over the deduplicated files.  The
    last test, [fileExtension in this.validators], finds the validators
    registered and the names [validators] inherits. *)
Definition validateFile (r : t) (fileCategory : string) (f : ExtendedFile)
  : result (bool * list Signal) :=
  resumableFiles ← defined (files r !! fileCategory);
  if existsb (λ added, String.eqb (ResumableFile._uniqueIdentifier added)
                                  (uniqueIdentifier f)) resumableFiles
  then Returns (false, [fileProcessingFailed (Some f) duplicate fileCategory])
  else
    let fileType_ := toLowerCase (type (file f)) in
    let fileExtension := toLowerCase (last_segment EmptyString (name (file f))) in
    types ← defined (fileTypes r !! fileCategory);
    if (0 <? length types)%nat
       && negb (existsb (fileTypeMatches fileExtension fileType_) types)
    then Returns (false, [fileProcessingFailed (Some f) fileType fileCategory;
                          errorCallback fileType [file f]])
    else if match minFileSize r with
            | Some m => size (file f) <? m
            | None => false
            end
    then Returns (false, [fileProcessingFailed (Some f) minFileSize_ fileCategory;
                          errorCallback minFileSize_ [file f]])
    else if match maxFileSize r with
            | Some m => m <? size (file f)
            | None => false
            end
    then Returns (false, [fileProcessingFailed (Some f) maxFileSize_ fileCategory;
                          errorCallback maxFileSize_ [file f]])
    else
      valid ← match validators r !! fileExtension with
              | Some validator => Returns (validator f fileCategory : bool)
              | None => default (Returns true) (inherited_validator fileExtension)
              end;
      if (valid : bool) then Returns (true, [])
      else Returns (false, [fileProcessingFailed (Some f) validation fileCategory;
                            errorCallback validation [file f]]).

(** [uniqueFiles.map(...)] awaited by [Promise.all] *)
Fixpoint validateAll (r : t) (fileCategory : string) (l : list ExtendedFile)
  : result (list bool * list Signal) :=
  match l with
  | [] => Returns ([], [])
  | f :: rest =>
      '(b, l1) ← validateFile r fileCategory f;
      '(bs, l2) ← validateAll r fileCategory rest;
      Returns (b :: bs, l1 ++ l2)
  end.

(** [files.filter((_v, index) => results[index])], from position [index] on;
    a position past the end of [results] reads [undefined]. *)
Fixpoint filterByResults {A : Type} (index : nat) (l : list A) (results : list bool)
  : list A :=
  match l with
  | [] => []
  | v :: rest =>
      if default false (results !! index)
      then v :: filterByResults (S index) rest results
      else filterByResults (S index) rest results
  end.

(** [validateFiles(files, fileCategory)]; [None] is the [undefined] returned
    for an unknown category. *)
Definition validateFiles (r : t) (l : list ExtendedFile) (fileCategory : string)
  : result (option (list ExtendedFile) * list Signal) :=
  if negb (includes (fileCategories r) fileCategory)
  then Returns (None, [fileProcessingFailed None unknownFileCategory fileCategory])
  else
    let '(uniqueFiles, l1) := uniqBy ∅ l fileCategory in
    '(results, l2) ← validateAll r fileCategory uniqueFiles;
    Returns (Some (filterByResults 0 l results), l1 ++ l2).

(** [files.findIndex(p)] *)
Fixpoint findIndex {A : Type} (p : A → bool) (l : list A) : option nat :=
  match l with
  | [] => None
  | x :: rest => if p x then Some 0%nat else S <$> findIndex p rest
  end.

(** [removeFile(file)] *)
Definition removeFile (r : t) (f : ResumableFile.t) : result t :=
  let fileCategory := ResumableFile._fileCategory f in
  fs ← defined (files r !! fileCategory);
  match findIndex (λ g, String.eqb (ResumableFile._uniqueIdentifier g)
                                   (ResumableFile._uniqueIdentifier f)) fs with
  | Some fileIndex =>
      Returns (set_files r (<[fileCategory := delete fileIndex fs]> (files r)))
  | None => Returns r
  end.

(** [validatedFiles.includes(file)]: the same object. *)
Definition includes_file (l : list ExtendedFile) (f : ExtendedFile) : bool :=
  existsb (λ g, (ref (file g) =? ref (file f))%nat) l.

(** The loop of [appendFilesFromFileList] that creates the files. *)
Fixpoint createFiles (r : t) (validatedFiles : list ExtendedFile)
    (fileCategory : string) : result (t * list Signal) :=
  match validatedFiles with
  | [] => Returns (r, [])
  | f :: rest =>
      '(rf, _) ← ending (ResumableFile.newResumableFile
                           (name (file f)) (size (file f))
                           (webkitRelativePath (file f))
                           (uniqueIdentifier f) fileCategory (opts r));
      fs ← defined (files r !! fileCategory);
      let r1 := set_files r (<[fileCategory := fs ++ [rf]]> (files r)) in
      '(r2, log) ← createFiles r1 rest fileCategory;
      Returns (r2, fileAdded rf fileCategory :: log)
  end.

(** What [appendFilesFromFileList] returns: [false] or nothing. *)
Inductive Returned : Type :=
| returned_false
| returned_undefined.

(** [appendFilesFromFileList] from the generation of the identifiers on. *)
Definition admitFiles (r : t) (fileList : list File) (fileCategory : string)
  : result (t * list Signal * Returned) :=
  let filesWithUniqueIdentifiers :=
    (λ f, {| file := f;
             uniqueIdentifier := callGenerateUniqueIdentifier r f fileCategory |})
      <$> fileList in
  '(validated, l1) ← validateFiles r filesWithUniqueIdentifiers fileCategory;
  validatedFiles ← defined validated;
  let skippedFiles :=
    filter (λ f, includes_file validatedFiles f = false)
           filesWithUniqueIdentifiers in
  '(r1, l2) ← createFiles r validatedFiles fileCategory;
  if ((length validatedFiles =? 0) && (length skippedFiles =? 0))%nat
  then Returns (r1, l1 ++ l2, returned_undefined)
  else Returns (r1, l1 ++ l2 ++ [filesAdded validatedFiles skippedFiles fileCategory],
                returned_undefined).

(** [appendFilesFromFileList(fileList, event, fileCategory)], for a call
    that runs to its end before another intake begins: the code tests the
    cap before it awaits the identifiers and the duplicates before it
    awaits the validators, and pushes the files after both.
    [resumableFiles] is [this.files[fileCategory]], [None] when that is not
    an array; the call goes on when it is truthy, as the value of every
    name that [files] inherits is. *)
Definition appendFilesFromFileList (r : t) (fileList : list File)
    (fileCategory : string) : result (t * list Signal * Returned) :=
  let resumableFiles := files r !! fileCategory in
  if negb (bool_decide (is_Some resumableFiles) || inherited fileCategory)
  then
    Returns (r, [fileProcessingFailed None unknownFileCategory fileCategory],
             returned_false)
  else
    let allResumableFiles := getFilesOfAllCategories r in
    let tooMany :=
      match maxFiles r with
      | Some m =>
          m <? Z.of_nat (length fileList) + Z.of_nat (length allResumableFiles)
      | None => false
      end in
    if tooMany then
      if match maxFiles r with Some m => m =? 1 | None => false end
         && (length allResumableFiles =? 1)%nat && (length fileList =? 1)%nat
      then
        first ← defined (resumableFiles ≫= head);
        r1 ← removeFile r first;
        admitFiles r1 fileList fileCategory
      else
        Returns (r, [fileProcessingFailed None maxFiles_ fileCategory;
                     errorCallback maxFiles_ fileList],
                 returned_false)
    else admitFiles r fileList fileCategory.

(** [files[fileCategory].every((file) => file.isComplete)]: the getter is
    read file by file up to the first that is not complete. *)
Fixpoint every_isComplete (fs : list ResumableFile.t)
  : bool * list ResumableFile.t :=
  match fs with
  | [] => (true, [])
  | f :: rest =>
      let '(b, f1) := ResumableFile.isComplete f in
      if b then let '(b', rest') := every_isComplete rest in (b', f1 :: rest')
      else (false, f1 :: rest)
  end.

(** The [forEach] of [checkUploadComplete] over the categories still
    uncompleted. *)
Fixpoint checkCategories (m : gmap string (list ResumableFile.t))
    (uncompleted : list string)
  : result (gmap string (list ResumableFile.t) * list string * list Signal) :=
  match uncompleted with
  | [] => Returns (m, [], [])
  | fileCategory :: rest =>
      fs ← defined (m !! fileCategory);
      if (length fs =? 0)%nat then checkCategories m rest
      else
        let '(b, fs') := every_isComplete fs in
        let m1 := <[fileCategory := fs']> m in
        '(m2, still, log) ← checkCategories m1 rest;
        if b then Returns (m2, still, categoryComplete fileCategory :: log)
        else Returns (m2, fileCategory :: still, log)
  end.

(** [checkUploadComplete()] *)
Definition checkUploadComplete (r : t) : result (t * list Signal) :=
  if (length (getFilesOfAllCategories r) =? 0)%nat then Returns (r, [])
  else
    '(m, stillUncompletedFileCategories, log) ←
      checkCategories (files r) (uncompletedFileCategories r);
    let r1 :=
      set_uncompletedFileCategories (set_files r m)
        stillUncompletedFileCategories in
    if (length stillUncompletedFileCategories =? 0)%nat
    then Returns (r1, log ++ [complete])
    else Returns (r1, log).

(** [handleFileSuccess(args, fileCategory)] *)
Definition handleFileSuccess (r : t) (fileCategory : string)
  : result (t * list Signal) :=
  '(r1, log) ← checkUploadComplete r;
  Returns (r1, fileSuccess fileCategory :: log).

(** Successive file-success events; before each one the files are what
    adding, removing and uploading have made of them by then. *)
Fixpoint successes (r : t)
    (events : list (gmap string (list ResumableFile.t) * string))
  : result (t * list (list Signal)) :=
  match events with
  | [] => Returns (r, [])
  | (m, fileCategory) :: rest =>
      '(r1, log) ← handleFileSuccess (set_files r m) fileCategory;
      '(r2, logs) ← successes r1 rest;
      Returns (r2, log :: logs)
  end.

(** *** The queue *)

(** [getFromUniqueIdentifier(uniqueIdentifier)] *)
Definition getFromUniqueIdentifier (r : t) (uniqueIdentifier : string)
  : option ResumableFile.t :=
  find (λ f, String.eqb (ResumableFile._uniqueIdentifier f) uniqueIdentifier)
       (getFilesOfAllCategories r).

(** [getSize()] *)
Definition getSize (r : t) : Z :=
  foldl (λ accumulator f, accumulator + ResumableFile._size f) 0
        (getFilesOfAllCategories r).

(** The loops of the queue work on the objects of the array that
    [getFilesOfAllCategories()] returns.  Here the array is updated and its
    files are stored back, category by category. *)
Fixpoint store_files (cats : list string)
    (m : gmap string (list ResumableFile.t)) (fs : list ResumableFile.t)
  : gmap string (list ResumableFile.t) :=
  match cats with
  | [] => m
  | c :: rest =>
      match m !! c with
      | Some held =>
          store_files rest (<[c := take (length held) fs]> m)
                      (drop (length held) fs)
      | None => store_files rest m fs
      end
  end.

Definition with_files (r : t) (fs : list ResumableFile.t) : t :=
  set_files r (store_files (fileCategories r) (files r) fs).

(** The options of the instance that the record [t] does not hold. *)
Record QueueOptions : Type := {
  transport : TransportOptions;
  simultaneousUploads : Z;
  prioritizeFirstAndLastChunk : bool;
}.

(** What the queue fires: its own signals and, with the category added,
    those of its files; [forwarded (xhrAbort _) _] is not fired, it is the
    abort of a request passed on to the log. *)
Inductive QueueSignal : Type :=
| uploadStart
| pause_
| progress_
| forwarded (s : FileSignal) (fileCategory : string).

(** What the queue does with what [upload()] and [abort()] of a file leave
    in the log.  The listeners that the intake registers on the file for
    [chunkProgress] and [fileProgress] fire the signal again with the
    category, [handleFileProgress] fires [progress] after it; the abort of
    a request is passed on.  No other signal of a file occurs in these
    logs. *)
Definition handle (f : ResumableFile.t) (s : FileSignal) : list QueueSignal :=
  match s with
  | fileProgress =>
      [forwarded fileProgress (ResumableFile._fileCategory f); progress_]
  | _ => [forwarded s (ResumableFile._fileCategory f)]
  end.

(** [for (const file of files) { if (step(file)) return; }] *)
Fixpoint firstFile
    (step : ResumableFile.t → bool * ResumableFile.t * list FileSignal)
    (fs : list ResumableFile.t)
  : bool * list ResumableFile.t * list QueueSignal :=
  match fs with
  | [] => (false, [], [])
  | f :: rest =>
      let '(b, f1, l1) := step f in
      if b then (true, f1 :: rest, l1 ≫= handle f)
      else let '(b', rest', l2) := firstFile step rest in
           (b', f1 :: rest', (l1 ≫= handle f) ++ l2)
  end.

(** The body of the loop of [uploadNextChunk()] that looks at the first and
    at the last chunk of a file. *)
Definition sendFirstOrLast (o : TransportOptions) (f : ResumableFile.t)
  : bool * ResumableFile.t * list FileSignal :=
  match ResumableFile._chunks f with
  | [] => (false, f, [])
  | c :: rest =>
      let '(st, c1, l1) := status c in
      if ResumableFile.is_PENDING st
      then let '(c2, l2) := send o c1 in
           (true, ResumableFile.set_chunks f (c2 :: rest),
            (l1 ++ l2) ≫= ResumableFile.heard f)
      else
        match last rest with
        | None => (false, ResumableFile.set_chunks f (c1 :: rest), l1)
        | Some d =>
            let '(st', d1, l3) := status d in
            if ResumableFile.is_PENDING st'
            then let '(d2, l4) := send o d1 in
                 (true,
                  ResumableFile.set_chunks f
                    (c1 :: <[pred (length rest) := d2]> rest),
                  (l1 ++ l3 ++ l4) ≫= ResumableFile.heard f)
            else (false,
                  ResumableFile.set_chunks f
                    (c1 :: <[pred (length rest) := d1]> rest),
                  l1 ++ l3)
        end
  end.

(** [uploadNextChunk()], on the array of the files. *)
Definition uploadNextChunk_files (o : QueueOptions)
    (fs : list ResumableFile.t)
  : list ResumableFile.t * list QueueSignal :=
  if prioritizeFirstAndLastChunk o
  then
    let '(b, fs1, l1) := firstFile (sendFirstOrLast (transport o)) fs in
    if b then (fs1, l1)
    else let '(_, fs2, l2) :=
           firstFile (ResumableFile.upload (transport o)) fs1 in
         (fs2, l1 ++ l2)
  else
    let '(_, fs2, l2) := firstFile (ResumableFile.upload (transport o)) fs in
    (fs2, l2).

(** [uploadNextChunk()] *)
Definition uploadNextChunk (o : QueueOptions) (r : t)
  : t * list QueueSignal :=
  let '(fs, log) := uploadNextChunk_files o (getFilesOfAllCategories r) in
  (with_files r fs, log).

(** [get isUploading()] *)
Definition isUploading (r : t) : bool * t :=
  let '(b, fs, _) :=
    firstFile (λ f, let '(b, f1) := ResumableFile.isUploading f in
                    (b, f1, []))
              (getFilesOfAllCategories r) in
  (b, with_files r fs).

(** The loop of [upload()]: [uploadNextChunk()], [turns] times. *)
Fixpoint uploadNextChunks (o : QueueOptions) (turns : nat) (r : t)
  : t * list QueueSignal :=
  match turns with
  | O => (r, [])
  | S n =>
      let '(r1, l1) := uploadNextChunk o r in
      let '(r2, l2) := uploadNextChunks o n r1 in
      (r2, l1 ++ l2)
  end.

(** [upload()] *)
Definition upload (o : QueueOptions) (r : t) : t * list QueueSignal :=
  let '(b, r1) := isUploading r in
  if b then (r1, [])
  else let '(r2, log) :=
         uploadNextChunks o (Z.to_nat (simultaneousUploads o)) r1 in
       (r2, uploadStart :: log).

(** The loop of [pause()]. *)
Fixpoint abortFiles (fs : list ResumableFile.t)
  : list ResumableFile.t * list QueueSignal :=
  match fs with
  | [] => ([], [])
  | f :: rest =>
      let '(f1, l1) := ResumableFile.abort f in
      let '(rest', l2) := abortFiles rest in
      (f1 :: rest', (l1 ≫= handle f) ++ l2)
  end.

(** [pause()] *)
Definition pause (r : t) : t * list QueueSignal :=
  let '(fs, log) := abortFiles (getFilesOfAllCategories r) in
  (with_files r fs, log ++ [pause_]).

(** The [reduce] of [progress()]: the files as left behind and
    [totalDone]. *)
Fixpoint totalDone (fs : list ResumableFile.t) (accumulator : num)
  : list ResumableFile.t * num :=
  match fs with
  | [] => ([], accumulator)
  | f :: rest =>
      let '(p, f1) := ResumableFile.progress f in
      let '(rest', total) :=
        totalDone rest
          (jadd accumulator (jmul (of_Z (ResumableFile._size f)) p)) in
      (f1 :: rest', total)
  end.

(** [progress()] *)
Definition progress (r : t) : num * t :=
  let '(fs, done) := totalDone (getFilesOfAllCategories r) (Fin 0) in
  let r1 := with_files r fs in
  let totalSize := getSize r1 in
  (if 0 <? totalSize then jdiv done (of_Z totalSize) else Fin 0, r1).

(** *** Validators *)

Definition set_validators (r : t)
    (v : gmap string (ExtendedFile → string → bool)) : t :=
  {| opts := opts r; files := files r;
     uncompletedFileCategories := uncompletedFileCategories r;
     validators := v; fileCategories := fileCategories r;
     defaultFileCategory := defaultFileCategory r; fileTypes := fileTypes r;
     generateUniqueIdentifier := generateUniqueIdentifier r;
     maxFileSize := maxFileSize r; maxFiles := maxFiles r;
     minFileSize := minFileSize r |}.

(** [addFileValidator(fileType, validator)].  For the file type [__proto__]
    the assignment makes the validator the prototype of [validators]; what
    the object inherits from then on is not modelled: the result is
    [None]. *)
Definition addFileValidator (r : t) (fileType_ : string)
    (validator : ExtendedFile → string → bool) : option t :=
  if String.eqb fileType_ "__proto__" then None
  else Some (set_validators r (<[fileType_ := validator]> (validators r))).

End Resumable.

(** * Specification-level definitions *)

Import ResumableChunk.

(** The decision table of the chunk status, rule by rule.  A rule applies
    only when the conditions of all rules before it fail; the last rule is
    the only one that leaves the chunk changed. *)
Inductive status_table (c : ResumableChunk.t)
  : ResumableChunkStatus → ResumableChunk.t → Prop :=
| rule_pendingRetry :
    pendingRetry c = true →
    status_table c UPLOADING c
| rule_markedComplete :
    pendingRetry c = false → isMarkedComplete c = true →
    status_table c SUCCESS c
| rule_noRequest :
    pendingRetry c = false → isMarkedComplete c = false → xhr c = None →
    status_table c PENDING c
| rule_inFlight x :
    pendingRetry c = false → isMarkedComplete c = false → xhr c = Some x →
    readyState x < 4 →
    status_table c UPLOADING c
| rule_successCode x :
    pendingRetry c = false → isMarkedComplete c = false → xhr c = Some x →
    4 ≤ readyState x →
    status_code x = 200 ∨ status_code x = 201 →
    status_table c SUCCESS c
| rule_permanent x :
    pendingRetry c = false → isMarkedComplete c = false → xhr c = Some x →
    4 ≤ readyState x →
    status_code x ≠ 200 → status_code x ≠ 201 →
    In (status_code x) (permanentErrors c) ∨ maxChunkRetries c ≤ retries c →
    status_table c ERROR c
| rule_transient x :
    pendingRetry c = false → isMarkedComplete c = false → xhr c = Some x →
    4 ≤ readyState x →
    status_code x ≠ 200 → status_code x ≠ 201 →
    ¬ In (status_code x) (permanentErrors c) →
    retries c < maxChunkRetries c →
    status_table c PENDING (set_xhr c None).

(** The transient-failure case of the status: the request of the chunk is
    finished, its status code is neither a success nor a permanent error,
    retries are left, and the chunk neither waits for a retry nor is marked
    complete. *)
Definition failed_transiently (c : ResumableChunk.t) : Prop :=
  pendingRetry c = false ∧ isMarkedComplete c = false
  ∧ ∃ x, xhr c = Some x ∧ 4 ≤ readyState x
         ∧ status_code x ≠ 200 ∧ status_code x ≠ 201
         ∧ ¬ In (status_code x) (permanentErrors c)
         ∧ retries c < maxChunkRetries c.

(** The share of the file's bytes held by a chunk, or 1. *)
Definition share (c : ResumableChunk.t) (relative : bool) : num :=
  if relative
  then jdiv (of_Z (endByte c - startByte c)) (of_Z (fileObjSize c))
  else Fin 1.

(** A chunk whose request ended without any status code, all retries used:
    the network was down for every attempt. *)
Definition chunk_network_down : ResumableChunk.t :=
  {| fileObjSize := 10; offset := 0; tested := true; retries := 100;
     pendingRetry := false; isMarkedComplete := false; loaded := 0;
     startByte := 0; endByte := 10;
     xhr := Some {| readyState := 4; status_code := 0 |};
     chunkSize := default_chunkSize;
     maxChunkRetries := default_maxChunkRetries;
     permanentErrors := default_permanentErrors |}.

(** A chunk whose request was answered with [code]. *)
Definition chunk_answered (code : Z) : ResumableChunk.t :=
  set_xhr (newResumableChunk 10 0 no_options)
          (Some {| readyState := 4; status_code := code |}).

(** [ceil(S / C)] on integers. *)
Definition ceil_quot (S C : Z) : Z := - ((- S) / C).

(** [endByte - startByte] *)
Definition chunk_length (c : ResumableChunk.t) : Z := endByte c - startByte c.

Definition total_length (cs : list ResumableChunk.t) : Z :=
  foldr (λ c acc, chunk_length c + acc) 0 cs.

(** A file before its first bootstrap, as the constructor sets it up. *)
Definition blank_file (size : Z) (o : ChunkOptions) : ResumableFile.t :=
  {| ResumableFile.opts := o; ResumableFile._prevProgress := Fin 0;
     ResumableFile.isPaused := false; ResumableFile._fileName := "video.mp4";
     ResumableFile._size := size;
     ResumableFile._relativePath := "video.mp4";
     ResumableFile._uniqueIdentifier := "id";
     ResumableFile._fileCategory := "default";
     ResumableFile._error := true; ResumableFile._chunks := [];
     ResumableFile.retryListeners := 0 |}.

(** A file of [size] bytes after the bootstrap of its constructor. *)
Definition bootstrapped (size : Z) (o : ChunkOptions) : ResumableFile.t :=
  default (blank_file size o)
          (fst <$> ResumableFile.bootstrap (blank_file size o)).

(** A chunk of a file of ten bytes in chunks of four, after a failed
    request: it waits for the timer of its retry. *)
Definition waiting_chunk : ResumableChunk.t :=
  {| fileObjSize := 10; offset := 1; tested := true; retries := 1;
     pendingRetry := true; isMarkedComplete := false; loaded := 0;
     startByte := 4; endByte := 8; xhr := None;
     chunkSize := 4;
     maxChunkRetries := default_maxChunkRetries;
     permanentErrors := default_permanentErrors |}.

(** Probes first, and a second between a failed request and its retry. *)
Definition transport_with_timer : TransportOptions :=
  {| testChunks := true; chunkRetryInterval := Some 1000 |}.

(** A chunk of the same file whose request was answered 500. *)
Definition failed_chunk : ResumableChunk.t :=
  {| fileObjSize := 10; offset := 0; tested := true; retries := 0;
     pendingRetry := false; isMarkedComplete := false; loaded := 4;
     startByte := 0; endByte := 4;
     xhr := Some {| readyState := 4; status_code := 500 |};
     chunkSize := 4;
     maxChunkRetries := default_maxChunkRetries;
     permanentErrors := default_permanentErrors |}.

(** What [_prevProgress] can hold: NaN (a file of no bytes) or a value of at
    most 1. *)
Definition floor_ok (p : num) : Prop :=
  match p with
  | NaN => True
  | Inf _ => False
  | Fin q => (q <= 1)%Q
  end.

(** No value of the list is less than the one before it. *)
Fixpoint nondecreasing (rs : list num) : Prop :=
  match rs with
  | a :: (b :: _) as rest => jlt b a = false ∧ nondecreasing rest
  | _ => True
  end.

(** The aggregate [progress()] computes before it looks at the floor. *)
Definition fresh_progress (f : ResumableFile.t) : num :=
  let '(_, error, ret) :=
    ResumableFile.progress_loop (ResumableFile._chunks f) false (Fin 0) in
  ResumableFile.progress_fresh error ret.

(** The five checks of the intake, one by one. *)
Definition fileExtension_of (f : Resumable.ExtendedFile) : string :=
  toLowerCase (last_segment EmptyString (Resumable.name (Resumable.file f))).

Definition already_added (r : Resumable.t) (fileCategory : string)
    (f : Resumable.ExtendedFile) : bool :=
  existsb (λ added, String.eqb (ResumableFile._uniqueIdentifier added)
                               (Resumable.uniqueIdentifier f))
          (default [] (Resumable.files r !! fileCategory)).

Definition type_allowed (r : Resumable.t) (fileCategory : string)
    (f : Resumable.ExtendedFile) : bool :=
  let types := default [] (Resumable.fileTypes r !! fileCategory) in
  (length types =? 0)%nat
  || existsb (Resumable.fileTypeMatches
                (fileExtension_of f)
                (toLowerCase (Resumable.type (Resumable.file f))))
             types.

Definition min_size_ok (r : Resumable.t) (f : Resumable.ExtendedFile) : bool :=
  match Resumable.minFileSize r with
  | Some m => m <=? Resumable.size (Resumable.file f)
  | None => true
  end.

Definition max_size_ok (r : Resumable.t) (f : Resumable.ExtendedFile) : bool :=
  match Resumable.maxFileSize r with
  | Some m => Resumable.size (Resumable.file f) <=? m
  | None => true
  end.

Definition validator_ok (r : Resumable.t) (fileCategory : string)
    (f : Resumable.ExtendedFile) : bool :=
  match Resumable.validators r !! fileExtension_of f with
  | Some validator => validator f fileCategory
  | None => true
  end.

(** The validator check of the file cannot be made: the file has passed
    the checks before it, no validator is registered for its extension, and
    the extension is [__proto__], the name under which [validators] finds
    its prototype, which is then called. *)
Definition validator_throws (r : Resumable.t) (fileCategory : string)
    (f : Resumable.ExtendedFile) : bool :=
  negb (already_added r fileCategory f) && type_allowed r fileCategory f
  && min_size_ok r f && max_size_ok r f
  && match Resumable.validators r !! fileExtension_of f with
     | Some _ => false
     | None => String.eqb (fileExtension_of f) "__proto__"
     end.

(** The four checks that do not look at the files already held. *)
Definition passes_own_checks (r : Resumable.t) (fileCategory : string)
    (f : Resumable.ExtendedFile) : bool :=
  type_allowed r fileCategory f && min_size_ok r f && max_size_ok r f
  && validator_ok r fileCategory f.

Definition passes_every_check (r : Resumable.t) (fileCategory : string)
    (f : Resumable.ExtendedFile) : bool :=
  negb (already_added r fileCategory f) && passes_own_checks r fileCategory f.

(** A string of ASCII characters: [toLowerCase] is exact on it. *)
Definition ascii_only (s : string) : Prop :=
  Forall (λ c, (nat_of_ascii c < 128)%nat) (list_ascii_of_string s).

(** What it means for an allowed type to match a file of the lower-cased
    extension [extension] and the lower-cased MIME type [mime]: the type is
    the extension; or it is a MIME type (it holds a slash) and is the MIME
    type of the file, or holds a star and the MIME type of the file begins
    with what stands before the first star. *)
Definition type_matches (extension mime type_ : string) : Prop :=
  extension = type_
  ∨ includes_char "/" type_ = true
    ∧ (mime = type_
       ∨ ∃ p q, type_ = p +:+ String "*" q ∧ includes_char "*" p = false
                ∧ String.prefix p mime = true).

(** What the intake fires and calls for a file it turns down. *)
Definition failure (why : Resumable.Reason) (fileCategory : string)
    (f : Resumable.ExtendedFile) : list Resumable.Signal :=
  [Resumable.fileProcessingFailed (Some f) why fileCategory;
   Resumable.errorCallback why [Resumable.file f]].

(** The options left at their defaults, but for the cap on the files. *)
Definition configuration (cap : option Z) : Resumable.ResumableConfiguration :=
  {| Resumable.cfg_chunk := no_options;
     Resumable.cfg_fileCategories := [];
     Resumable.cfg_defaultFileCategory := Some "default";
     Resumable.cfg_fileTypes := [];
     Resumable.cfg_generateUniqueIdentifier := None;
     Resumable.cfg_maxFileSize := None;
     Resumable.cfg_maxFiles := cap;
     Resumable.cfg_minFileSize := Some 1 |}.

Definition a_file (ref : nat) (name : string) (size : Z) : Resumable.File :=
  {| Resumable.ref := ref; Resumable.name := name; Resumable.size := size;
     Resumable.type := "video/mp4"; Resumable.webkitRelativePath := "" |}.

Definition identified (f : Resumable.File) : Resumable.ExtendedFile :=
  {| Resumable.file := f;
     Resumable.uniqueIdentifier := Resumable.Helpers_generateUniqueIdentifier f |}.

(** A batch in which an empty file comes twice, before a good one. *)
Definition batch_with_duplicate : list Resumable.ExtendedFile :=
  identified <$> [a_file 1 "empty.mp4" 0; a_file 2 "empty.mp4" 0;
                  a_file 3 "movie.mp4" 10].

(** The failure signal of the cap on the files, and its callback. *)
Definition is_maxFiles_failure (s : Resumable.Signal) : bool :=
  match s with
  | Resumable.fileProcessingFailed _ Resumable.maxFiles_ _ => true
  | Resumable.errorCallback Resumable.maxFiles_ _ => true
  | _ => false
  end.

(** [file] with the identifier the scheduler gives it. *)
Definition extended (r : Resumable.t) (fileCategory : string)
    (f : Resumable.File) : Resumable.ExtendedFile :=
  {| Resumable.file := f;
     Resumable.uniqueIdentifier :=
       Resumable.callGenerateUniqueIdentifier r f fileCategory |}.

(** A scheduler capped at one file, after [a.mp4] has been added. *)
Definition widget_with_one_file : result Resumable.t :=
  r ← Resumable.newResumable (configuration (Some 1));
  x ← Resumable.appendFilesFromFileList r [a_file 1 "a.mp4" 10] "default";
  Returns x.1.1.

(** A category that holds a file, all of its files complete. *)
Definition category_done (m : gmap string (list ResumableFile.t))
    (fileCategory : string) : bool :=
  match m !! fileCategory with
  | Some fs => negb (length fs =? 0)%nat && (Resumable.every_isComplete fs).1
  | None => false
  end.

(** A category that holds a file, not all of its files complete. *)
Definition category_waiting (m : gmap string (list ResumableFile.t))
    (fileCategory : string) : bool :=
  match m !! fileCategory with
  | Some fs => negb (length fs =? 0)%nat
               && negb (Resumable.every_isComplete fs).1
  | None => false
  end.

(** Some category holds a file. *)
Definition files_present (r : Resumable.t) : bool :=
  negb (length (Resumable.getFilesOfAllCategories r) =? 0)%nat.

(** What a file-success event is answered with once no category is left
    uncompleted. *)
Definition after_completion (r : Resumable.t)
    (event : gmap string (list ResumableFile.t) * string)
  : list Resumable.Signal :=
  Resumable.fileSuccess event.2
  :: (if files_present (Resumable.set_files r event.1)
      then [Resumable.complete] else []).

(** The categories a log signals as complete, in order. *)
Definition completed_in (log : list Resumable.Signal) : list string :=
  omap (λ s, match s with
             | Resumable.categoryComplete c => Some c
             | _ => None
             end) log.

(** A file whose only chunk was answered 200. *)
Definition uploaded_file : ResumableFile.t :=
  ResumableFile.set_chunks (bootstrapped 10 no_options) [chunk_answered 200].

(** Two declared categories and a cap of one file. *)
Definition two_categories : Resumable.ResumableConfiguration :=
  {| Resumable.cfg_chunk := no_options;
     Resumable.cfg_fileCategories := ["photos"; "videos"];
     Resumable.cfg_defaultFileCategory := None;
     Resumable.cfg_fileTypes := [];
     Resumable.cfg_generateUniqueIdentifier := None;
     Resumable.cfg_maxFileSize := None;
     Resumable.cfg_maxFiles := Some 1;
     Resumable.cfg_minFileSize := Some 1 |}.

(** The status a read of the chunk returns. *)
Definition status_of (c : ResumableChunk.t) : ResumableChunkStatus :=
  (ResumableChunk.status c).1.1.

(** An answer that is neither a success nor a permanent error of the
    chunk. *)
Definition transient (c : ResumableChunk.t) (code : Z) : Prop :=
  code ≠ 200 ∧ code ≠ 201 ∧ ¬ In code (permanentErrors c).

(** The chunk sends upload requests without a probe first. *)
Definition no_probe (o : TransportOptions) (c : ResumableChunk.t) : Prop :=
  testChunks o = false ∨ tested c = true.

(** What one failed and retried upload request leaves in the log. *)
Definition retry_round (c : ResumableChunk.t) : list FileSignal :=
  [xhrAbort (offset c); chunkRetry (offset c); chunkProgress (offset c)].

(** The signals that end the handling of an answer. *)
Definition is_outcome (s : FileSignal) : bool :=
  match s with
  | chunkSuccess _ | chunkError _ | chunkRetry _ => true
  | _ => false
  end.

(** The chunk after one failed upload request has been retried. *)
Definition retried (c : ResumableChunk.t) : ResumableChunk.t :=
  {| fileObjSize := fileObjSize c; offset := offset c; tested := tested c;
     retries := retries c + 1; pendingRetry := false;
     isMarkedComplete := isMarkedComplete c; loaded := 0;
     startByte := startByte c; endByte := endByte c; xhr := Some opened;
     chunkSize := chunkSize c; maxChunkRetries := maxChunkRetries c;
     permanentErrors := permanentErrors c |}.

(** The statuses the chunks of a file report, in chunk order. *)
Definition statuses (f : ResumableFile.t) : list ResumableChunkStatus :=
  status_of <$> ResumableFile._chunks f.

(** A status that no further answer changes. *)
Definition terminal (st : ResumableChunkStatus) : bool :=
  match st with
  | SUCCESS | ERROR => true
  | _ => false
  end.

(** [l'] is [l] with one PENDING entry turned into UPLOADING. *)
Definition one_sent (l l' : list ResumableChunkStatus) : Prop :=
  ∃ l1 l2, l = l1 ++ PENDING :: l2 ∧ l' = l1 ++ UPLOADING :: l2.

(** The same, for the first PENDING entry of [l]. *)
Definition first_sent (l l' : list ResumableChunkStatus) : Prop :=
  ∃ l1 l2, l = l1 ++ PENDING :: l2 ∧ l' = l1 ++ UPLOADING :: l2
           ∧ PENDING ∉ l1.

(** What a chunk reports after the [abort()] of its file: a request that
    was on its way is gone and the chunk is PENDING again, a retry that
    waits for its timer goes on waiting. *)
Definition after_abort (c : ResumableChunk.t) : ResumableChunkStatus :=
  if ResumableFile.is_UPLOADING (status_of c) && negb (pendingRetry c)
  then PENDING
  else status_of c.

(** The offsets of the chunks for which [chunkCancel] is in the log. *)
Definition cancelled (log : list FileSignal) : list Z :=
  omap (λ s, match s with chunkCancel off => Some off | _ => None end) log.

(** [fileRetry] alone. *)
Definition is_fileRetry (s : FileSignal) : bool :=
  match s with
  | fileRetry => true
  | _ => false
  end.

(** A chunk that holds bytes of a file that holds bytes. *)
Definition holds_bytes (c : ResumableChunk.t) : Prop :=
  fileObjSize c ≠ 0 ∧ endByte c ≠ startByte c.

(** The identifiers of a list of files given to the intake. *)
Definition identifiers (l : list Resumable.ExtendedFile) : list string :=
  Resumable.uniqueIdentifier <$> l.

(** The signal with which [uniqBy] reports a file it leaves out. *)
Definition is_duplicate_failure (fileCategory : string)
    (s : Resumable.Signal) : Prop :=
  ∃ item, s = Resumable.fileProcessingFailed (Some item) Resumable.duplicate
                fileCategory.

(** Every category is declared once, and every file is held by the
    category it names. *)
Definition well_filed (r : Resumable.t) : Prop :=
  NoDup (Resumable.fileCategories r)
  ∧ ∀ c fs f, Resumable.files r !! c = Some fs → f ∈ fs →
              ResumableFile._fileCategory f = c.

(** The files of the categories [cats], as the map [m] holds them. *)
Definition gather (cats : list string)
    (m : gmap string (list ResumableFile.t)) : list ResumableFile.t :=
  concat ((λ c, default [] (m !! c)) <$> cats).

(** The categories asked for: those of the option [fileCategories], then
    the default category. *)
Definition requested_categories (o : Resumable.ResumableConfiguration)
  : list string :=
  Resumable.cfg_fileCategories o
  ++ match Resumable.cfg_defaultFileCategory o with
     | Some d => [d]
     | None => []
     end.

(** The identifiers of a list of files held. *)
Definition file_identifiers (fs : list ResumableFile.t) : list string :=
  ResumableFile._uniqueIdentifier <$> fs.

(** The statuses of all chunks of all files, in the order of
    [getFilesOfAllCategories()]. *)
Definition statuses_of (fs : list ResumableFile.t)
  : list ResumableChunkStatus :=
  concat (statuses <$> fs).

Definition all_statuses (r : Resumable.t) : list ResumableChunkStatus :=
  statuses_of (Resumable.getFilesOfAllCategories r).

(** How many entries of [l] satisfy [p]. *)
Definition count (p : ResumableChunkStatus → bool)
    (l : list ResumableChunkStatus) : nat :=
  length (filter (λ st, p st = true) l).

(** No file of the queue is paused. *)
Definition none_paused (r : Resumable.t) : Prop :=
  ∀ f, f ∈ Resumable.getFilesOfAllCategories r →
       ResumableFile.isPaused f = false.

(** What the chunks of the files report after the [abort()] of every
    file. *)
Definition paused_statuses (fs : list ResumableFile.t)
  : list ResumableChunkStatus :=
  concat ((λ f, after_abort <$> ResumableFile._chunks f) <$> fs).

(** No chunk of the queue waits for the timer of a retry. *)
Definition no_retry_pending (r : Resumable.t) : Prop :=
  ∀ f c, f ∈ Resumable.getFilesOfAllCategories r →
         c ∈ ResumableFile._chunks f → pendingRetry c = false.

(** A queue with the default category, after [a.mp4] has been added. *)
Definition queue_with_one_file : result Resumable.t :=
  r ← Resumable.newResumable (configuration None);
  x ← Resumable.appendFilesFromFileList r [a_file 1 "a.mp4" 10] "default";
  Returns x.1.1.

(** Up to three uploads at a time, probes first, no priority for the first
    and last chunks: the defaults. *)
Definition default_queue : Resumable.QueueOptions :=
  {| Resumable.transport := default_transport;
     Resumable.simultaneousUploads := 3;
     Resumable.prioritizeFirstAndLastChunk := false |}.

(** Chunks of four bytes. *)
Definition small_chunks : ChunkOptions :=
  {| opt_chunkSize := Some 4; opt_maxChunkRetries := None;
     opt_permanentErrors := None |}.

(** A file of ten bytes in three chunks: the request of the first was
    answered 500, that of the second is on its way, the third is not sent
    yet. *)
Definition file_with_sibling_in_flight : ResumableFile.t :=
  ResumableFile.set_chunks (bootstrapped 10 small_chunks)
    [failed_chunk;
     set_xhr (newResumableChunk 10 1 small_chunks) (Some opened);
     newResumableChunk 10 2 small_chunks].

(** The same file when the second chunk waits for the timer of a retry. *)
Definition file_with_retry_pending : ResumableFile.t :=
  ResumableFile.set_chunks (bootstrapped 10 small_chunks)
    [failed_chunk; waiting_chunk; newResumableChunk 10 2 small_chunks].

(** A file of a size that is not negative, with a floor between 0 and 1,
    whose chunks hold bytes. *)
Definition well_sized (f : ResumableFile.t) : Prop :=
  0 ≤ ResumableFile._size f
  ∧ (∃ p, ResumableFile._prevProgress f = Fin p ∧ (0 <= p)%Q ∧ (p <= 1)%Q)
  ∧ ∀ c, c ∈ ResumableFile._chunks f → holds_bytes c.

(** The sizes of the files, added up. *)
Definition total_size (fs : list ResumableFile.t) : Z :=
  foldr (λ f total, ResumableFile._size f + total) 0 fs.

(** * Proofs *)

(** ** Chunk status *)

Lemma includes_Z_In (l : list Z) (code : Z) :
  includes_Z l code = true ↔ In code l.
Proof.
  unfold includes_Z. rewrite existsb_exists. split.
  - intros (y & Hy & Heq). apply Z.eqb_eq in Heq. now subst.
  - intros H. exists code. split; [assumption | apply Z.eqb_refl].
Qed.

Lemma status_sound (c : ResumableChunk.t) :
  status_table c (status c).1.1 (status c).1.2.
Proof.
  unfold status.
  destruct (pendingRetry c) eqn:Hp; [now constructor |].
  destruct (isMarkedComplete c) eqn:Hm; [now constructor |].
  destruct (xhr c) as [x |] eqn:Hx; [| now constructor].
  destruct (readyState x <? 4) eqn:Hr.
  { apply Z.ltb_lt in Hr. now apply rule_inFlight with x. }
  apply Z.ltb_ge in Hr.
  destruct ((status_code x =? 200) || (status_code x =? 201)) eqn:Hs.
  { apply rule_successCode with x; try assumption.
    apply orb_true_iff in Hs. destruct Hs as [H | H]; apply Z.eqb_eq in H; auto. }
  apply orb_false_iff in Hs. destruct Hs as [H200 H201].
  apply Z.eqb_neq in H200, H201.
  destruct (includes_Z (permanentErrors c) (status_code x)
            || (maxChunkRetries c <=? retries c)) eqn:He.
  { apply rule_permanent with x; try assumption.
    apply orb_true_iff in He. destruct He as [H | H].
    - left. now apply includes_Z_In.
    - right. now apply Z.leb_le. }
  apply orb_false_iff in He. destruct He as [Hperm Hret].
  simpl. apply rule_transient with x; try assumption.
  - intros Hin. apply includes_Z_In in Hin. congruence.
  - now apply Z.leb_gt.
Qed.

Lemma status_table_functional (c : ResumableChunk.t) st1 c1 st2 c2 :
  status_table c st1 c1 → status_table c st2 c2 → st1 = st2 ∧ c1 = c2.
Proof.
  intros H1 H2.
  destruct H1; destruct H2; try (split; reflexivity);
    repeat match goal with
           | Ha : xhr c = Some ?x, Hb : xhr c = Some ?y |- _ =>
               assert (x = y) by congruence; subst y; clear Hb
           end;
    try congruence; try lia; try tauto;
    match goal with
    | Hor : In _ _ ∨ _ ≤ _ |- _ => destruct Hor; [contradiction | lia]
    end.
Qed.

(** C2.  The status of a chunk is given by the ordered decision table:
    pending retry, then marked complete, then no request, then request in
    flight, then success code 200 or 201, then permanent error code or
    retries used up, and in every remaining case the request handle is
    reset and PENDING is reported.  The table and the getter agree on the
    status and on the chunk that is left. *)
Theorem status_decision_table (c : ResumableChunk.t)
    (st : ResumableChunkStatus) (c' : ResumableChunk.t) :
  status_table c st c' ↔ (status c).1 = (st, c').
Proof.
  split.
  - intros H.
    destruct (status_table_functional c _ _ _ _ H (status_sound c)) as [-> ->].
    now destruct (status c) as [[? ?] ?].
  - intros H. pose proof (status_sound c) as Hs. rewrite H in Hs. exact Hs.
Qed.

Lemma status_second_read (c : ResumableChunk.t) :
  status (status c).1.2 = ((status c).1.1, (status c).1.2, []).
Proof.
  unfold status.
  destruct (pendingRetry c) eqn:Hp; simpl; [now rewrite Hp |].
  destruct (isMarkedComplete c) eqn:Hm; simpl; [now rewrite Hp, Hm |].
  destruct (xhr c) as [x |] eqn:Hx; simpl; [| now rewrite Hp, Hm, Hx].
  destruct (readyState x <? 4) eqn:Hr; simpl; [now rewrite Hp, Hm, Hx, Hr |].
  destruct ((status_code x =? 200) || (status_code x =? 201)) eqn:Hs; simpl;
    [now rewrite Hp, Hm, Hx, Hr, Hs |].
  destruct (includes_Z (permanentErrors c) (status_code x)
            || (maxChunkRetries c <=? retries c)) eqn:He; simpl;
    [now rewrite Hp, Hm, Hx, Hr, Hs, He |].
  now rewrite Hp, Hm.
Qed.

Lemma status_changes_only_xhr (c : ResumableChunk.t) :
  (status c).1.2 = c
  ∨ (status c).1.1 = PENDING ∧ (status c).1.2 = set_xhr c None
    ∧ is_Some (xhr c).
Proof.
  pose proof (status_sound c) as H.
  inversion H; try (left; congruence).
  right. repeat split; try congruence.
  match goal with Hx : xhr c = Some _ |- _ => rewrite Hx end. eauto.
Qed.

Lemma status_transient (c : ResumableChunk.t) :
  failed_transiently c →
  status c = (PENDING, set_xhr c None, [xhrAbort (offset c)]).
Proof.
  intros (Hp & Hm & x & Hx & Hr & H200 & H201 & Hperm & Hret).
  unfold status, ResumableChunk.abort. rewrite Hp, Hm, Hx.
  replace (readyState x <? 4) with false by (symmetry; apply Z.ltb_ge; lia).
  replace (status_code x =? 200) with false
    by (symmetry; now apply Z.eqb_neq).
  replace (status_code x =? 201) with false
    by (symmetry; now apply Z.eqb_neq).
  replace (includes_Z (permanentErrors c) (status_code x)) with false
    by (symmetry; apply not_true_iff_false; now rewrite includes_Z_In).
  replace (maxChunkRetries c <=? retries c) with false
    by (symmetry; apply Z.leb_gt; lia).
  reflexivity.
Qed.

Lemma status_not_transient (c : ResumableChunk.t) :
  ¬ failed_transiently c → (status c).1.2 = c ∧ (status c).2 = [].
Proof.
  intros Hnot. unfold status.
  destruct (pendingRetry c) eqn:Hp; [now split |].
  destruct (isMarkedComplete c) eqn:Hm; [now split |].
  destruct (xhr c) as [x |] eqn:Hx; [| now split].
  destruct (readyState x <? 4) eqn:Hr; [now split |].
  destruct ((status_code x =? 200) || (status_code x =? 201)) eqn:Hs;
    [now split |].
  destruct (includes_Z (permanentErrors c) (status_code x)
            || (maxChunkRetries c <=? retries c)) eqn:He; [now split |].
  exfalso. apply Hnot.
  apply Z.ltb_ge in Hr. apply orb_false_iff in Hs, He.
  destruct Hs as [H200 H201]. destruct He as [Hperm Hret].
  apply Z.eqb_neq in H200, H201. apply Z.leb_gt in Hret.
  repeat split; try assumption. exists x. repeat split; try assumption.
  intros Hin. apply includes_Z_In in Hin. congruence.
Qed.

(** C9, as the code has it.  Reading the status leaves [retries],
    [pendingRetry], [tested], [isMarkedComplete] and [loaded] as they were.
    In the transient-failure case, and in no other, the read cancels the
    request and resets the request handle, and it returns PENDING; in every
    other case the chunk is left exactly as it was and no request is
    cancelled.  A second read with nothing in between returns the same
    status and changes nothing more. *)
Theorem status_read_effect (c : ResumableChunk.t) :
  let st := (status c).1.1 in
  let c' := (status c).1.2 in
  tested c' = tested c ∧ retries c' = retries c
  ∧ pendingRetry c' = pendingRetry c
  ∧ isMarkedComplete c' = isMarkedComplete c ∧ loaded c' = loaded c
  ∧ (xhr c' = xhr c ∨ st = PENDING ∧ xhr c' = None ∧ is_Some (xhr c))
  ∧ (failed_transiently c →
     st = PENDING ∧ c' = set_xhr c None
     ∧ (status c).2 = [xhrAbort (offset c)])
  ∧ (¬ failed_transiently c → c' = c ∧ (status c).2 = [])
  ∧ status c' = (st, c', []).
Proof.
  cbv zeta.
  assert (Htr : failed_transiently c →
                (status c).1.1 = PENDING ∧ (status c).1.2 = set_xhr c None
                ∧ (status c).2 = [xhrAbort (offset c)]).
  { intros H. now rewrite (status_transient c H). }
  pose proof (status_not_transient c) as Hnt.
  destruct (status_changes_only_xhr c) as [Heq | (Hst & Heq & Hx)];
    rewrite status_second_read;
    (repeat apply conj; [.. | reflexivity]);
    try exact Htr; try exact Hnt; try (rewrite Heq; reflexivity).
  - rewrite Heq. now left.
  - right. rewrite Heq. auto.
Qed.

Lemma status_read_effect_witness :
  (status (chunk_answered 503)).1.1 = PENDING
  ∧ (status (chunk_answered 503)).1.2 = set_xhr (chunk_answered 503) None
  ∧ (status (chunk_answered 503)).2 = [xhrAbort 0]
  ∧ (status (chunk_answered 200)).1.2 = chunk_answered 200
  ∧ (status (chunk_answered 200)).2 = [].
Proof.
  split; [| split; [| split]].
  1-3: apply (proj1 (proj2 (proj2 (proj2 (proj2 (proj2 (proj2
               (status_read_effect (chunk_answered 503)))))))));
    (repeat split; try reflexivity);
    (eexists; repeat split; try reflexivity; try discriminate;
     try (vm_compute; intuition discriminate); vm_compute; discriminate).
  apply (proj1 (proj2 (proj2 (proj2 (proj2 (proj2 (proj2 (proj2
           (status_read_effect (chunk_answered 200)))))))))).
  intros (_ & _ & x & Hx & _ & H200 & _). vm_compute in Hx.
  injection Hx as <-. now apply H200.
Defined.

(** C9, as stated, fails: reading the status of a chunk whose request was
    answered 503 resets its request handle. *)
Lemma status_read_not_pure :
  (status (chunk_answered 503)).1.1 = PENDING
  ∧ xhr (chunk_answered 503) = Some {| readyState := 4; status_code := 503 |}
  ∧ xhr (status (chunk_answered 503)).1.2 = None
  ∧ (status (chunk_answered 503)).1.2 ≠ chunk_answered 503.
Proof.
  repeat split; try reflexivity.
  intros H. apply (f_equal xhr) in H. discriminate H.
Qed.

(** ** Chunk progress *)

Lemma status_SUCCESS_has_code (c : ResumableChunk.t) :
  (status c).1.1 = SUCCESS →
  no_status_yet c && negb (isMarkedComplete c) = false.
Proof.
  intros Hst. pose proof (status_sound c) as H. rewrite Hst in H.
  inversion H as [ | ? Hm | | | x ? ? Hx ? Hcode | | ].
  - rewrite Hm. apply andb_false_r.
  - unfold no_status_yet. rewrite Hx.
    replace (status_code x =? 0) with false; [reflexivity |].
    symmetry. apply Z.eqb_neq. lia.
Qed.

Lemma status_ERROR_not_marked (c : ResumableChunk.t) :
  (status c).1.1 = ERROR →
  pendingRetry c = false ∧ isMarkedComplete c = false.
Proof.
  intros Hst. pose proof (status_sound c) as H. rewrite Hst in H.
  inversion H. split; assumption.
Qed.

(** C7, as the code has it.  While a retry is pending the progress is 0.
    For a chunk in SUCCESS, and for a chunk in ERROR whose request has a
    non-zero status code, the progress is exactly 1, or exactly the chunk's
    share of the file's bytes when [relative]; for a chunk in ERROR whose
    request ended with status code 0 that value is multiplied by 0.95. *)
Theorem chunk_progress_terminal (c : ResumableChunk.t) (relative : bool) :
  (pendingRetry c = true → (progress c relative).1.1 = Fin 0)
  ∧ ((status c).1.1 = SUCCESS → (progress c relative).1.1 = share c relative)
  ∧ ((status c).1.1 = ERROR →
     (progress c relative).1.1 =
       if no_status_yet c
       then jmul (share c relative) (Fin (95 # 100))
       else share c relative).
Proof.
  unfold progress, share. repeat split.
  - intros ->. reflexivity.
  - intros Hst.
    assert (Hp : pendingRetry c = false).
    { pose proof (status_sound c) as H. rewrite Hst in H. now inversion H. }
    rewrite Hp, (status_SUCCESS_has_code c Hst).
    destruct (status c) as [[st c'] log]. simpl in Hst. subst st. reflexivity.
  - intros Hst.
    destruct (status_ERROR_not_marked c Hst) as [Hp Hm].
    rewrite Hp, Hm, andb_true_r.
    destruct (status c) as [[st c'] log]. simpl in Hst. subst st.
    now destruct (no_status_yet c).
Qed.

Lemma chunk_progress_terminal_witness :
  (progress (markComplete (newResumableChunk 10 0 no_options)) true).1.1
  = share (markComplete (newResumableChunk 10 0 no_options)) true
  ∧ (progress chunk_network_down false).1.1
    = jmul (Fin 1) (Fin (95 # 100)).
Proof.
  split.
  - apply (proj1 (proj2 (chunk_progress_terminal
                           (markComplete (newResumableChunk 10 0 no_options))
                           true))).
    reflexivity.
  - apply (proj2 (proj2 (chunk_progress_terminal chunk_network_down false))).
    reflexivity.
Defined.

(** C7, as stated, fails: a chunk in ERROR because the network was down for
    every attempt reports 0.95, not 1. *)
Lemma chunk_progress_error_not_one :
  (status chunk_network_down).1.1 = ERROR
  ∧ (progress chunk_network_down false).1.1 = Fin (95 # 100)
  ∧ jlt (progress chunk_network_down false).1.1 (Fin 1) = true.
Proof. repeat split; reflexivity. Qed.

(** ** Chunking *)

Lemma ceil_quot_spec (S C : Z) :
  0 < C → (ceil_quot S C - 1) * C < S ≤ ceil_quot S C * C.
Proof.
  intros HC. unfold ceil_quot.
  pose proof (Z.div_mod (- S) C ltac:(lia)) as Hdm.
  pose proof (Z.mod_pos_bound (- S) C HC) as Hm.
  nia.
Qed.

Lemma Qceiling_quot (S C : Z) :
  0 < C → Qceiling (inject_Z S / inject_Z C) = ceil_quot S C.
Proof.
  intros HC. destruct C as [| p | p]; try lia.
  unfold Qceiling, Qfloor, ceil_quot, Qdiv, Qmult, Qinv, Qopp, inject_Z. simpl.
  rewrite Z.mul_1_r. reflexivity.
Qed.

Lemma jmax_of_Z_1 (k : Z) : jmax (of_Z k) (Fin 1) = of_Z (Z.max k 1).
Proof.
  unfold jmax, of_Z, jlt, Qcompare, inject_Z. simpl.
  rewrite !Z.mul_1_r.
  destruct (Z.compare_spec k 1) as [-> | H | H].
  - reflexivity.
  - now rewrite Z.max_r by lia.
  - now rewrite Z.max_l by lia.
Qed.

Lemma for_turns_of_Z (k : Z) : for_turns (of_Z k) = Some (Z.to_nat k).
Proof. unfold for_turns, of_Z. now rewrite Qceiling_Z. Qed.

Lemma maxOffset_value (f : ResumableFile.t) :
  0 < ResumableFile.chunkSize f →
  ResumableFile.maxOffset f
  = of_Z (Z.max (ceil_quot (ResumableFile._size f) (ResumableFile.chunkSize f)) 1).
Proof.
  intros HC. unfold ResumableFile.maxOffset.
  assert (Hd : jdiv (of_Z (ResumableFile._size f)) (of_Z (ResumableFile.chunkSize f))
               = Fin (inject_Z (ResumableFile._size f)
                      / inject_Z (ResumableFile.chunkSize f))).
  { unfold jdiv, of_Z, Qis_zero. simpl.
    replace (ResumableFile.chunkSize f =? 0) with false; [reflexivity |].
    symmetry. apply Z.eqb_neq. lia. }
  rewrite Hd. unfold jceil. rewrite Qceiling_quot by assumption.
  apply jmax_of_Z_1.
Qed.

(** The chunks a file of [size] bytes is cut into. *)
Lemma bootstrap_result (f : ResumableFile.t) :
  0 < ResumableFile.chunkSize f →
  ∃ f' log,
    ResumableFile.bootstrap f = Some (f', log)
    ∧ ResumableFile._chunks f'
      = (λ i : nat, newResumableChunk (ResumableFile._size f) (Z.of_nat i)
                                      (ResumableFile.opts f))
          <$> seq 0 (Z.to_nat (Z.max (ceil_quot (ResumableFile._size f)
                                                 (ResumableFile.chunkSize f)) 1))
    ∧ ResumableFile._size f' = ResumableFile._size f
    ∧ ResumableFile.opts f' = ResumableFile.opts f
    ∧ ResumableFile._error f' = false
    ∧ ResumableFile._prevProgress f' = Fin 0
    ∧ ResumableFile._uniqueIdentifier f' = ResumableFile._uniqueIdentifier f
    ∧ ResumableFile._fileName f' = ResumableFile._fileName f
    ∧ ResumableFile._fileCategory f' = ResumableFile._fileCategory f.
Proof.
  intros HC. unfold ResumableFile.bootstrap, ResumableFile.abort.
  destruct (ResumableFile.abort_loop (ResumableFile._chunks f)) as [[cs l] k].
  match goal with
  | |- context [for_turns (ResumableFile.maxOffset ?g)] =>
      assert (Hmax : ResumableFile.maxOffset g
                     = of_Z (Z.max (ceil_quot (ResumableFile._size f)
                                              (ResumableFile.chunkSize f)) 1))
        by (apply (maxOffset_value g); exact HC)
  end.
  rewrite Hmax, for_turns_of_Z. simpl.
  eexists _, _. split; [reflexivity |]. simpl.
  rewrite <- list_fmap_compose. repeat split; reflexivity.
Qed.

Section Chunks.

Variables (size C : Z) (o : ChunkOptions).
Hypothesis size_nonneg : 0 ≤ size.
Hypothesis C_pos : 0 < C.
Hypothesis C_option : default default_chunkSize (opt_chunkSize o) = C.

Let n : nat := Z.to_nat (Z.max (ceil_quot size C) 1).
Let chunks : list ResumableChunk.t :=
  (λ i : nat, newResumableChunk size (Z.of_nat i) o) <$> seq 0 n.

Lemma chunks_length : Z.of_nat (length chunks) = Z.max (ceil_quot size C) 1.
Proof. unfold chunks, n. rewrite length_fmap, length_seq. lia. Qed.

Lemma chunks_lookup (i : nat) (c : ResumableChunk.t) :
  chunks !! i = Some c ↔
  (i < n)%nat ∧ c = newResumableChunk size (Z.of_nat i) o.
Proof.
  unfold chunks. rewrite list_lookup_fmap. split.
  - intros H. destruct (seq 0 n !! i) as [j |] eqn:Hj; [| discriminate].
    apply lookup_seq in Hj. destruct Hj as [-> Hlt]. simpl in H.
    split; [exact Hlt | congruence].
  - intros [Hlt ->]. now rewrite (lookup_seq_lt 0 n i Hlt).
Qed.

Lemma last_index_below_size (i : nat) : (i < n)%nat → Z.of_nat i * C ≤ size.
Proof.
  unfold n. intros Hlt. pose proof (ceil_quot_spec size C C_pos) as Hk.
  destruct (Z.max_spec (ceil_quot size C) 1) as [[Hle Hm] | [Hle Hm]];
    rewrite Hm in Hlt; nia.
Qed.

Lemma chunk_range (i : nat) (c : ResumableChunk.t) :
  chunks !! i = Some c →
  offset c = Z.of_nat i ∧ startByte c = Z.of_nat i * C
  ∧ endByte c = Z.min size ((Z.of_nat i + 1) * C)
  ∧ startByte c ≤ endByte c.
Proof.
  intros H. apply chunks_lookup in H. destruct H as [Hlt ->].
  unfold newResumableChunk. cbn [offset startByte endByte]. rewrite C_option.
  repeat split; try reflexivity.
  pose proof (last_index_below_size i Hlt). lia.
Qed.

Lemma chunk_length_new (off : Z) :
  chunk_length (newResumableChunk size off o)
  = Z.min size ((off + 1) * C) - off * C.
Proof.
  unfold chunk_length, newResumableChunk. cbn [startByte endByte].
  now rewrite C_option.
Qed.

Lemma total_length_snoc (l : list ResumableChunk.t) (c : ResumableChunk.t) :
  total_length (l ++ [c]) = total_length l + chunk_length c.
Proof.
  unfold total_length. induction l as [| x l IHl]; simpl; [lia |].
  rewrite IHl. lia.
Qed.

Lemma total_length_prefix (j : nat) :
  (j = 0%nat ∨ (Z.of_nat j - 1) * C ≤ size) →
  total_length ((λ i : nat, newResumableChunk size (Z.of_nat i) o) <$> seq 0 j)
  = Z.min size (Z.of_nat j * C).
Proof.
  induction j as [| j IH]; intros Hj.
  - simpl. lia.
  - assert (Hj' : Z.of_nat j * C ≤ size) by (destruct Hj; [lia | nia]).
    rewrite seq_S, fmap_app.
    change ((λ i : nat, newResumableChunk size (Z.of_nat i) o) <$> [(0 + j)%nat])
      with [newResumableChunk size (Z.of_nat j) o].
    rewrite total_length_snoc, chunk_length_new.
    rewrite IH by (destruct j; [left; reflexivity | right; nia]).
    rewrite Nat2Z.inj_succ. lia.
Qed.

Lemma chunks_total_length : total_length chunks = size.
Proof.
  unfold chunks. rewrite total_length_prefix.
  - unfold n. pose proof (ceil_quot_spec size C C_pos).
    destruct (Z.max_spec (ceil_quot size C) 1) as [[Hle Hm] | [Hle Hm]];
      rewrite Hm; nia.
  - right. destruct n as [| k] eqn:Hn; [lia |].
    pose proof (last_index_below_size k ltac:(lia)). nia.
Qed.

Lemma chunks_cover (b : Z) :
  0 ≤ b < size →
  ∃ (i : nat) (c : ResumableChunk.t),
    chunks !! i = Some c ∧ startByte c ≤ b < endByte c
    ∧ ∀ (j : nat) (d : ResumableChunk.t),
        chunks !! j = Some d → startByte d ≤ b < endByte d → j = i.
Proof.
  intros Hb.
  pose proof (ceil_quot_spec size C C_pos) as Hk.
  pose proof (Z.div_mod b C ltac:(lia)) as Hdm.
  pose proof (Z.mod_pos_bound b C C_pos) as Hm.
  assert (Hq : 0 ≤ b / C) by (apply Z.div_pos; lia).
  assert (Hlt : (Z.to_nat (b / C) < n)%nat).
  { unfold n. destruct (Z.max_spec (ceil_quot size C) 1) as [[Hle Hmx] | [Hle Hmx]];
      rewrite Hmx; nia. }
  exists (Z.to_nat (b / C)), (newResumableChunk size (Z.of_nat (Z.to_nat (b / C))) o).
  split; [now apply chunks_lookup |].
  split.
  - unfold newResumableChunk. cbn [startByte endByte].
    rewrite C_option, Z2Nat.id by lia. nia.
  - intros j d Hd Hin. apply chunk_range in Hd.
    destruct Hd as (_ & Hs & He & _). rewrite Hs, He in Hin.
    apply Nat2Z.inj. rewrite Z2Nat.id by lia. nia.
Qed.

End Chunks.

(** C1.  For a file of [S >= 0] bytes and a chunk size [C > 0], bootstrap
    creates exactly max(ceil(S/C), 1) chunks; the chunk at index [i] has
    offset [i] and is the range from [offset*C] to [min(S, (offset+1)*C)];
    a range ends before any later one starts, the ranges start at 0, end
    at [S], each begins where the one before ends, their lengths sum to
    [S], and every byte of the file lies in exactly one of them. *)
Theorem bootstrap_partitions_file (f : ResumableFile.t) :
  0 ≤ ResumableFile._size f →
  0 < ResumableFile.chunkSize f →
  ∃ f' log,
    ResumableFile.bootstrap f = Some (f', log)
    ∧ let S := ResumableFile._size f in
      let C := ResumableFile.chunkSize f in
      let cs := ResumableFile._chunks f' in
      Z.of_nat (length cs) = Z.max (ceil_quot S C) 1
      ∧ (∀ (i : nat) c, cs !! i = Some c →
           offset c = Z.of_nat i
           ∧ startByte c = offset c * C
           ∧ endByte c = Z.min S ((offset c + 1) * C)
           ∧ startByte c ≤ endByte c)
      ∧ (∀ (i j : nat) c d, (i < j)%nat → cs !! i = Some c → cs !! j = Some d →
           endByte c ≤ startByte d)
      ∧ (∃ c, head cs = Some c ∧ startByte c = 0)
      ∧ (∃ c, last cs = Some c ∧ endByte c = S)
      ∧ (∀ (i : nat) c d, cs !! i = Some c → cs !! (i + 1)%nat = Some d →
           endByte c = startByte d)
      ∧ total_length cs = S
      ∧ (∀ b, 0 ≤ b < S →
           ∃ (i : nat) c,
             cs !! i = Some c ∧ startByte c ≤ b < endByte c
             ∧ ∀ (j : nat) d, cs !! j = Some d →
                 startByte d ≤ b < endByte d → j = i).
Proof.
  intros HS HC.
  destruct (bootstrap_result f HC) as (f' & log & Hb & Hcs & _).
  exists f', log. split; [exact Hb |]. cbv zeta. rewrite Hcs.
  set (S := ResumableFile._size f). set (C := ResumableFile.chunkSize f).
  set (o := ResumableFile.opts f).
  assert (Ho : default default_chunkSize (opt_chunkSize o) = C) by reflexivity.
  pose proof (chunks_length S C o) as Hlen.
  pose proof (chunk_range S C o HS HC Ho) as Hrange.
  pose proof (chunks_lookup S C o) as Hlook.
  set (n := Z.to_nat (Z.max (ceil_quot S C) 1)) in *.
  set (cs := (λ i : nat, newResumableChunk S (Z.of_nat i) o) <$> seq 0 n) in *.
  assert (Hn : (0 < n)%nat) by (unfold n; lia).
  split; [exact Hlen |].
  split.
  { intros i c Hc. destruct (Hrange i c Hc) as (Hoff & ? & ? & ?).
    rewrite Hoff. auto. }
  split.
  { intros i j c d Hij Hc Hd.
    destruct (Hrange _ _ Hc) as (_ & _ & He & _).
    destruct (Hrange _ _ Hd) as (_ & Hs & _ & _).
    rewrite He, Hs. nia. }
  split.
  { exists (newResumableChunk S (Z.of_nat 0) o). split.
    - rewrite head_lookup. apply Hlook. split; [exact Hn | reflexivity].
    - simpl. lia. }
  split.
  { exists (newResumableChunk S (Z.of_nat (n - 1)) o). split.
    - rewrite last_lookup. replace (pred (length cs)) with (n - 1)%nat.
      + apply Hlook. split; [lia | reflexivity].
      + unfold cs. rewrite length_fmap, length_seq. lia.
    - unfold newResumableChunk. cbn [endByte]. rewrite Ho.
      pose proof (ceil_quot_spec S C HC). unfold n.
      destruct (Z.max_spec (ceil_quot S C) 1) as [[Hle Hm] | [Hle Hm]];
        rewrite Hm; nia. }
  split.
  { intros i c d Hc Hd.
    destruct (Hrange _ _ Hc) as (_ & _ & He & _).
    destruct (Hrange _ _ Hd) as (_ & Hs & _ & _).
    apply Hlook in Hd. destruct Hd as [Hlt _].
    pose proof (last_index_below_size S C HS HC (i + 1)%nat Hlt) as Hle.
    fold n in Hle. rewrite He, Hs. nia. }
  split; [exact (chunks_total_length S C o HS HC Ho) |].
  exact (chunks_cover S C o HS HC Ho).
Qed.

Lemma bootstrap_partitions_file_witness :
  ∃ f' log,
    ResumableFile.bootstrap (blank_file 2621440 no_options) = Some (f', log)
    ∧ Z.of_nat (length (ResumableFile._chunks f')) = 3
    ∧ total_length (ResumableFile._chunks f') = 2621440.
Proof.
  destruct (bootstrap_partitions_file (blank_file 2621440 no_options))
    as (f' & log & Hb & Hlen & _ & _ & _ & _ & _ & Hsum & _).
  - simpl. lia.
  - reflexivity.
  - exists f', log. split; [exact Hb |]. split; [exact Hlen | exact Hsum].
Defined.

(** ** Marking chunks complete *)

Lemma mark_prefix (cs : list ResumableChunk.t) (n : nat) :
  (n ≤ length cs)%nat →
  foldl (λ cs num, alter markComplete num cs) cs (seq 0 n)
  = (markComplete <$> take n cs) ++ drop n cs.
Proof.
  induction n as [| n IH]; intros Hn.
  - reflexivity.
  - rewrite seq_S, foldl_app. simpl. rewrite IH by lia.
    destruct (lookup_lt_is_Some_2 cs n ltac:(lia)) as [c Hc].
    rewrite (take_S_r cs n c Hc), fmap_app. simpl.
    rewrite (drop_S cs c n Hc).
    rewrite <- app_assoc. simpl.
    rewrite alter_app_r_alt by (rewrite length_fmap, length_take; lia).
    rewrite length_fmap, length_take.
    replace (n - n `min` length cs)%nat with 0%nat by lia.
    reflexivity.
Qed.

(** C8, as the code has it.  With [k] chunks: for [n < k] the call marks the
    chunks of index below [n] complete and leaves every other chunk and
    every other field of the file as it was; for [n >= k] it is a no-op.
    Marking a chunk only sets its [isMarkedComplete]. *)
Theorem markChunksCompleted_spec (f : ResumableFile.t) (n : nat) :
  let cs := ResumableFile._chunks f in
  ((n < length cs)%nat →
     ResumableFile.markChunksCompleted f n
     = ResumableFile.set_chunks f ((markComplete <$> take n cs) ++ drop n cs)
     ∧ ∀ (i : nat) c, cs !! i = Some c →
         ResumableFile._chunks (ResumableFile.markChunksCompleted f n) !! i
         = Some (if (i <? n)%nat then markComplete c else c))
  ∧ ((length cs ≤ n)%nat → ResumableFile.markChunksCompleted f n = f)
  ∧ (∀ c, isMarkedComplete (markComplete c) = true
          ∧ set_xhr (markComplete c) (xhr c) = markComplete c
          ∧ (isMarkedComplete c = true → markComplete c = c)).
Proof.
  cbv zeta. unfold ResumableFile.markChunksCompleted. repeat split.
  - destruct (Nat.leb_spec (length (ResumableFile._chunks f)) n); [lia |].
    now rewrite mark_prefix by lia.
  - intros i c Hc.
    destruct (Nat.leb_spec (length (ResumableFile._chunks f)) n); [lia |].
    simpl. rewrite mark_prefix by lia.
    destruct (Nat.ltb_spec i n) as [Hi | Hi].
    + rewrite lookup_app_l by (rewrite length_fmap, length_take; lia).
      rewrite list_lookup_fmap, lookup_take_lt by lia. now rewrite Hc.
    + rewrite lookup_app_r by (rewrite length_fmap, length_take; lia).
      rewrite length_fmap, length_take, lookup_drop.
      replace (n + (i - n `min` length (ResumableFile._chunks f)))%nat with i by lia.
      exact Hc.
  - intros Hle.
    destruct (Nat.leb_spec (length (ResumableFile._chunks f)) n); [reflexivity | lia].
  - intros Hm. destruct c. simpl in *. now subst.
Qed.

Lemma markChunksCompleted_spec_witness :
  ResumableFile._chunks
    (ResumableFile.markChunksCompleted (bootstrapped 2621440 no_options) 2) !! 1%nat
  = Some (markComplete (newResumableChunk 2621440 1 no_options))
  ∧ ResumableFile.markChunksCompleted (bootstrapped 2621440 no_options) 5
    = bootstrapped 2621440 no_options.
Proof.
  split.
  - apply (proj2 (proj1 (markChunksCompleted_spec (bootstrapped 2621440 no_options) 2)
                    ltac:(vm_compute; lia)) 1%nat).
    reflexivity.
  - apply (proj1 (proj2 (markChunksCompleted_spec (bootstrapped 2621440 no_options) 5))).
    vm_compute. lia.
Defined.

(** C8, as stated, fails at [n = k]: on a file of three chunks,
    [markChunksCompleted(3)] marks nothing. *)
Lemma markChunksCompleted_all_is_noop :
  length (ResumableFile._chunks (bootstrapped 2621440 no_options)) = 3%nat
  ∧ ResumableFile.markChunksCompleted (bootstrapped 2621440 no_options) 3
    = bootstrapped 2621440 no_options
  ∧ isMarkedComplete
      <$> ResumableFile._chunks
            (ResumableFile.markChunksCompleted (bootstrapped 2621440 no_options) 3)
    = [false; false; false].
Proof. repeat split; reflexivity. Qed.

(** ** Abort *)

Lemma status_UPLOADING_unchanged (c : ResumableChunk.t) :
  (status c).1.1 = UPLOADING → (status c).1.2 = c.
Proof.
  intros Hst. destruct (status_changes_only_xhr c) as [H | (H & _)];
    [exact H | congruence].
Qed.

Lemma abort_loop_aborts (cs : list ResumableChunk.t) (c : ResumableChunk.t) :
  c ∈ cs → (status c).1.1 = UPLOADING → is_Some (xhr c) →
  xhrAbort (offset c) ∈ (ResumableFile.abort_loop cs).1.2.
Proof.
  intros Hin Hst Hx. induction cs as [| d cs IH]; [inversion Hin |].
  simpl.
  destruct (status d) as [[st c1] l1] eqn:Hd.
  destruct (ResumableFile.abort_loop cs) as [[rest' l3] k] eqn:Hrest.
  apply elem_of_cons in Hin. destruct Hin as [-> | Hin].
  - pose proof (status_UPLOADING_unchanged d Hst) as Hsame.
    rewrite Hd in Hst, Hsame. simpl in Hst, Hsame. subst st c1. simpl.
    unfold ResumableChunk.abort. destruct Hx as [x Hx]. rewrite Hx.
    apply elem_of_app. right. apply elem_of_app. left. apply list_elem_of_here.
  - specialize (IH Hin). simpl in IH.
    destruct (ResumableFile.is_UPLOADING st);
      [destruct (ResumableChunk.abort c1) as [c2 l2] |]; simpl;
      rewrite !elem_of_app; auto.
Qed.

Lemma abort_fields (f : ResumableFile.t) :
  let f1 := (ResumableFile.abort f).1 in
  ResumableFile._error f1 = ResumableFile._error f
  ∧ ResumableFile._prevProgress f1 = ResumableFile._prevProgress f.
Proof.
  unfold ResumableFile.abort.
  now destruct (ResumableFile.abort_loop (ResumableFile._chunks f)) as [[? ?] ?].
Qed.

(** ** A file in error *)

Lemma progress_in_error (f : ResumableFile.t) :
  ResumableFile._error f = true → ResumableFile.progress f = (Fin 1, f).
Proof. intros H. unfold ResumableFile.progress. now rewrite H. Qed.

Lemma step_effect (o : ResumableFile.Op) (f : ResumableFile.t) :
  ResumableFile.is_retry o = false →
  ∃ f' r,
    ResumableFile.step o f = Some (f', r)
    ∧ (ResumableFile._error f = true → ResumableFile._error f' = true)
    ∧ match r with
      | None =>
          ResumableFile._prevProgress f' = ResumableFile._prevProgress f
      | Some v =>
          if ResumableFile._error f
          then v = Fin 1 ∧ f' = f
          else v = jmax (ResumableFile._prevProgress f) (fresh_progress f)
               ∧ ResumableFile._prevProgress f' = v
               ∧ ResumableFile._error f' = false
      end.
Proof.
  intros Hr. destruct o; try discriminate Hr; simpl.
  - unfold ResumableFile.progress, fresh_progress.
    destruct (ResumableFile._error f) eqn:He.
    + eexists _, _. split; [reflexivity |]. auto.
    + destruct (ResumableFile.progress_loop _ _ _) as [[cs e] ret].
      eexists _, _. split; [reflexivity |]. simpl. split; [congruence | auto].
  - eexists _, _. split; [reflexivity |].
    destruct (abort_fields f) as [He Hp]. rewrite He. auto.
  - eexists _, _. split; [reflexivity |]. unfold ResumableFile.cancel.
    destruct (ResumableFile.cancel_loop _) as [? ?]. simpl. auto.
  - eexists _, _. split; [reflexivity |]. unfold ResumableFile.markChunksCompleted.
    destruct (length _ <=? _)%nat; simpl; auto.
  - eexists _, _. split; [reflexivity |]. unfold ResumableFile.isUploading.
    destruct (ResumableFile.some_status _ _) as [? ?]. simpl. auto.
  - eexists _, _. split; [reflexivity |]. unfold ResumableFile.isComplete.
    destruct (ResumableFile.some_status _ _) as [? ?]. simpl. auto.
  - eexists _, _. split; [reflexivity |]. simpl. auto.
  - eexists _, _. split; [reflexivity |]. simpl. auto.
  - eexists _, _. split; [reflexivity |]. simpl. auto.
  - eexists _, _. split; [reflexivity |]. unfold ResumableFile.successHandler.
    destruct (ResumableFile._error f) eqn:He; simpl; [auto |].
    unfold ResumableFile.isComplete.
    destruct (ResumableFile.some_status _ _) as [? ?]. simpl.
    split; [congruence | reflexivity].
  - eexists _, _. split; [reflexivity |]. unfold ResumableFile.errorHandler.
    destruct (ResumableFile.abort f) as [f1 log] eqn:Ha. simpl.
    destruct (abort_fields f) as [_ Hp]. rewrite Ha in Hp. auto.
Qed.

(** ** Progress of a file *)

Lemma jlt_irrefl (a : num) : jlt a a = false.
Proof.
  destruct a as [| s | q]; simpl; [reflexivity | now destruct s |].
  now rewrite (proj1 (Qeq_alt q q) (Qeq_refl q)).
Qed.

Lemma jlt_asym (a b : num) : jlt a b = true → jlt b a = false.
Proof.
  destruct a as [| s | p], b as [| t | q]; simpl; try reflexivity;
    try discriminate.
  - destruct s, t; simpl; congruence.
  - now destruct s.
  - now destruct t.
  - rewrite <- (Qcompare_antisym p q). now destruct (p ?= q)%Q.
Qed.

Lemma jmax_not_less (a b : num) : jlt (jmax a b) a = false.
Proof.
  unfold jmax.
  destruct a as [| s | p] eqn:Ea; [reflexivity | |];
    (destruct b as [| t | q] eqn:Eb; [reflexivity | |]);
    match goal with
    | |- context [if jlt ?x ?y then _ else _] =>
        destruct (jlt x y) eqn:Hlt; [now apply jlt_asym | apply jlt_irrefl]
    end.
Qed.

(** What the aggregate can be before the floor is applied. *)
Lemma progress_fresh_bounded (error : bool) (ret : num) :
  match ResumableFile.progress_fresh error ret with
  | NaN => True
  | Inf s => s = true
  | Fin q => (q <= 1)%Q
  end.
Proof.
  unfold ResumableFile.progress_fresh.
  destruct error; [apply Qle_refl |].
  unfold jgt, jlt.
  destruct ret as [| s | q]; [exact I | now destruct s |].
  destruct (99999 # 100000 ?= q)%Q eqn:Hc; [| apply Qle_refl |].
  - apply Qeq_alt in Hc. rewrite <- Hc. discriminate.
  - apply Qgt_alt in Hc. apply Qlt_le_weak in Hc.
    eapply Qle_trans; [exact Hc | discriminate].
Qed.

Lemma floor_ok_jmax (a : num) (error : bool) (ret : num) :
  floor_ok a → floor_ok (jmax a (ResumableFile.progress_fresh error ret)).
Proof.
  intros Ha. pose proof (progress_fresh_bounded error ret) as Hb.
  destruct a as [| s | p]; [exact I | destruct Ha |].
  destruct (ResumableFile.progress_fresh error ret) as [| t | q];
    [exact I | subst t; exact Ha |].
  unfold jmax. destruct (jlt (Fin p) (Fin q)); assumption.
Qed.

Lemma one_not_less_floor (a : num) : floor_ok a → jlt (Fin 1) a = false.
Proof.
  destruct a as [| s | q]; simpl; [reflexivity | tauto |].
  intros Hq. destruct (1 ?= q)%Q eqn:Hc; try reflexivity.
  apply Qlt_alt in Hc. exfalso. exact (Qlt_not_le _ _ Hc Hq).
Qed.

Lemma run_nondecreasing (ops : list ResumableFile.Op) :
  forallb (λ o, negb (ResumableFile.is_retry o)) ops = true →
  ∀ (f : ResumableFile.t) (a : num),
    floor_ok a →
    floor_ok (ResumableFile._prevProgress f) →
    (ResumableFile._error f = false → ResumableFile._prevProgress f = a) →
    ∃ f' rs,
      ResumableFile.run ops f = Some (f', rs) ∧ nondecreasing (a :: rs)
      ∧ floor_ok (ResumableFile._prevProgress f').
Proof.
  induction ops as [| o ops IH]; intros Hops f a Ha Hfloor Hf.
  - exists f, []. split; [reflexivity |]. split; [exact I | exact Hfloor].
  - simpl in Hops. apply andb_true_iff in Hops. destruct Hops as [Ho Hops].
    apply negb_true_iff in Ho.
    destruct (step_effect o f Ho) as (f1 & r & Hstep & Herr & Hr).
    simpl. rewrite Hstep. simpl.
    destruct r as [v |].
    + destruct (ResumableFile._error f) eqn:He.
      * destruct Hr as [-> ->].
        destruct (IH Hops f (Fin 1)) as (f2 & rs & Hrun & Hmono & Hfl);
          [apply Qle_refl | exact Hfloor | congruence |].
        rewrite Hrun. simpl. eexists _, _. split; [reflexivity |].
        split; [| exact Hfl].
        split; [now apply one_not_less_floor | exact Hmono].
      * destruct Hr as (Hv & Hp & He1).
        assert (Hfv : floor_ok v).
        { subst v. unfold fresh_progress.
          destruct (ResumableFile.progress_loop _ _ _) as [[cs e] ret].
          now apply floor_ok_jmax. }
        destruct (IH Hops f1 v Hfv) as (f2 & rs & Hrun & Hmono & Hfl);
          [now rewrite Hp | exact (λ _, Hp) |].
        rewrite Hrun. simpl. eexists _, _. split; [reflexivity |].
        split; [| exact Hfl].
        split; [| exact Hmono].
        subst v. rewrite (Hf eq_refl). apply jmax_not_less.
    + destruct (IH Hops f1 a Ha) as (f2 & rs & Hrun & Hmono & Hfl).
      { now rewrite Hr. }
      { intros He1. rewrite Hr. apply Hf.
        destruct (ResumableFile._error f) eqn:He; [| reflexivity].
        rewrite (Herr eq_refl) in He1. discriminate. }
      rewrite Hrun. simpl. eexists _, _. split; [reflexivity |].
      split; [exact Hmono | exact Hfl].
Qed.

Lemma nondecreasing_tail (a : num) (rs : list num) :
  nondecreasing (a :: rs) → nondecreasing rs.
Proof. destruct rs as [| b rs]; [auto | now intros [_ H]]. Qed.

(** C6, as the code has it.  Outside the error state a call of
    [progress()] returns the maximum of the floor and of the aggregate it
    computes, and stores it as the new floor; in the error state it returns
    1.  Over any sequence of operations on a file that holds no retry, no
    call returns less than the call before it, and the floor is left at NaN
    or at most 1, as it was.  (A retry is a new bootstrap: it puts the
    floor back to 0.) *)
Theorem file_progress_monotone (f : ResumableFile.t)
    (ops : list ResumableFile.Op) :
  floor_ok (ResumableFile._prevProgress f) →
  forallb (λ o, negb (ResumableFile.is_retry o)) ops = true →
  (ResumableFile._error f = false →
   (ResumableFile.progress f).1
   = jmax (ResumableFile._prevProgress f) (fresh_progress f)
   ∧ ResumableFile._prevProgress (ResumableFile.progress f).2
     = (ResumableFile.progress f).1)
  ∧ (ResumableFile._error f = true → (ResumableFile.progress f).1 = Fin 1)
  ∧ ∃ f' rs,
      ResumableFile.run ops f = Some (f', rs) ∧ nondecreasing rs
      ∧ floor_ok (ResumableFile._prevProgress f').
Proof.
  intros Hfloor Hops. split; [| split].
  - intros He. unfold ResumableFile.progress, fresh_progress. rewrite He.
    destruct (ResumableFile.progress_loop _ _ _) as [[cs e] ret]. simpl. auto.
  - intros He. now rewrite (progress_in_error f He).
  - destruct (run_nondecreasing ops Hops f (ResumableFile._prevProgress f)
                Hfloor Hfloor)
      as (f' & rs & Hrun & Hmono & Hfl); [reflexivity |].
    exists f', rs. split; [exact Hrun |].
    split; [now apply nondecreasing_tail in Hmono | exact Hfl].
Qed.

Lemma file_progress_monotone_witness :
  ∃ f' rs,
    ResumableFile.run
      [ResumableFile.op_progress;
       ResumableFile.op_chunk 0 (chunk_answered 200);
       ResumableFile.op_progress;
       ResumableFile.op_abort;
       ResumableFile.op_progress] (bootstrapped 10 no_options) = Some (f', rs)
    ∧ nondecreasing rs
    ∧ floor_ok (ResumableFile._prevProgress f').
Proof.
  apply (proj2 (proj2 (file_progress_monotone (bootstrapped 10 no_options)
                  [ResumableFile.op_progress;
                   ResumableFile.op_chunk 0 (chunk_answered 200);
                   ResumableFile.op_progress;
                   ResumableFile.op_abort;
                   ResumableFile.op_progress]
                  ltac:(unfold floor_ok, Qle; simpl; lia) ltac:(reflexivity)))).
Defined.

(** C6, as stated, fails: a retry between two calls puts the floor back to
    0, and the second call returns less than the first. *)
Lemma progress_decreases_after_retry :
  snd <$> ResumableFile.run
            [ResumableFile.op_chunk 0 (chunk_answered 200);
             ResumableFile.op_progress;
             ResumableFile.op_retry;
             ResumableFile.op_progress] (bootstrapped 10 no_options)
  = Some [Fin 1; Fin 0]
  ∧ jlt (Fin 0) (Fin 1) = true.
Proof. split; reflexivity. Qed.

(** ** Validation of a batch *)

Section Validation.

Variables (r : Resumable.t) (fileCategory : string).
Variables (held : list ResumableFile.t) (types : list string).
Hypothesis category_files : Resumable.files r !! fileCategory = Some held.
Hypothesis category_types : Resumable.fileTypes r !! fileCategory = Some types.

Lemma validateFile_outcome (f : Resumable.ExtendedFile) :
  ∃ log, Resumable.validateFile r fileCategory f
         = if validator_throws r fileCategory f then Throws
           else Returns (passes_every_check r fileCategory f, log).
Proof.
  unfold Resumable.validateFile, validator_throws, passes_every_check,
    passes_own_checks, already_added, type_allowed, min_size_ok, max_size_ok,
    validator_ok, fileExtension_of, Resumable.inherited_validator.
  rewrite category_files, category_types. simpl.
  destruct (existsb _ held); simpl; [eauto |].
  destruct (length types) as [| k]; simpl.
  2: destruct (existsb _ types); simpl; [| eauto].
  all: destruct (Resumable.minFileSize r) as [m |]; simpl.
  all: try (rewrite (Z.leb_antisym (Resumable.size (Resumable.file f)) m);
            destruct (Resumable.size (Resumable.file f) <? m); simpl; [eauto |]).
  all: destruct (Resumable.maxFileSize r) as [m' |]; simpl.
  all: try (rewrite (Z.leb_antisym m' (Resumable.size (Resumable.file f)));
            destruct (m' <? Resumable.size (Resumable.file f)); simpl; [eauto |]).
  all: destruct (Resumable.validators r !! _) as [v |]; simpl;
    [destruct (v f fileCategory); eauto |].
  all: destruct (String.eqb _ "constructor") eqn:Ec; simpl;
    [apply String.eqb_eq in Ec; rewrite Ec; simpl; eauto |].
  all: destruct (String.eqb _ "__proto__"); simpl; [exists [] | eauto];
    reflexivity.
Qed.

Lemma validator_throws_extension (f : Resumable.ExtendedFile) :
  validator_throws r fileCategory f = true →
  fileExtension_of f = "__proto__".
Proof.
  unfold validator_throws. intros H. apply andb_true_iff in H.
  destruct H as [_ H]. destruct (Resumable.validators r !! _);
    [discriminate H | now apply String.eqb_eq].
Qed.

Lemma validateFile_passes (f : Resumable.ExtendedFile) :
  fileExtension_of f ≠ "__proto__" →
  ∃ log, Resumable.validateFile r fileCategory f
         = Returns (passes_every_check r fileCategory f, log).
Proof.
  intros Hext. destruct (validateFile_outcome f) as [log H]. exists log.
  rewrite H. destruct (validator_throws r fileCategory f) eqn:Ht;
    [| reflexivity].
  now apply validator_throws_extension in Ht.
Qed.

Lemma validateAll_outcome (l : list Resumable.ExtendedFile) :
  ∃ log, Resumable.validateAll r fileCategory l
         = if existsb (validator_throws r fileCategory) l then Throws
           else Returns (passes_every_check r fileCategory <$> l, log).
Proof.
  induction l as [| f l [log IH]]; simpl; [eauto |].
  destruct (validateFile_outcome f) as [l1 ->].
  destruct (validator_throws r fileCategory f); simpl; [now exists [] |].
  rewrite IH. destruct (existsb _ l); simpl; eauto.
Qed.

End Validation.

Lemma uniqBy_distinct (l : list Resumable.ExtendedFile) (seen : gset string)
    (fileCategory : string) :
  NoDup (Resumable.uniqueIdentifier <$> l) →
  (∀ f, f ∈ l → Resumable.uniqueIdentifier f ∉ seen) →
  Resumable.uniqBy seen l fileCategory = (l, []).
Proof.
  revert seen. induction l as [| f l IH]; intros seen Hnd Hseen; [reflexivity |].
  simpl. rewrite fmap_cons in Hnd. apply NoDup_cons in Hnd.
  destruct Hnd as [Hf Hnd].
  destruct (decide (Resumable.uniqueIdentifier f ∈ seen)) as [Hin | _].
  - exfalso. apply (Hseen f); [apply list_elem_of_here | exact Hin].
  - rewrite IH; [reflexivity | exact Hnd |].
    intros g Hg Hin. apply elem_of_union in Hin. destruct Hin as [Hin | Hin].
    + apply elem_of_singleton in Hin. apply Hf. rewrite <- Hin.
      now apply list_elem_of_fmap_2.
    + apply (Hseen g); [now apply list_elem_of_further | exact Hin].
Qed.

Lemma filterByResults_aligned {A : Type} (p : A → bool) (l : list A)
    (before : list bool) :
  Resumable.filterByResults (length before) l (before ++ (p <$> l))
  = filter (λ x, p x = true) l.
Proof.
  revert before. induction l as [| v l IH]; intros before; [reflexivity |].
  cbn [Resumable.filterByResults]. rewrite fmap_cons.
  rewrite lookup_app_r, Nat.sub_diag by lia. cbn [lookup list_lookup default].
  replace (before ++ p v :: (p <$> l)) with ((before ++ [p v]) ++ (p <$> l))
    by now rewrite <- app_assoc.
  replace (S (length before)) with (length (before ++ [p v]))
    by (rewrite length_app; simpl; lia).
  rewrite IH, filter_cons. destruct (p v) eqn:Hp.
  - now rewrite decide_True.
  - now rewrite decide_False by congruence.
Qed.

Lemma validateFiles_misaligned_on_duplicates :
  ∃ r out log,
    Resumable.newResumable (configuration None) = Returns r
    ∧ Resumable.uniqueIdentifier <$> batch_with_duplicate
      = ["0-emptymp4"; "0-emptymp4"; "10-moviemp4"]
    ∧ Resumable.validateFiles r batch_with_duplicate "default"
      = Returns (Some out, log)
    ∧ out = [identified (a_file 2 "empty.mp4" 0)]
    ∧ filter (λ f, passes_every_check r "default" f = true) batch_with_duplicate
      = [identified (a_file 3 "movie.mp4" 10)].
Proof. eexists _, _, _. repeat split; vm_compute; reflexivity. Qed.

(** C10, at the input where the code fails it.  A file named
    [notes.__proto__] passes every check of the intake: it is not held
    already, no file type is required, it is within the sizes and no
    validator is registered for its extension.  [validateFiles] does not
    return it: [fileExtension in this.validators] finds the name that
    [validators] inherits, the value found is called as a validator and the
    call throws. *)
Theorem validateFiles_throws_on_proto_extension :
  ∃ r,
    Resumable.newResumable (configuration None) = Returns r
    ∧ Resumable.validators r = ∅
    ∧ fileExtension_of (identified (a_file 1 "notes.__proto__" 10))
      = "__proto__"
    ∧ passes_every_check r "default"
        (identified (a_file 1 "notes.__proto__" 10)) = true
    ∧ Resumable.validateFiles r
        [identified (a_file 1 "notes.__proto__" 10)] "default"
      = Throws
    ∧ Resumable.appendFilesFromFileList r
        [a_file 1 "notes.__proto__" 10] "default"
      = Throws.
Proof. eexists. repeat split; vm_compute; reflexivity. Qed.

(** X31.  [validateFiles] holds the validation results of the deduplicated
    list against the positions of the list it was given.  For a declared
    category it throws when a file of the deduplicated list passes the
    checks before the validators, has the extension [__proto__] and no
    validator is registered under that name, and only then.  Otherwise,
    when the unique identifiers of the batch are pairwise distinct, the
    list returned is exactly the list of the files of the batch that pass
    every check (not already added, allowed type, minimum size, maximum
    size, custom validator), in batch order.  Without distinct identifiers
    the correspondence is lost: there is a batch with a duplicate for which
    [validateFiles] returns a file that fails a check and drops the one
    that passes them all. *)
Theorem validateFiles_alignment (r : Resumable.t) (fileCategory : string)
    (held : list ResumableFile.t) (types : list string)
    (l : list Resumable.ExtendedFile) :
  Resumable.includes (Resumable.fileCategories r) fileCategory = true →
  Resumable.files r !! fileCategory = Some held →
  Resumable.fileTypes r !! fileCategory = Some types →
  (∃ log,
     Resumable.validateFiles r l fileCategory
     = if existsb (validator_throws r fileCategory)
                  (Resumable.uniqBy ∅ l fileCategory).1
       then Throws
       else Returns
              (Some (Resumable.filterByResults 0 l
                       (passes_every_check r fileCategory
                          <$> (Resumable.uniqBy ∅ l fileCategory).1)),
               log))
  ∧ (NoDup (Resumable.uniqueIdentifier <$> l) →
     ∃ log,
       Resumable.validateFiles r l fileCategory
       = if existsb (validator_throws r fileCategory) l then Throws
         else Returns
                (Some (filter (λ f, passes_every_check r fileCategory f = true)
                              l),
                 log))
  ∧ (∀ f, validator_throws r fileCategory f = true →
          fileExtension_of f = "__proto__"
          ∧ Resumable.validators r !! "__proto__" = None)
  ∧ (∃ r' out log,
       Resumable.newResumable (configuration None) = Returns r'
       ∧ Resumable.uniqueIdentifier <$> batch_with_duplicate
         = ["0-emptymp4"; "0-emptymp4"; "10-moviemp4"]
       ∧ Resumable.validateFiles r' batch_with_duplicate "default"
         = Returns (Some out, log)
       ∧ out = [identified (a_file 2 "empty.mp4" 0)]
       ∧ filter (λ f, passes_every_check r' "default" f = true)
                batch_with_duplicate
         = [identified (a_file 3 "movie.mp4" 10)]).
Proof.
  intros Hcat Hfiles Htypes.
  assert (Hgen : ∃ log,
             Resumable.validateFiles r l fileCategory
             = if existsb (validator_throws r fileCategory)
                          (Resumable.uniqBy ∅ l fileCategory).1
               then Throws
               else Returns
                      (Some (Resumable.filterByResults 0 l
                               (passes_every_check r fileCategory
                                  <$> (Resumable.uniqBy ∅ l fileCategory).1)),
                       log)).
  { unfold Resumable.validateFiles. rewrite Hcat. simpl.
    destruct (Resumable.uniqBy ∅ l fileCategory) as [uniqueFiles l1]. simpl.
    destruct (validateAll_outcome r fileCategory held types Hfiles Htypes
                uniqueFiles) as [l2 ->].
    destruct (existsb _ uniqueFiles); simpl; [now exists [] | eauto]. }
  split; [exact Hgen |].
  split; [| split; [| exact validateFiles_misaligned_on_duplicates]].
  - intros Hnd. destruct Hgen as [log Hgen]. exists log. rewrite Hgen.
    rewrite uniqBy_distinct by (auto; intros; apply not_elem_of_empty). simpl.
    destruct (existsb _ l); [reflexivity |].
    exact (f_equal (λ x, Returns (Some x, log))
             (filterByResults_aligned (passes_every_check r fileCategory) l [])).
  - intros f Hf.
    pose proof (validator_throws_extension r fileCategory f Hf) as Hext.
    split; [exact Hext |].
    unfold validator_throws in Hf. apply andb_true_iff in Hf.
    destruct Hf as [_ Hf]. rewrite Hext in Hf.
    now destruct (Resumable.validators r !! "__proto__").
Qed.

Lemma validateFiles_alignment_witness :
  ∃ r log,
    Resumable.newResumable (configuration None) = Returns r
    ∧ Resumable.validateFiles r
        (identified <$> [a_file 1 "empty.mp4" 0; a_file 3 "movie.mp4" 10])
        "default"
      = Returns
          (Some (filter (λ f, passes_every_check r "default" f = true)
                   (identified <$> [a_file 1 "empty.mp4" 0;
                                    a_file 3 "movie.mp4" 10])),
           log).
Proof.
  destruct (Resumable.newResumable (configuration None)) as [r | |] eqn:Hr;
    try discriminate Hr.
  assert (Hfields : Resumable.includes (Resumable.fileCategories r) "default" = true
                    ∧ Resumable.files r !! "default" = Some []
                    ∧ Resumable.fileTypes r !! "default" = Some []
                    ∧ existsb (validator_throws r "default")
                        (identified <$> [a_file 1 "empty.mp4" 0;
                                         a_file 3 "movie.mp4" 10]) = false).
  { vm_compute in Hr. injection Hr as <-. repeat split. }
  destruct Hfields as (H1 & H2 & H3 & H4).
  destruct (proj1 (proj2 (validateFiles_alignment r "default" [] []
              (identified <$> [a_file 1 "empty.mp4" 0; a_file 3 "movie.mp4" 10])
              H1 H2 H3))) as [log Hlog].
  - apply (bool_decide_unpack _). vm_compute. exact I.
  - exists r, log. split; [reflexivity |]. rewrite Hlog, H4. reflexivity.
Defined.

(** ** The cap on the number of files *)

Lemma newResumableFile_result (name : string) (size : Z)
    (webkitRelativePath uniqueIdentifier fileCategory : string)
    (o : ChunkOptions) :
  0 < default default_chunkSize (opt_chunkSize o) →
  ∃ rf log,
    ResumableFile.newResumableFile name size webkitRelativePath
      uniqueIdentifier fileCategory o = Some (rf, log)
    ∧ ResumableFile._uniqueIdentifier rf = uniqueIdentifier
    ∧ ResumableFile._size rf = size
    ∧ ResumableFile._fileName rf = name
    ∧ ResumableFile._fileCategory rf = fileCategory
    ∧ ResumableFile._error rf = false.
Proof.
  intros HC. unfold ResumableFile.newResumableFile.
  match goal with
  | |- context [ResumableFile.bootstrap ?f] =>
      destruct (bootstrap_result f HC)
        as (rf & log & -> & _ & Hsize & _ & Herr & _ & Huid & Hname & Hcat)
  end.
  simpl. eexists _, _. split; [reflexivity |]. simpl in *. auto.
Qed.

Lemma validateFile_no_maxFiles (r : Resumable.t) (fileCategory : string)
    (f : Resumable.ExtendedFile) (b : bool) (log : list Resumable.Signal) :
  Resumable.validateFile r fileCategory f = Returns (b, log) →
  Forall (λ s, is_maxFiles_failure s = false) log.
Proof.
  unfold Resumable.validateFile.
  destruct (Resumable.files r !! fileCategory) as [held |]; simpl; [| discriminate].
  destruct (existsb _ held); [intros [= <- <-]; repeat constructor |].
  destruct (Resumable.fileTypes r !! fileCategory) as [types |]; simpl;
    [| discriminate].
  unfold Resumable.inherited_validator.
  repeat (cbn [mbind result_bind default];
          match goal with
          | |- context [if ?c then _ else _] => destruct c
          | |- context [match ?c with Some _ => _ | None => _ end] => destruct c
          end);
    cbn; try discriminate; intros [= <- <-]; repeat constructor.
Qed.

Lemma removeFile_only (r : Resumable.t) (old : ResumableFile.t) :
  Resumable.files r !! ResumableFile._fileCategory old = Some [old] →
  Resumable.removeFile r old
  = Returns (Resumable.set_files r
               (<[ResumableFile._fileCategory old := []]> (Resumable.files r))).
Proof.
  intros H. unfold Resumable.removeFile. rewrite H. simpl.
  now rewrite String.eqb_refl.
Qed.

Lemma passes_without_held (r : Resumable.t) (fileCategory : string)
    (f : Resumable.ExtendedFile) :
  passes_every_check
    (Resumable.set_files r (<[fileCategory := []]> (Resumable.files r)))
    fileCategory f
  = passes_own_checks r fileCategory f.
Proof.
  unfold passes_every_check, already_added. simpl.
  now rewrite lookup_insert_eq.
Qed.

Lemma admit_single_into_empty (r : Resumable.t) (fileCategory : string)
    (nf : Resumable.File) (types : list string) :
  Resumable.includes (Resumable.fileCategories r) fileCategory = true →
  Resumable.files r !! fileCategory = Some [] →
  Resumable.fileTypes r !! fileCategory = Some types →
  0 < default default_chunkSize (opt_chunkSize (Resumable.opts r)) →
  fileExtension_of (extended r fileCategory nf) ≠ "__proto__" →
  ∃ r' log ret rf,
    Resumable.admitFiles r [nf] fileCategory = Returns (r', log, ret)
    ∧ Forall (λ s, is_maxFiles_failure s = false) log
    ∧ ResumableFile._uniqueIdentifier rf
      = Resumable.uniqueIdentifier (extended r fileCategory nf)
    ∧ ResumableFile._size rf = Resumable.size nf
    ∧ ResumableFile._fileName rf = Resumable.name nf
    ∧ Resumable.files r' !! fileCategory
      = Some (if passes_every_check r fileCategory (extended r fileCategory nf)
              then [rf] else []).
Proof.
  intros Hcat Hheld Htypes HC Hext.
  unfold Resumable.admitFiles, Resumable.validateFiles. rewrite Hcat.
  cbn [negb fmap list_fmap Resumable.uniqBy].
  fold (extended r fileCategory nf). set (nf' := extended r fileCategory nf).
  destruct (decide (Resumable.uniqueIdentifier nf' ∈ (∅ : gset string)))
    as [Hin | _]; [now apply not_elem_of_empty in Hin |].
  cbn [Resumable.validateAll].
  destruct (validateFile_passes r fileCategory [] types Hheld Htypes nf' Hext)
    as [l1 Hv].
  pose proof (validateFile_no_maxFiles _ _ _ _ _ Hv) as Hl1.
  rewrite Hv.
  destruct (newResumableFile_result (Resumable.name nf) (Resumable.size nf)
              (Resumable.webkitRelativePath nf) (Resumable.uniqueIdentifier nf')
              fileCategory (Resumable.opts r) HC)
    as (rf & flog & Hnew & Huid & Hsize & Hname & _).
  unfold nf', extended in Hnew, Huid. simpl in Hnew, Huid.
  destruct (passes_every_check r fileCategory nf') eqn:Hpass.
  - simpl. rewrite Hnew. simpl. rewrite Hheld. simpl.
    eexists _, _, _, rf. split; [reflexivity |].
    split.
    { rewrite app_nil_r. apply Forall_app. split; [exact Hl1 |].
      repeat constructor. }
    simpl. rewrite lookup_insert_eq. auto.
  - simpl.
    eexists _, _, _, rf. split; [reflexivity |].
    split.
    { rewrite app_nil_r. apply Forall_app. split; [exact Hl1 |].
      repeat constructor. }
    auto.
Qed.

(** C5, as the code has it.  For a batch for a declared category whose
    admission would exceed the cap: unless the cap is 1, one file is held
    and the batch has one file, the whole batch is rejected with the
    maxFiles failure signal and the scheduler is left as it was.  When the
    cap is 1, the one file held is in the category of the batch and the
    batch has one file, whose extension is not [__proto__], the file held
    is removed, no maxFiles failure is signalled, and the new file takes
    its place if it passes the checks of the intake; if it fails one, the
    category is left without any file. *)
Theorem maxFiles_policy (r : Resumable.t) (fileList : list Resumable.File)
    (fileCategory : string) (held : list ResumableFile.t) (m : Z) :
  Resumable.files r !! fileCategory = Some held →
  Resumable.maxFiles r = Some m →
  m < Z.of_nat (length fileList)
      + Z.of_nat (length (Resumable.getFilesOfAllCategories r)) →
  (¬ (m = 1 ∧ length (Resumable.getFilesOfAllCategories r) = 1%nat
      ∧ length fileList = 1%nat) →
   Resumable.appendFilesFromFileList r fileList fileCategory
   = Returns (r,
              [Resumable.fileProcessingFailed None Resumable.maxFiles_ fileCategory;
               Resumable.errorCallback Resumable.maxFiles_ fileList],
              Resumable.returned_false))
  ∧ (∀ old nf types,
       m = 1 → length (Resumable.getFilesOfAllCategories r) = 1%nat →
       fileList = [nf] → held = [old] →
       ResumableFile._fileCategory old = fileCategory →
       Resumable.includes (Resumable.fileCategories r) fileCategory = true →
       Resumable.fileTypes r !! fileCategory = Some types →
       0 < default default_chunkSize (opt_chunkSize (Resumable.opts r)) →
       fileExtension_of (extended r fileCategory nf) ≠ "__proto__" →
       ∃ r' log ret rf,
         Resumable.appendFilesFromFileList r fileList fileCategory
         = Returns (r', log, ret)
         ∧ Forall (λ s, is_maxFiles_failure s = false) log
         ∧ ResumableFile._uniqueIdentifier rf
           = Resumable.uniqueIdentifier (extended r fileCategory nf)
         ∧ ResumableFile._size rf = Resumable.size nf
         ∧ ResumableFile._fileName rf = Resumable.name nf
         ∧ Resumable.files r' !! fileCategory
           = Some (if passes_own_checks r fileCategory (extended r fileCategory nf)
                   then [rf] else [])).
Proof.
  intros Hheld Hmax Hover. unfold Resumable.appendFilesFromFileList.
  rewrite Hheld, Hmax.
  rewrite bool_decide_eq_true_2 by eauto. cbn [orb negb].
  replace (m <? _) with true by (symmetry; apply Z.ltb_lt; exact Hover).
  split.
  - intros Hnot.
    destruct ((m =? 1) && (length (Resumable.getFilesOfAllCategories r) =? 1)%nat
              && (length fileList =? 1)%nat) eqn:Hc; [| reflexivity].
    exfalso. apply Hnot.
    apply andb_true_iff in Hc. destruct Hc as [Hc H3].
    apply andb_true_iff in Hc. destruct Hc as [H1 H2].
    apply Z.eqb_eq in H1. apply Nat.eqb_eq in H2, H3. auto.
  - intros old nf types -> Hall -> -> Hold Hcat Htypes HC Hext.
    rewrite Hall. simpl.
    rewrite <- Hold in Hheld. rewrite (removeFile_only r old Hheld). simpl.
    rewrite Hold.
    set (r1 := Resumable.set_files r (<[fileCategory := []]> (Resumable.files r))).
    destruct (admit_single_into_empty r1 fileCategory nf types)
      as (r' & log & ret & rf & Hrun & Hlog & Huid & Hsize & Hname & Hfiles);
      try assumption.
    { unfold r1. simpl. apply lookup_insert_eq. }
    exists r', log, ret, rf. repeat split; try assumption.
    rewrite Hfiles. unfold r1. now rewrite passes_without_held.
Qed.

Lemma maxFiles_policy_witness :
  ∃ r,
    widget_with_one_file = Returns r
    ∧ Resumable.appendFilesFromFileList r
        [a_file 2 "b.mp4" 20; a_file 3 "c.mp4" 30] "default"
      = Returns (r,
                 [Resumable.fileProcessingFailed None Resumable.maxFiles_ "default";
                  Resumable.errorCallback Resumable.maxFiles_
                    [a_file 2 "b.mp4" 20; a_file 3 "c.mp4" 30]],
                 Resumable.returned_false)
    ∧ ∃ r' log ret rf,
        Resumable.appendFilesFromFileList r [a_file 2 "b.mp4" 20] "default"
        = Returns (r', log, ret)
        ∧ ResumableFile._fileName rf = "b.mp4"
        ∧ Resumable.files r' !! "default" = Some [rf].
Proof.
  destruct widget_with_one_file as [r | |] eqn:Hr; try discriminate Hr.
  vm_compute in Hr. injection Hr as <-.
  eexists. split; [reflexivity |].
  match goal with
  | |- Resumable.appendFilesFromFileList ?r ?l ?c = _ ∧ _ =>
      assert (H1 : Resumable.files r !! c
                   = Some (default [] (Resumable.files r !! c)))
        by (vm_compute; reflexivity);
      assert (H2 : Resumable.maxFiles r = Some 1) by reflexivity;
      assert (H3 : 1 < Z.of_nat (length l)
                       + Z.of_nat (length (Resumable.getFilesOfAllCategories r)))
        by (vm_compute; reflexivity);
      assert (H4 : 1 < Z.of_nat (length [a_file 2 "b.mp4" 20])
                       + Z.of_nat (length (Resumable.getFilesOfAllCategories r)))
        by (vm_compute; reflexivity);
      split;
      [ apply (proj1 (maxFiles_policy r l c _ 1 H1 H2 H3))
      | destruct (proj2 (maxFiles_policy r [a_file 2 "b.mp4" 20] c _ 1 H1 H2 H4)
                    (hd (bootstrapped 10 no_options)
                        (default [] (Resumable.files r !! c)))
                    (a_file 2 "b.mp4" 20) [])
          as (r' & log & ret & rf & Hrun & _ & _ & _ & Hname & Hfiles) ]
  end.
  - vm_compute. intros (_ & _ & H). discriminate H.
  - reflexivity.
  - vm_compute. reflexivity.
  - reflexivity.
  - vm_compute. reflexivity.
  - reflexivity.
  - vm_compute. reflexivity.
  - vm_compute. reflexivity.
  - reflexivity.
  - vm_compute. intros H. discriminate H.
  - exists r', log, ret, rf. split; [exact Hrun |]. split; [exact Hname |].
    rewrite Hfiles. vm_compute. reflexivity.
Defined.

(** C5, as stated, fails: with the cap at 1 and one file held, a batch of
    one empty file removes the file held and is itself turned down by the
    minimum size, without any maxFiles failure; no file is left. *)
Lemma single_file_replacement_can_leave_nothing :
  (r ← widget_with_one_file;
   x ← Resumable.appendFilesFromFileList r [a_file 2 "b.mp4" 0] "default";
   Returns (Resumable.maxFiles r,
            length (Resumable.getFilesOfAllCategories r),
            Resumable.files x.1.1 !! "default",
            forallb (λ s, negb (is_maxFiles_failure s)) x.1.2))
  = Returns (Some 1, 1%nat, Some [], true).
Proof. vm_compute. reflexivity. Qed.

(** ** Completion tracking *)

Lemma filter_agree {A : Type} (p q : A → bool) (l : list A) :
  (∀ x, x ∈ l → p x = q x) →
  filter (λ x, p x = true) l = filter (λ x, q x = true) l.
Proof.
  induction l as [| x l IH]; intros H; [reflexivity |].
  rewrite !filter_cons, IH by (intros y Hy; apply H; now apply list_elem_of_further).
  rewrite (H x) by apply list_elem_of_here.
  reflexivity.
Qed.

Lemma checkCategories_inv (uncompleted : list string) :
  NoDup uncompleted →
  ∀ (m m' : gmap string (list ResumableFile.t)) still log,
    Resumable.checkCategories m uncompleted = Returns (m', still, log) →
    still = filter (λ c, category_waiting m c = true) uncompleted
    ∧ log = Resumable.categoryComplete
              <$> filter (λ c, category_done m c = true) uncompleted
    ∧ ∀ c, c ∉ uncompleted → m' !! c = m !! c.
Proof.
  induction uncompleted as [| c rest IH]; intros Hnd m m' still log Hrun.
  - simpl in Hrun. injection Hrun as <- <- <-. auto.
  - apply NoDup_cons in Hnd. destruct Hnd as [Hc Hnd].
    simpl in Hrun. rewrite !filter_cons.
    destruct (m !! c) as [fs |] eqn:Hfs; simpl in Hrun; [| discriminate].
    assert (Hwc : category_waiting m c
                  = negb (length fs =? 0)%nat
                    && negb (Resumable.every_isComplete fs).1)
      by (unfold category_waiting; now rewrite Hfs).
    assert (Hdc : category_done m c
                  = negb (length fs =? 0)%nat
                    && (Resumable.every_isComplete fs).1)
      by (unfold category_done; now rewrite Hfs).
    destruct (length fs =? 0)%nat eqn:Hlen; simpl in Hwc, Hdc.
    + rewrite decide_False by (rewrite Hwc; discriminate).
      rewrite decide_False by (rewrite Hdc; discriminate).
      destruct (IH Hnd _ _ _ _ Hrun) as (-> & -> & Hm).
      repeat split; try reflexivity.
      intros c' Hc'. apply Hm. intros Hin. apply Hc'. now apply list_elem_of_further.
    + destruct (Resumable.every_isComplete fs) as [b fs'] eqn:Hev.
      destruct (Resumable.checkCategories (<[c:=fs']> m) rest)
        as [[[m2 still2] log2] | |] eqn:Hrest; simpl in Hrun;
        try discriminate.
      destruct (IH Hnd _ _ _ _ Hrest) as (Hs & Hl & Hm).
      assert (Hw : filter (λ c0, category_waiting (<[c:=fs']> m) c0 = true) rest
                   = filter (λ c0, category_waiting m c0 = true) rest).
      { apply filter_agree. intros c0 Hc0.
        unfold category_waiting. rewrite lookup_insert_ne; [reflexivity |].
        intros ->. contradiction. }
      assert (Hd : filter (λ c0, category_done (<[c:=fs']> m) c0 = true) rest
                   = filter (λ c0, category_done m c0 = true) rest).
      { apply filter_agree. intros c0 Hc0.
        unfold category_done. rewrite lookup_insert_ne; [reflexivity |].
        intros ->. contradiction. }
      rewrite Hw in Hs. rewrite Hd in Hl.
      assert (Hm' : ∀ c', c' ∉ c :: rest → m2 !! c' = m !! c').
      { intros c' Hc'. rewrite Hm.
        - apply lookup_insert_ne. intros ->. apply Hc'. apply list_elem_of_here.
        - intros Hin. apply Hc'. now apply list_elem_of_further. }
      simpl in Hwc, Hdc.
      destruct b; simpl in Hwc, Hdc; injection Hrun as <- <- <-.
      * rewrite decide_False by (rewrite Hwc; discriminate).
        rewrite decide_True by exact Hdc.
        subst. rewrite fmap_cons. auto.
      * rewrite decide_True by exact Hwc.
        rewrite decide_False by (rewrite Hdc; discriminate).
        subst. auto.
Qed.

Lemma completed_in_fmap (l : list string) :
  completed_in (Resumable.categoryComplete <$> l) = l.
Proof.
  induction l as [| c l IH]; [reflexivity |].
  rewrite fmap_cons. unfold completed_in in *. cbn [omap list_omap].
  now rewrite IH.
Qed.

Lemma done_not_waiting (m : gmap string (list ResumableFile.t)) (c : string) :
  category_done m c = true → category_waiting m c = false.
Proof.
  unfold category_done, category_waiting.
  destruct (m !! c) as [fs |]; [| discriminate].
  destruct (length fs =? 0)%nat; [discriminate |]. simpl.
  now intros ->.
Qed.

Lemma handleFileSuccess_inv (r r1 : Resumable.t) (fileCategory : string)
    (log : list Resumable.Signal) :
  NoDup (Resumable.uncompletedFileCategories r) →
  Resumable.handleFileSuccess r fileCategory = Returns (r1, log) →
  let u := Resumable.uncompletedFileCategories r in
  let done := filter (λ c, category_done (Resumable.files r) c = true) u in
  let waiting := filter (λ c, category_waiting (Resumable.files r) c = true) u in
  Resumable.fileCategories r1 = Resumable.fileCategories r
  ∧ if files_present r
    then Resumable.uncompletedFileCategories r1 = waiting
         ∧ log = Resumable.fileSuccess fileCategory
                 :: (Resumable.categoryComplete <$> done)
                 ++ (if (length waiting =? 0)%nat then [Resumable.complete] else [])
    else r1 = r ∧ log = [Resumable.fileSuccess fileCategory].
Proof.
  intros Hnd. unfold Resumable.handleFileSuccess, Resumable.checkUploadComplete,
    files_present.
  destruct (length (Resumable.getFilesOfAllCategories r) =? 0)%nat; simpl.
  { intros [= <- <-]. auto. }
  destruct (Resumable.checkCategories _ _) as [[[m still] l] | |] eqn:Hrun;
    simpl; try discriminate.
  destruct (checkCategories_inv _ Hnd _ _ _ _ Hrun) as (-> & -> & _).
  destruct (length _ =? 0)%nat; simpl; intros [= <- <-]; simpl; auto.
  now rewrite app_nil_r.
Qed.

Lemma successes_once (events : list (gmap string (list ResumableFile.t) * string)) :
  ∀ (r r' : Resumable.t) logs (earlier : list string),
    NoDup (earlier ++ Resumable.uncompletedFileCategories r) →
    Resumable.successes r events = Returns (r', logs) →
    NoDup (earlier ++ completed_in (concat logs)
           ++ Resumable.uncompletedFileCategories r').
Proof.
  induction events as [| [m fileCategory] events IH];
    intros r r' logs earlier Hnd Hrun.
  - simpl in Hrun. injection Hrun as <- <-. exact Hnd.
  - simpl in Hrun.
    destruct (Resumable.handleFileSuccess (Resumable.set_files r m) fileCategory)
      as [[r1 log] | |] eqn:Hstep; simpl in Hrun; try discriminate.
    destruct (Resumable.successes r1 events) as [[r2 logs'] | |] eqn:Hrest;
      simpl in Hrun; try discriminate.
    injection Hrun as <- <-.
    pose proof Hnd as Hnd2. apply NoDup_app in Hnd2.
    destruct Hnd2 as (Hearlier & Hdisj & Hu).
    pose proof (handleFileSuccess_inv (Resumable.set_files r m) _ _ _ Hu Hstep)
      as Hinv.
    cbv zeta in Hinv. destruct Hinv as [_ Hinv].
    simpl in Hinv.
    set (u := Resumable.uncompletedFileCategories r) in *.
    set (done := filter (λ c, category_done m c = true) u) in *.
    set (waiting := filter (λ c, category_waiting m c = true) u) in *.
    assert (Hlog : completed_in log ++ Resumable.uncompletedFileCategories r1
                   = (if files_present (Resumable.set_files r m)
                      then done ++ waiting else u)).
    { destruct (files_present (Resumable.set_files r m)).
      - destruct Hinv as [-> ->]. simpl. unfold completed_in.
        rewrite omap_app. fold (completed_in (Resumable.categoryComplete <$> done)).
        rewrite completed_in_fmap.
        destruct (length waiting =? 0)%nat; simpl; now rewrite app_nil_r.
      - destruct Hinv as [-> ->]. reflexivity. }
    assert (Hnext : NoDup ((earlier ++ completed_in log)
                           ++ Resumable.uncompletedFileCategories r1)).
    { rewrite <- app_assoc, Hlog.
      destruct (files_present (Resumable.set_files r m)); [| exact Hnd].
      apply NoDup_app. split; [exact Hearlier |]. split.
      - intros x Hx Hin. apply (Hdisj x Hx).
        apply elem_of_app in Hin. destruct Hin as [Hin | Hin];
          apply list_elem_of_filter in Hin; tauto.
      - apply NoDup_app. split; [now apply NoDup_filter |].
        split; [| now apply NoDup_filter].
        intros x Hx Hin. apply list_elem_of_filter in Hx, Hin.
        destruct Hx as [Hx _]. destruct Hin as [Hin _].
        apply done_not_waiting in Hx. congruence. }
    specialize (IH _ _ _ _ Hnext Hrest).
    simpl. unfold completed_in in *. rewrite omap_app.
    rewrite <- !app_assoc in IH. rewrite <- !app_assoc. exact IH.
Qed.

Lemma successes_after_completion
    (events : list (gmap string (list ResumableFile.t) * string)) :
  ∀ r : Resumable.t,
    Resumable.uncompletedFileCategories r = [] →
    ∃ r', Resumable.successes r events = Returns (r', after_completion r <$> events)
          ∧ Resumable.uncompletedFileCategories r' = []
          ∧ Resumable.fileCategories r' = Resumable.fileCategories r.
Proof.
  induction events as [| [m fileCategory] events IH]; intros r Hu.
  - exists r. auto.
  - simpl. unfold Resumable.handleFileSuccess, Resumable.checkUploadComplete,
      after_completion, files_present. simpl.
    destruct (length (Resumable.getFilesOfAllCategories (Resumable.set_files r m))
              =? 0)%nat eqn:Hlen; simpl.
    + destruct (IH (Resumable.set_files r m) Hu) as (r' & -> & Hu' & Hc).
      simpl. exists r'. repeat split; try assumption.
    + rewrite Hu. simpl.
      destruct (IH (Resumable.set_uncompletedFileCategories
                      (Resumable.set_files (Resumable.set_files r m) m) [])
                   eq_refl) as (r' & -> & Hu' & Hc).
      simpl. exists r'. repeat split; assumption.
Qed.

Lemma check_log_members (fileCategory : string) (done : list string)
    (b : bool) (s : Resumable.Signal) :
  s ∈ Resumable.fileSuccess fileCategory
      :: (Resumable.categoryComplete <$> done)
      ++ (if b then [Resumable.complete] else [])
  ↔ s = Resumable.fileSuccess fileCategory
    ∨ (∃ c, s = Resumable.categoryComplete c ∧ c ∈ done)
    ∨ (s = Resumable.complete ∧ b = true).
Proof.
  rewrite elem_of_cons, elem_of_app, list_elem_of_fmap.
  destruct b.
  - rewrite list_elem_of_singleton. tauto.
  - split.
    + intros [H | [H | H]]; [tauto | tauto | inversion H].
    + intros [H | [H | [_ H]]]; [tauto | tauto | discriminate H].
Qed.

(** C4, as the code has it.  At a completion check made while some file is
    held, a category signals [categoryComplete] exactly when it is still in
    the set of uncompleted categories, holds a file and all its files are
    complete; the categories kept in the set are those that hold a file not
    yet complete; [complete] is fired exactly when the set is left empty.
    A check made while no file is held changes nothing.  So a category
    without files never signals, no category signals twice over any run of
    checks, and once the set is empty it stays empty and every later check
    made while a file is held fires [complete] again, and nothing else. *)
Theorem completion_tracking (r : Resumable.t) :
  NoDup (Resumable.uncompletedFileCategories r) →
  (∀ fileCategory r1 log,
     Resumable.handleFileSuccess r fileCategory = Returns (r1, log) →
     (∀ c, Resumable.categoryComplete c ∈ log
           ↔ files_present r = true
             ∧ c ∈ Resumable.uncompletedFileCategories r
             ∧ category_done (Resumable.files r) c = true)
     ∧ (Resumable.complete ∈ log
        ↔ files_present r = true ∧ Resumable.uncompletedFileCategories r1 = [])
     ∧ (∀ c, c ∈ Resumable.uncompletedFileCategories r1
             ↔ c ∈ Resumable.uncompletedFileCategories r
               ∧ (files_present r = true →
                  category_waiting (Resumable.files r) c = true))
     ∧ (files_present r = false → r1 = r)
     ∧ NoDup (Resumable.uncompletedFileCategories r1))
  ∧ (∀ events r' logs,
       Resumable.successes r events = Returns (r', logs) →
       NoDup (completed_in (concat logs)))
  ∧ (Resumable.uncompletedFileCategories r = [] →
     ∀ events,
       ∃ r', Resumable.successes r events
             = Returns (r', after_completion r <$> events)
             ∧ Resumable.uncompletedFileCategories r' = []).
Proof.
  intros Hnd. split; [| split].
  - intros fileCategory r1 log Hrun.
    pose proof (handleFileSuccess_inv r r1 fileCategory log Hnd Hrun) as Hinv.
    cbv zeta in Hinv. destruct Hinv as [_ Hinv].
    destruct (files_present r).
    + destruct Hinv as [Hu ->]. rewrite Hu.
      set (waiting := filter (λ c, category_waiting (Resumable.files r) c = true)
                             (Resumable.uncompletedFileCategories r)).
      split; [| split; [| split; [| split]]].
      * intros c. rewrite check_log_members. split.
        -- intros [H | [(c' & [= ->] & H) | [H _]]]; try discriminate H.
           apply list_elem_of_filter in H. tauto.
        -- intros (_ & Hc & Hd). right. left. exists c. split; [reflexivity |].
           apply list_elem_of_filter. auto.
      * rewrite check_log_members. split.
        -- intros [H | [(c' & H & _) | [_ H]]]; try discriminate H.
           split; [reflexivity |]. destruct waiting; [reflexivity | discriminate H].
        -- intros [_ Hw]. right. right. now rewrite Hw.
      * intros c. unfold waiting. rewrite list_elem_of_filter. tauto.
      * discriminate.
      * now apply NoDup_filter.
    + destruct Hinv as [-> ->].
      split; [| split; [| split; [| split]]].
      * intros c. rewrite list_elem_of_singleton. split.
        -- intros H. discriminate H.
        -- intros (H & _). discriminate H.
      * rewrite list_elem_of_singleton. split.
        -- intros H. discriminate H.
        -- intros (H & _). discriminate H.
      * intros c. split; [| tauto]. intros H. split; [exact H | discriminate].
      * reflexivity.
      * exact Hnd.
  - intros events r' logs Hrun.
    pose proof (successes_once events r r' logs [] Hnd Hrun) as H.
    simpl in H. now apply NoDup_app in H.
  - intros Hu events.
    destruct (successes_after_completion events r Hu) as (r' & Hrun & Hu' & _).
    eauto.
Qed.

Lemma completion_tracking_witness :
  ∃ r,
    Resumable.newResumable (configuration None) = Returns r
    ∧ ∀ events r' logs,
        Resumable.successes r events = Returns (r', logs) →
        NoDup (completed_in (concat logs)).
Proof.
  destruct (Resumable.newResumable (configuration None)) as [r | |] eqn:Hr;
    try discriminate Hr.
  assert (Hnd : NoDup (Resumable.uncompletedFileCategories r)).
  { vm_compute in Hr. injection Hr as <-.
    apply (bool_decide_unpack _). vm_compute. exact I. }
  exists r. split; [reflexivity |].
  apply (proj1 (proj2 (completion_tracking r Hnd))).
Defined.

(** C4, as stated, fails: after the only category has been marked complete,
    the next file-success event fires [complete] once more. *)
Lemma complete_fires_again :
  (r ← Resumable.newResumable (configuration None);
   x ← Resumable.successes r
         [({["default" := [uploaded_file]]}, "default");
          ({["default" := [uploaded_file]]}, "default")];
   Returns (x.2, Resumable.uncompletedFileCategories x.1))
  = Returns ([[Resumable.fileSuccess "default";
               Resumable.categoryComplete "default";
               Resumable.complete];
              [Resumable.fileSuccess "default"; Resumable.complete]],
             []).
Proof. vm_compute. reflexivity. Qed.

(** A category that is empty at a check is dropped from the set: when its
    files arrive and complete later, it is never signalled. *)
Lemma late_category_never_signalled :
  (r ← Resumable.newResumable two_categories;
   x ← Resumable.successes r
         [({["photos" := [uploaded_file]; "videos" := []]}, "photos");
          ({["photos" := [uploaded_file]; "videos" := [uploaded_file]]},
           "videos")];
   Returns x.2)
  = Returns [[Resumable.fileSuccess "photos";
              Resumable.categoryComplete "photos";
              Resumable.complete];
             [Resumable.fileSuccess "videos"; Resumable.complete]].
Proof. vm_compute. reflexivity. Qed.

(** With two categories and the cap at 1, a batch of one file for the
    category that holds nothing reads [resumableFiles[0]] of an empty array
    and throws. *)
Lemma replacement_across_categories_throws :
  (r ← Resumable.newResumable two_categories;
   x ← Resumable.appendFilesFromFileList r [a_file 1 "a.jpg" 10] "photos";
   Resumable.appendFilesFromFileList x.1.1 [a_file 2 "b.mp4" 20] "videos")
  = Throws.
Proof. vm_compute. reflexivity. Qed.

(** With the cap at 1 and one file held, a batch of one file of the
    extension [__proto__] throws as well: the file held is removed, the new
    file passes the checks before the validators, and the validator found
    for it is no function. *)
Lemma replacement_by_proto_extension_throws :
  (r ← widget_with_one_file;
   Resumable.appendFilesFromFileList r [a_file 2 "b.__proto__" 20] "default")
  = Throws.
Proof. vm_compute. reflexivity. Qed.

(** The constructor declares every category once: the set of uncompleted
    categories starts without repetition and each of its categories has
    its entry in [files]. *)
Lemma declare_categories_inv (cats : list string) :
  ∀ (m : gmap string (list ResumableFile.t)) (uncompleted dedup : list string),
    NoDup uncompleted →
    (∀ c, c ∈ uncompleted → is_Some (m !! c)) →
    let '(m', uncompleted', _) :=
      Resumable.declare_categories cats m uncompleted dedup in
    NoDup uncompleted' ∧ ∀ c, c ∈ uncompleted' → is_Some (m' !! c).
Proof.
  induction cats as [| c cats IH]; intros m uncompleted dedup Hnd Hm; simpl.
  - auto.
  - destruct (m !! c) as [fs |] eqn:Hc; [now apply IH |].
    destruct (inherited c); [now apply IH |].
    apply IH.
    + apply NoDup_app. split; [exact Hnd |]. split; [| apply NoDup_singleton].
      intros x Hx Hin. apply list_elem_of_singleton in Hin. subst x.
      destruct (Hm c Hx) as [fs Hfs]. congruence.
    + intros x Hx. apply elem_of_app in Hx. destruct Hx as [Hx | Hx].
      * destruct (decide (c = x)) as [-> | Hne].
        -- rewrite lookup_insert_eq. eauto.
        -- rewrite lookup_insert_ne by exact Hne. now apply Hm.
      * apply list_elem_of_singleton in Hx. subst x.
        rewrite lookup_insert_eq. eauto.
Qed.

Lemma newResumable_uncompleted (o : Resumable.ResumableConfiguration)
    (r : Resumable.t) :
  Resumable.newResumable o = Returns r →
  NoDup (Resumable.uncompletedFileCategories r)
  ∧ ∀ c, c ∈ Resumable.uncompletedFileCategories r →
         is_Some (Resumable.files r !! c).
Proof.
  unfold Resumable.newResumable. intros H.
  destruct (match Resumable.cfg_defaultFileCategory o with
            | Some d => _
            | None => _
            end) as [cats | |]; simpl in H; try discriminate H.
  pose proof (declare_categories_inv cats ∅ [] [] (NoDup_nil_2)) as Hinv.
  destruct (Resumable.declare_categories cats ∅ [] []) as [[m u] d].
  injection H as <-. simpl. apply Hinv. intros c Hc. inversion Hc.
Qed.

(** ** The requests of a chunk *)

Lemma status_finished (c : ResumableChunk.t) (code : Z) :
  pendingRetry c = false → isMarkedComplete c = false →
  status (set_xhr c (Some (finished code)))
  = if (code =? 200) || (code =? 201)
    then (SUCCESS, set_xhr c (Some (finished code)), [])
    else if includes_Z (permanentErrors c) code
            || (maxChunkRetries c <=? retries c)
         then (ERROR, set_xhr c (Some (finished code)), [])
         else (PENDING, set_xhr c None, [xhrAbort (offset c)]).
Proof.
  intros Hp Hm. unfold status, abort.
  cbn [set_xhr xhr pendingRetry isMarkedComplete readyState status_code
       finished permanentErrors maxChunkRetries retries offset].
  rewrite Hp, Hm. change (4 <? 4) with false. cbv iota.
  destruct ((code =? 200) || (code =? 201)); [reflexivity |].
  now destruct (includes_Z (permanentErrors c) code
                || (maxChunkRetries c <=? retries c)).
Qed.

Lemma no_probe_send (o : TransportOptions) (c : ResumableChunk.t) :
  no_probe o c → testChunks o && negb (tested c) = false.
Proof.
  intros [H | H]; rewrite H; [reflexivity | apply andb_false_r].
Qed.

Lemma transient_code (c : ResumableChunk.t) (code : Z) :
  transient c code →
  (code =? 200) || (code =? 201) = false
  ∧ includes_Z (permanentErrors c) code = false.
Proof.
  intros (H1 & H2 & H3). split.
  - apply orb_false_iff. split; now apply Z.eqb_neq.
  - destruct (includes_Z (permanentErrors c) code) eqn:E; [| reflexivity].
    apply includes_Z_In in E. contradiction.
Qed.

Lemma answers_retry (o : TransportOptions) (c : ResumableChunk.t)
    (code : Z) (rest : list Z) :
  in_flight c = true → pendingRetry c = false → isMarkedComplete c = false →
  no_probe o c → transient c code → retries c < maxChunkRetries c →
  answers o c (code :: rest)
  = match answers o (retried c) rest with
    | Some (c', log) => Some (c', retry_round c ++ log)
    | None => None
    end.
Proof.
  intros Hf Hp Hm Hn Ht Hr.
  apply no_probe_send in Hn. destruct (transient_code c code Ht) as [Hs He].
  assert (Hb : (maxChunkRetries c <=? retries c) = false) by (apply Z.leb_gt; lia).
  cbn [answers]. unfold answered. rewrite Hf, Hn.
  unfold uploadAnswered, doneHandler.
  rewrite (status_finished c code Hp Hm), Hs, He, Hb. cbn [orb].
  unfold abort, send. cbn.
  destruct (chunkRetryInterval o) as [d |]; cbn; rewrite Hn; cbn;
    unfold retried, retry_round;
    destruct (answers o _ rest) as [[c3 l3] |]; reflexivity.
Qed.

Lemma answers_rounds (o : TransportOptions) (codes rest : list Z) :
  ∀ c : ResumableChunk.t,
  in_flight c = true → pendingRetry c = false → isMarkedComplete c = false →
  no_probe o c → Forall (transient c) codes →
  retries c + Z.of_nat (length codes) ≤ maxChunkRetries c →
  answers o c (codes ++ rest)
  = match answers o (Nat.iter (length codes) retried c) rest with
    | Some (c', log) =>
        Some (c', concat (replicate (length codes) (retry_round c)) ++ log)
    | None => None
    end.
Proof.
  induction codes as [| code codes IH]; intros c Hf Hp Hm Hn Ht Hr.
  - cbn. now destruct (answers o c rest) as [[? ?] |].
  - apply Forall_cons in Ht. destruct Ht as [Hc Ht].
    cbn [length] in Hr. rewrite Nat2Z.inj_succ in Hr.
    change ((code :: codes) ++ rest) with (code :: (codes ++ rest)).
    rewrite (answers_retry o c code _ Hf Hp Hm Hn Hc) by lia.
    rewrite (IH (retried c)); try reflexivity; try assumption.
    + cbn [length]. rewrite Nat.iter_succ_r.
      destruct (answers o _ rest) as [[c' log] |]; [| reflexivity].
      cbn [replicate concat]. now rewrite <- app_assoc.
    + cbn. lia.
Qed.

Lemma iter_retried (n : nat) (c : ResumableChunk.t) :
  let c' := Nat.iter n retried c in
  retries c' = retries c + Z.of_nat n
  ∧ maxChunkRetries c' = maxChunkRetries c
  ∧ permanentErrors c' = permanentErrors c
  ∧ isMarkedComplete c' = isMarkedComplete c
  ∧ tested c' = tested c
  ∧ offset c' = offset c
  ∧ (in_flight c = true → in_flight c' = true)
  ∧ (pendingRetry c = false → pendingRetry c' = false).
Proof.
  induction n as [| n IH]; cbn zeta.
  - repeat split; auto. cbn. lia.
  - rewrite Nat.iter_succ. cbn zeta in IH.
    destruct IH as (H1 & H2 & H3 & H4 & H5 & H6 & H7 & H8).
    set (d := Nat.iter n retried c) in *.
    cbn [retried retries maxChunkRetries permanentErrors isMarkedComplete
         tested offset pendingRetry].
    repeat split; auto. rewrite H1. lia.
Qed.

Lemma answered_success (o : TransportOptions) (c : ResumableChunk.t)
    (code : Z) :
  in_flight c = true → pendingRetry c = false → isMarkedComplete c = false →
  no_probe o c → code = 200 ∨ code = 201 →
  answered o c code
  = Some (set_xhr c (Some (finished code)), [chunkSuccess (offset c)], None).
Proof.
  intros Hf Hp Hm Hn Hc. apply no_probe_send in Hn.
  unfold answered. rewrite Hf, Hn. unfold uploadAnswered, doneHandler.
  rewrite (status_finished c code Hp Hm).
  now destruct Hc as [-> | ->].
Qed.

Lemma answered_error (o : TransportOptions) (c : ResumableChunk.t)
    (code : Z) :
  in_flight c = true → pendingRetry c = false → isMarkedComplete c = false →
  no_probe o c → code ≠ 200 → code ≠ 201 →
  In code (permanentErrors c) ∨ maxChunkRetries c ≤ retries c →
  answered o c code
  = Some (set_xhr c (Some (finished code)), [chunkError (offset c)], None).
Proof.
  intros Hf Hp Hm Hn H200 H201 Hc. apply no_probe_send in Hn.
  unfold answered. rewrite Hf, Hn. unfold uploadAnswered, doneHandler.
  rewrite (status_finished c code Hp Hm).
  apply Z.eqb_neq in H200, H201. rewrite H200, H201. cbn [orb].
  assert (includes_Z (permanentErrors c) code
          || (maxChunkRetries c <=? retries c) = true) as ->; [| reflexivity].
  apply orb_true_iff. destruct Hc as [Hc | Hc].
  - left. now apply includes_Z_In.
  - right. now apply Z.leb_le.
Qed.

(** X1.  A chunk whose upload request fails with answers that are neither a
    success nor a permanent error is sent again at once, as long as the
    retries used stay within [maxChunkRetries]: every failed request leaves
    a cancelled handle, [chunkRetry] and the [chunkProgress] of the new
    request, and costs one retry.  When the answer 200 or 201 follows,
    [chunkSuccess] is fired and the chunk reports SUCCESS. *)
Theorem chunk_retried_until_success (o : TransportOptions)
    (c : ResumableChunk.t) (codes : list Z) (ok : Z) :
  in_flight c = true → pendingRetry c = false → isMarkedComplete c = false →
  no_probe o c → Forall (transient c) codes →
  retries c + Z.of_nat (length codes) ≤ maxChunkRetries c →
  ok = 200 ∨ ok = 201 →
  ∃ c', answers o c (codes ++ [ok])
        = Some (c', concat (replicate (length codes) (retry_round c))
                    ++ [chunkSuccess (offset c)])
        ∧ retries c' = retries c + Z.of_nat (length codes)
        ∧ status_of c' = SUCCESS.
Proof.
  intros Hf Hp Hm Hn Ht Hr Hok.
  rewrite (answers_rounds o codes [ok] c Hf Hp Hm Hn Ht Hr).
  destruct (iter_retried (length codes) c)
    as (H1 & H2 & H3 & H4 & H5 & H6 & H7 & H8).
  set (c1 := Nat.iter (length codes) retried c) in *.
  assert (Hn1 : no_probe o c1) by (unfold no_probe in *; now rewrite H5).
  cbn [answers].
  rewrite (answered_success o c1 ok (H7 Hf) (H8 Hp) (eq_trans H4 Hm) Hn1 Hok).
  eexists. split; [rewrite H6; reflexivity |].
  split; [exact H1 |].
  unfold status_of.
  rewrite (status_finished c1 ok (H8 Hp) (eq_trans H4 Hm)).
  now destruct Hok as [-> | ->].
Qed.

Lemma chunk_retried_until_success_witness :
  ∃ c', answers default_transport
          (set_tested (set_xhr (newResumableChunk 10 0 no_options)
                               (Some opened)) true)
          ([503; 0] ++ [200])
        = Some (c', concat (replicate 2
                    (retry_round
                       (set_tested (set_xhr (newResumableChunk 10 0 no_options)
                                            (Some opened)) true)))
                    ++ [chunkSuccess 0])
        ∧ retries c' = 0 + Z.of_nat 2
        ∧ status_of c' = SUCCESS.
Proof.
  apply (chunk_retried_until_success default_transport
           (set_tested (set_xhr (newResumableChunk 10 0 no_options)
                                (Some opened)) true) [503; 0] 200).
  - reflexivity.
  - reflexivity.
  - reflexivity.
  - right. reflexivity.
  - repeat constructor; try (intros H; discriminate H);
      intros H; vm_compute in H; intuition discriminate.
  - vm_compute. discriminate.
  - left. reflexivity.
Defined.

(** X2.  The retries of a chunk end with [chunkError] when an answer is a
    permanent error code, or when the failed answer finds [maxChunkRetries]
    retries used: the chunk then reports ERROR, its retry count is the one
    of the failed requests before, and no request is left that could be
    answered. *)
Theorem chunk_gives_up (o : TransportOptions) (c : ResumableChunk.t)
    (codes : list Z) (last : Z) :
  in_flight c = true → pendingRetry c = false → isMarkedComplete c = false →
  no_probe o c → Forall (transient c) codes →
  retries c + Z.of_nat (length codes) ≤ maxChunkRetries c →
  last ≠ 200 → last ≠ 201 →
  In last (permanentErrors c)
  ∨ retries c + Z.of_nat (length codes) = maxChunkRetries c →
  ∃ c', answers o c (codes ++ [last])
        = Some (c', concat (replicate (length codes) (retry_round c))
                    ++ [chunkError (offset c)])
        ∧ retries c' = retries c + Z.of_nat (length codes)
        ∧ status_of c' = ERROR
        ∧ ∀ code, answered o c' code = None.
Proof.
  intros Hf Hp Hm Hn Ht Hr H200 H201 Hlast.
  rewrite (answers_rounds o codes [last] c Hf Hp Hm Hn Ht Hr).
  destruct (iter_retried (length codes) c)
    as (H1 & H2 & H3 & H4 & H5 & H6 & H7 & H8).
  set (c1 := Nat.iter (length codes) retried c) in *.
  assert (Hn1 : no_probe o c1) by (unfold no_probe in *; now rewrite H5).
  assert (Hc1 : In last (permanentErrors c1)
                ∨ maxChunkRetries c1 ≤ retries c1).
  { rewrite H1, H2, H3. destruct Hlast; [now left | right; lia]. }
  cbn [answers].
  rewrite (answered_error o c1 last (H7 Hf) (H8 Hp) (eq_trans H4 Hm) Hn1
             H200 H201 Hc1).
  eexists. split; [rewrite H6; reflexivity |].
  split; [exact H1 |]. split.
  - unfold status_of.
    rewrite (status_finished c1 last (H8 Hp) (eq_trans H4 Hm)).
    apply Z.eqb_neq in H200, H201. rewrite H200, H201. cbn [orb].
    assert (includes_Z (permanentErrors c1) last
            || (maxChunkRetries c1 <=? retries c1) = true) as ->;
      [| reflexivity].
    apply orb_true_iff. destruct Hc1 as [Hc | Hc].
    + left. now apply includes_Z_In.
    + right. now apply Z.leb_le.
  - intros code. reflexivity.
Qed.

Lemma chunk_gives_up_witness :
  ∃ c', answers default_transport
          (set_tested (set_xhr (newResumableChunk 10 0 no_options)
                               (Some opened)) true)
          ([503] ++ [404])
        = Some (c', concat (replicate 1
                    (retry_round
                       (set_tested (set_xhr (newResumableChunk 10 0 no_options)
                                            (Some opened)) true)))
                    ++ [chunkError 0])
        ∧ retries c' = 0 + Z.of_nat 1
        ∧ status_of c' = ERROR
        ∧ ∀ code, answered default_transport c' code = None.
Proof.
  apply (chunk_gives_up default_transport
           (set_tested (set_xhr (newResumableChunk 10 0 no_options)
                                (Some opened)) true) [503] 404).
  - reflexivity.
  - reflexivity.
  - reflexivity.
  - right. reflexivity.
  - repeat constructor; try (intros H; discriminate H);
      intros H; vm_compute in H; intuition discriminate.
  - vm_compute. discriminate.
  - discriminate.
  - discriminate.
  - left. vm_compute. tauto.
Defined.

(** X3.  The answer to a probe never fails a chunk and never costs a retry.
    A probe answered 200 or 201 fires [chunkSuccess] and no upload request
    is made; any other answer, a permanent error code included, fires none
    of [chunkSuccess], [chunkError], [chunkRetry] and starts the upload
    request, with [chunkProgress] as the last signal. *)
Theorem probe_answer (o : TransportOptions) (c : ResumableChunk.t)
    (code : Z) :
  in_flight c = true → pendingRetry c = false → isMarkedComplete c = false →
  testChunks o = true → tested c = false →
  ∃ c' log,
    answered o c code = Some (c', log, None)
    ∧ tested c' = true ∧ retries c' = retries c
    ∧ if (code =? 200) || (code =? 201)
      then log = [chunkSuccess (offset c)] ∧ status_of c' = SUCCESS
           ∧ in_flight c' = false
      else filter is_outcome log = []
           ∧ last log = Some (chunkProgress (offset c))
           ∧ xhr c' = Some opened ∧ loaded c' = 0
           ∧ status_of c' = UPLOADING.
Proof.
  intros Hf Hp Hm Ht Hn.
  unfold answered, probeAnswered, testHandler. rewrite Hf, Ht, Hn. cbn [andb negb].
  change (set_tested (set_xhr c (Some (finished code))) true)
    with (set_xhr (set_tested c true) (Some (finished code))).
  rewrite (status_finished (set_tested c true) code Hp Hm).
  cbn [set_tested permanentErrors maxChunkRetries retries offset].
  destruct ((code =? 200) || (code =? 201)) eqn:Hok.
  - do 2 eexists. split; [reflexivity |]. repeat split.
    unfold status_of.
    rewrite (status_finished (set_tested c true) code Hp Hm), Hok.
    reflexivity.
  - destruct (includes_Z (permanentErrors c) code
              || (maxChunkRetries c <=? retries c));
      unfold send; cbn [set_xhr set_tested tested andb negb];
      rewrite andb_false_r;
      do 2 eexists; (split; [reflexivity |]); repeat split;
      unfold status_of, status; cbn; now rewrite Hm.
Qed.

Lemma probe_answer_witness :
  ∃ c' log,
    answered default_transport
      (set_xhr (newResumableChunk 10 0 no_options) (Some opened)) 404
    = Some (c', log, None)
    ∧ tested c' = true ∧ retries c' = 0
    ∧ filter is_outcome log = []
    ∧ last log = Some (chunkProgress 0)
    ∧ xhr c' = Some opened ∧ loaded c' = 0
    ∧ status_of c' = UPLOADING.
Proof.
  apply (probe_answer default_transport
           (set_xhr (newResumableChunk 10 0 no_options) (Some opened)) 404);
    reflexivity.
Defined.

(** X4.  With a retry interval, a failed upload request that is retried
    leaves the chunk without a request but waiting: the timer is set with
    the interval, the chunk reports UPLOADING and the progress 0, and
    [abort()] changes nothing of that.  When the timer fires, [send()] opens
    the next request. *)
Theorem retry_waits_for_timer (o : TransportOptions) (c : ResumableChunk.t)
    (code retryInterval : Z) :
  in_flight c = true → pendingRetry c = false → isMarkedComplete c = false →
  no_probe o c → transient c code → retries c < maxChunkRetries c →
  chunkRetryInterval o = Some retryInterval →
  ∃ c1,
    answered o c code
    = Some (c1, [xhrAbort (offset c); chunkRetry (offset c)],
            Some retryInterval)
    ∧ xhr c1 = None ∧ retries c1 = retries c + 1
    ∧ status_of c1 = UPLOADING
    ∧ (∀ relative, (progress c1 relative).1.1 = Fin 0)
    ∧ abort c1 = (c1, [])
    ∧ send o c1 = (retried c, [chunkProgress (offset c)]).
Proof.
  intros Hf Hp Hm Hn Ht Hr Hi.
  apply no_probe_send in Hn. destruct (transient_code c code Ht) as [Hs He].
  assert (Hb : (maxChunkRetries c <=? retries c) = false)
    by (apply Z.leb_gt; lia).
  unfold answered. rewrite Hf, Hn. unfold uploadAnswered, doneHandler.
  rewrite (status_finished c code Hp Hm), Hs, He, Hb, Hi. cbn [orb].
  unfold abort. cbn [set_xhr xhr offset retries app].
  eexists. split; [reflexivity |]. repeat split.
  unfold send. cbn [set_pendingRetry set_retries set_xhr tested].
  now rewrite Hn.
Qed.

Lemma retry_waits_for_timer_witness :
  ∃ c1,
    answered {| testChunks := false; chunkRetryInterval := Some 500 |}
      (set_xhr (newResumableChunk 10 0 no_options) (Some opened)) 503
    = Some (c1, [xhrAbort 0; chunkRetry 0], Some 500)
    ∧ xhr c1 = None ∧ retries c1 = 0 + 1
    ∧ status_of c1 = UPLOADING
    ∧ (∀ relative, (progress c1 relative).1.1 = Fin 0)
    ∧ abort c1 = (c1, [])
    ∧ send {| testChunks := false; chunkRetryInterval := Some 500 |} c1
      = (retried (set_xhr (newResumableChunk 10 0 no_options) (Some opened)),
         [chunkProgress 0]).
Proof.
  apply (retry_waits_for_timer
           {| testChunks := false; chunkRetryInterval := Some 500 |}
           (set_xhr (newResumableChunk 10 0 no_options) (Some opened))
           503 500).
  - reflexivity.
  - reflexivity.
  - reflexivity.
  - left. reflexivity.
  - repeat split; try discriminate. vm_compute. intuition discriminate.
  - reflexivity.
  - reflexivity.
Defined.

Lemma status_log_quiet (c : ResumableChunk.t) :
  filter is_outcome (status c).2 = [].
Proof.
  unfold status, abort.
  destruct (pendingRetry c); [reflexivity |].
  destruct (isMarkedComplete c); [reflexivity |].
  destruct (xhr c) as [x |]; [| reflexivity].
  destruct (readyState x <? 4); [reflexivity |].
  destruct ((status_code x =? 200) || (status_code x =? 201)); [reflexivity |].
  now destruct (includes_Z (permanentErrors c) (status_code x)
                || (maxChunkRetries c <=? retries c)).
Qed.

Lemma status_keeps (c : ResumableChunk.t) :
  let c' := (status c).1.2 in
  retries c' = retries c ∧ offset c' = offset c ∧ tested c' = tested c
  ∧ pendingRetry c' = pendingRetry c
  ∧ isMarkedComplete c' = isMarkedComplete c
  ∧ maxChunkRetries c' = maxChunkRetries c
  ∧ permanentErrors c' = permanentErrors c.
Proof.
  cbn zeta. destruct (status_changes_only_xhr c) as [-> | (_ & -> & _)];
    repeat split.
Qed.

Lemma send_log_quiet (o : TransportOptions) (c : ResumableChunk.t) :
  filter is_outcome (send o c).2 = [] ∧ retries (send o c).1 = retries c.
Proof.
  unfold send. destruct (testChunks o && negb (tested c)).
  - pose proof (status_log_quiet (test c)) as Hq.
    pose proof (status_keeps (test c)) as (Hr & _).
    destruct (status (test c)) as [[st c1] log]. cbn in *. now split.
  - now split.
Qed.

Lemma doneHandler_retry_branch (o : TransportOptions)
    (c c1 : ResumableChunk.t) (l1 : list FileSignal) :
  filter is_outcome l1 = [] → retries c1 = retries c →
  let r :=
    (let '(c2, l2) := abort c1 in
     let c3 := set_retries c2 (retries c2 + 1) in
     match chunkRetryInterval o with
     | Some retryInterval =>
         (set_pendingRetry c3 true,
          l1 ++ [chunkRetry (offset c)] ++ l2, Some retryInterval)
     | None =>
         let '(c4, l4) := send o c3 in
         (c4, l1 ++ [chunkRetry (offset c)] ++ l2 ++ l4, None)
     end) in
  filter is_outcome r.1.2 = [chunkRetry (offset c)]
  ∧ retries r.1.1 = retries c + 1.
Proof.
  intros Hq Hr. unfold abort. cbv zeta.
  assert (Ha : filter is_outcome
                 match xhr c1 with
                 | Some _ => [xhrAbort (offset c1)]
                 | None => []
                 end = []) by now destruct (xhr c1).
  destruct (chunkRetryInterval o) as [d |].
  - cbn [fst snd]. rewrite !filter_app, Hq, Ha. cbn. split; [reflexivity | lia].
  - pose proof (send_log_quiet o
                  (set_retries (set_xhr c1 None)
                               (retries (set_xhr c1 None) + 1)))
      as [Hs Hsr].
    destruct (send o _) as [c4 l4]. cbn in Hs, Hsr. cbn [fst snd].
    rewrite !filter_app, Hq, Ha, Hs. cbn. split; [reflexivity | lia].
Qed.

(** X5.  The listener of an upload request fires exactly one of
    [chunkSuccess], [chunkError] and [chunkRetry], whatever the state of the
    chunk, and it is [chunkRetry] alone that comes with one more retry
    counted. *)
Theorem doneHandler_one_outcome (o : TransportOptions)
    (c : ResumableChunk.t) :
  let log := (doneHandler o c).1.2 in
  let c' := (doneHandler o c).1.1 in
  filter is_outcome log = [chunkSuccess (offset c)] ∧ retries c' = retries c
  ∨ filter is_outcome log = [chunkError (offset c)] ∧ retries c' = retries c
  ∨ filter is_outcome log = [chunkRetry (offset c)]
    ∧ retries c' = retries c + 1.
Proof.
  cbv zeta. unfold doneHandler.
  pose proof (status_log_quiet c) as Hq.
  pose proof (status_keeps c) as (Hr & _).
  destruct (status c) as [[st c1] l1]. cbn in Hq, Hr.
  destruct st.
  - right; right. exact (doneHandler_retry_branch o c c1 l1 Hq Hr).
  - right; right. exact (doneHandler_retry_branch o c c1 l1 Hq Hr).
  - left. cbn [fst snd]. rewrite filter_app, Hq. now split.
  - right; left. cbn [fst snd]. rewrite filter_app, Hq. now split.
Qed.

(** ** Sending the chunks of a file *)

Lemma status_of_read (c : ResumableChunk.t) :
  status_of (status c).1.2 = status_of c.
Proof. unfold status_of. now rewrite status_second_read. Qed.

Lemma status_PENDING_flags (c : ResumableChunk.t) :
  status_of c = PENDING →
  pendingRetry c = false ∧ isMarkedComplete c = false.
Proof.
  unfold status_of. intros Hst. pose proof (status_sound c) as H.
  rewrite Hst in H. inversion H; now split.
Qed.

Lemma send_uploading (o : TransportOptions) (c : ResumableChunk.t) :
  pendingRetry c = false → isMarkedComplete c = false →
  status_of (send o c).1 = UPLOADING.
Proof.
  intros Hp Hm. unfold send, status_of.
  destruct (testChunks o && negb (tested c)).
  - unfold test, status. cbn. rewrite Hp, Hm. cbn. now rewrite Hp, Hm.
  - unfold status. cbn. now rewrite Hm.
Qed.

Lemma upload_loop_spec (o : TransportOptions) (cs : list ResumableChunk.t) :
  let r := ResumableFile.upload_loop o cs in
  if r.1.1
  then first_sent (status_of <$> cs) (status_of <$> r.1.2)
  else status_of <$> r.1.2 = status_of <$> cs
       ∧ PENDING ∉ status_of <$> cs.
Proof.
  induction cs as [| c cs IH]; cbn zeta.
  - cbn. split; [reflexivity | apply not_elem_of_nil].
  - cbn [ResumableFile.upload_loop].
    pose proof (status_of_read c) as Hread.
    pose proof (status_keeps c) as (_ & _ & _ & Hp & Hm & _).
    assert (Hst : status_of c = (status c).1.1) by reflexivity.
    destruct (status c) as [[st c1] l1]. cbn [fst snd] in *.
    destruct (ResumableFile.is_PENDING st) eqn:Hpend.
    + destruct st; try discriminate Hpend.
      destruct (status_PENDING_flags c Hst) as [Hp0 Hm0].
      pose proof (send_uploading o c1 (eq_trans Hp Hp0) (eq_trans Hm Hm0))
        as Hup.
      destruct (send o c1) as [c2 l2]. cbn [fst snd] in *.
      exists [], (status_of <$> cs). rewrite !fmap_cons, Hst, Hup.
      repeat split. apply not_elem_of_nil.
    + cbn zeta in IH.
      destruct (ResumableFile.upload_loop o cs) as [[b rest'] l3].
      cbn [fst snd] in *. rewrite !fmap_cons, Hread.
      destruct b.
      * destruct IH as (l1' & l2' & E1 & E2 & Hno).
        exists (status_of c :: l1'), l2'. rewrite E1, E2.
        repeat split. rewrite not_elem_of_cons. split; [| exact Hno].
        intros E. rewrite <- Hst, <- E in Hpend. discriminate Hpend.
      * destruct IH as [E Hno]. rewrite E. split; [reflexivity |].
        rewrite not_elem_of_cons. split; [| exact Hno].
        intros E'. rewrite <- Hst, <- E' in Hpend. discriminate Hpend.
Qed.

(** X6.  [upload()] of a file sends exactly the first chunk that reports
    PENDING: that chunk reports UPLOADING afterwards and every other chunk
    reports what it did before.  It returns [false], and no status changes,
    exactly when the file is paused or none of its chunks is PENDING. *)
Theorem file_upload_sends_first_pending (o : TransportOptions)
    (f : ResumableFile.t) :
  let r := ResumableFile.upload o f in
  (r.1.1 = true ↔ ResumableFile.isPaused f = false ∧ PENDING ∈ statuses f)
  ∧ (if r.1.1 then first_sent (statuses f) (statuses r.1.2)
     else statuses r.1.2 = statuses f)
  ∧ length (ResumableFile._chunks r.1.2) = length (ResumableFile._chunks f).
Proof.
  cbn zeta. unfold ResumableFile.upload, statuses.
  destruct (ResumableFile.isPaused f) eqn:Hp.
  - cbn. repeat split; try discriminate. intros [H _]. discriminate H.
  - pose proof (upload_loop_spec o (ResumableFile._chunks f)) as H.
    cbn zeta in H.
    destruct (ResumableFile.upload_loop o (ResumableFile._chunks f))
      as [[b cs] log].
    cbn [fst snd ResumableFile._chunks ResumableFile.set_chunks] in *.
    destruct b.
    + destruct H as (l1 & l2 & E1 & E2 & Hno). repeat split.
      * rewrite E1. apply elem_of_app. right. apply elem_of_cons. now left.
      * exists l1, l2. auto.
      * apply (f_equal length) in E1, E2.
        rewrite length_fmap, length_app in E1, E2. cbn in E1, E2. lia.
    + destruct H as [E Hno]. repeat split.
      * discriminate.
      * intros [_ H]. contradiction.
      * exact E.
      * apply (f_equal length) in E. now rewrite !length_fmap in E.
Qed.

(** ** Reading and stopping a file *)

Lemma status_UPLOADING_cases (c : ResumableChunk.t) :
  status_of c = UPLOADING →
  pendingRetry c = true
  ∨ pendingRetry c = false ∧ isMarkedComplete c = false.
Proof.
  unfold status_of. intros Hst. pose proof (status_sound c) as H.
  rewrite Hst in H. inversion H; [now left | right; now split].
Qed.

Lemma status_in_flight (c : ResumableChunk.t) :
  in_flight c = true →
  status_of c = UPLOADING ∨ isMarkedComplete c = true.
Proof.
  unfold in_flight, status_of, status. intros H.
  destruct (pendingRetry c); [now left |].
  destruct (isMarkedComplete c); [now right |].
  destruct (xhr c) as [x |]; [| discriminate H]. rewrite H. now left.
Qed.

Lemma status_of_aborted (c : ResumableChunk.t) :
  status_of (set_xhr c None)
  = if pendingRetry c then UPLOADING
    else if isMarkedComplete c then SUCCESS else PENDING.
Proof.
  unfold status_of, status. cbn.
  destruct (pendingRetry c); [reflexivity |].
  now destruct (isMarkedComplete c).
Qed.

Lemma read_not_in_flight (c : ResumableChunk.t) :
  in_flight (status c).1.2 = true → in_flight c = true.
Proof.
  destruct (status_changes_only_xhr c) as [-> | (_ & -> & _)];
    [auto | discriminate].
Qed.

Lemma status_log_aborts (c : ResumableChunk.t) :
  ∀ s, s ∈ (status c).2 → ∃ off, s = xhrAbort off.
Proof.
  unfold status, ResumableChunk.abort.
  destruct (pendingRetry c); [intros s H; inversion H |].
  destruct (isMarkedComplete c); [intros s H; inversion H |].
  destruct (xhr c) as [x |]; [| intros s H; inversion H].
  destruct (readyState x <? 4); [intros s H; inversion H |].
  destruct ((status_code x =? 200) || (status_code x =? 201));
    [intros s H; inversion H |].
  destruct (includes_Z (permanentErrors c) (status_code x)
            || (maxChunkRetries c <=? retries c));
    intros s H; [inversion H |].
  apply list_elem_of_singleton in H. eauto.
Qed.

Lemma abort_log_aborts (c : ResumableChunk.t) :
  ∀ s, s ∈ (ResumableChunk.abort c).2 → ∃ off, s = xhrAbort off.
Proof.
  unfold ResumableChunk.abort. cbn [snd].
  destruct (xhr c); intros s H; [| inversion H].
  apply list_elem_of_singleton in H. eauto.
Qed.

Lemma abort_loop_spec (cs : list ResumableChunk.t) :
  let r := ResumableFile.abort_loop cs in
  status_of <$> r.1.1 = after_abort <$> cs
  ∧ pendingRetry <$> r.1.1 = pendingRetry <$> cs
  ∧ isMarkedComplete <$> r.1.1 = isMarkedComplete <$> cs
  ∧ retries <$> r.1.1 = retries <$> cs
  ∧ (∀ c', c' ∈ r.1.1 → in_flight c' = true → isMarkedComplete c' = true)
  ∧ ((0 <? r.2)%nat = existsb ResumableFile.is_UPLOADING (status_of <$> cs))
  ∧ (∀ s, s ∈ r.1.2 → ∃ off, s = xhrAbort off).
Proof.
  induction cs as [| c cs IH]; cbn zeta.
  - cbn. repeat split; intros c' Hc'; inversion Hc'.
  - cbn [ResumableFile.abort_loop].
    pose proof (status_of_read c) as Hread.
    pose proof (status_keeps c) as (Hr & _ & _ & Hp & Hm & _).
    pose proof (read_not_in_flight c) as Hfl.
    pose proof (status_log_aborts c) as Hl1.
    assert (Hst : status_of c = (status c).1.1) by reflexivity.
    destruct (status c) as [[st c1] l1]. cbn [fst snd] in *.
    cbn zeta in IH.
    destruct (ResumableFile.abort_loop cs) as [[rest' l3] n].
    cbn [fst snd] in *.
    destruct IH as (I1 & I2 & I3 & I4 & I5 & I6 & I7).
    destruct (ResumableFile.is_UPLOADING st) eqn:Hup.
    + destruct st; try discriminate Hup.
      pose proof (abort_log_aborts c1) as Hl2.
      unfold ResumableChunk.abort in *.
      cbn [fst snd] in *. rewrite !fmap_cons, I1, I2, I3, I4.
      cbn [set_xhr pendingRetry isMarkedComplete retries].
      rewrite Hp, Hm, Hr, status_of_aborted, Hp, Hm.
      assert (Ha : after_abort c
                   = if pendingRetry c then UPLOADING else PENDING).
      { unfold after_abort. rewrite Hst. now destruct (pendingRetry c). }
      rewrite Ha, Hst. cbn [ResumableFile.is_UPLOADING andb existsb orb].
      repeat split.
      * destruct (status_UPLOADING_cases c Hst) as [-> | [-> ->]];
          reflexivity.
      * intros c' Hc'. apply elem_of_cons in Hc'.
        destruct Hc' as [-> | Hc']; [discriminate | now apply I5].
      * intros s Hs. rewrite !elem_of_app in Hs.
        destruct Hs as [Hs | [Hs | Hs]]; auto.
    + cbn [fst snd]. rewrite !fmap_cons, I1, I2, I3, I4, Hp, Hm, Hr, Hread.
      assert (Ha : after_abort c = st).
      { unfold after_abort. now rewrite Hst, Hup. }
      rewrite Ha, Hst. cbn [andb existsb orb]. rewrite Hup. cbn [orb].
      repeat split.
      * intros c' Hc'. apply elem_of_cons in Hc'.
        destruct Hc' as [-> | Hc']; [| now apply I5].
        intros Hin. specialize (Hfl Hin).
        destruct (status_in_flight c Hfl) as [Hu | Hmk].
        -- rewrite Hst in Hu. rewrite Hu in Hup. discriminate Hup.
        -- now rewrite Hm.
      * exact I6.
      * intros s Hs. rewrite !elem_of_app in Hs.
        destruct Hs as [Hs | [Hs | Hs]]; auto. inversion Hs.
Qed.

Lemma existsb_elem_of {A : Type} (p : A → bool) (l : list A) :
  existsb p l = true ↔ ∃ x, x ∈ l ∧ p x = true.
Proof.
  rewrite existsb_exists. split; intros (x & Hx & Hp); exists x;
    (split; [now apply list_elem_of_In | exact Hp]).
Qed.

(** ** A chunk error *)

(** C3, as the code has it.  When a chunk reports an error, the file
    cancels the request of every chunk that reports UPLOADING, sets its
    error flag, discards all its chunks and fires [fileError] as the last
    of its signals, [chunkError] being the first.  Of the chunks as the
    handler leaves them, before the array is discarded, none has a request
    on its way unless it is marked complete, and a chunk that waits for the
    timer of a retry goes on waiting and reporting UPLOADING.  A file in
    error state answers 1 to every call of [progress()] and stays as it is,
    whatever happens between the calls short of a retry. *)
Theorem chunk_error_fails_file (f : ResumableFile.t) (off : Z) :
  let f' := (ResumableFile.errorHandler f off).1 in
  let log := (ResumableFile.errorHandler f off).2 in
  let aborted := ResumableFile._chunks (ResumableFile.abort f).1 in
  ResumableFile._error f' = true
  ∧ ResumableFile._chunks f' = []
  ∧ (∀ c, c ∈ ResumableFile._chunks f → (status c).1.1 = UPLOADING →
          is_Some (xhr c) → xhrAbort (offset c) ∈ log)
  ∧ status_of <$> aborted = after_abort <$> ResumableFile._chunks f
  ∧ pendingRetry <$> aborted = pendingRetry <$> ResumableFile._chunks f
  ∧ (∀ c', c' ∈ aborted → in_flight c' = true → isMarkedComplete c' = true)
  ∧ head log = Some (chunkError off)
  ∧ last log = Some fileError
  ∧ (∀ g, ResumableFile._error g = true →
          ResumableFile.progress g = (Fin 1, g)
          ∧ ∀ ops, forallb (λ o, negb (ResumableFile.is_retry o)) ops = true →
              ∃ g' rs, ResumableFile.run ops g = Some (g', rs)
                       ∧ ResumableFile._error g' = true
                       ∧ Forall (λ v, v = Fin 1) rs).
Proof.
  cbv zeta. unfold ResumableFile.errorHandler.
  pose proof (abort_loop_spec (ResumableFile._chunks f)) as Hspec.
  cbv zeta in Hspec.
  destruct (ResumableFile.abort f) as [f1 l] eqn:Ha. cbn [fst snd].
  assert (Hleft : ResumableFile._chunks f1
                  = (ResumableFile.abort_loop (ResumableFile._chunks f)).1.1).
  { unfold ResumableFile.abort in Ha.
    destruct (ResumableFile.abort_loop _) as [[cs l0] k].
    now injection Ha as <- _. }
  rewrite Hleft. destruct Hspec as (S1 & S2 & _ & _ & S5 & _).
  split; [reflexivity |]. split; [reflexivity |].
  split.
  { intros c Hin Hst Hx. right.
    apply elem_of_app. left.
    unfold ResumableFile.abort in Ha.
    pose proof (abort_loop_aborts _ c Hin Hst Hx) as Hl.
    destruct (ResumableFile.abort_loop _) as [[cs l0] k]. simpl in Hl.
    inversion Ha; subst. apply elem_of_app. now left. }
  split; [exact S1 |]. split; [exact S2 |]. split; [exact S5 |].
  split; [reflexivity |].
  split; [rewrite app_assoc; apply last_snoc |].
  intros g Hg. split; [now apply progress_in_error |].
  intros ops. revert g Hg.
  induction ops as [| o ops IH]; intros g Hg Hops.
  - exists g, []. simpl. auto.
  - simpl in Hops. apply andb_true_iff in Hops. destruct Hops as [Ho Hops].
    apply negb_true_iff in Ho.
    destruct (step_effect o g Ho) as (g1 & r & Hstep & Herr & Hr).
    destruct (IH g1 (Herr Hg) Hops) as (g2 & rs & Hrun & Hg2 & Hrs).
    simpl. rewrite Hstep. simpl. rewrite Hrun. simpl.
    eexists _, _. split; [reflexivity |]. split; [exact Hg2 |].
    destruct r as [v |]; [| exact Hrs].
    rewrite Hg in Hr. destruct Hr as [-> _]. now constructor.
Qed.

Lemma chunk_error_fails_file_witness :
  statuses file_with_sibling_in_flight = [ERROR; UPLOADING; PENDING]
  ∧ ResumableFile._error
      (ResumableFile.errorHandler file_with_sibling_in_flight 0).1 = true
  ∧ ResumableFile._chunks
      (ResumableFile.errorHandler file_with_sibling_in_flight 0).1 = []
  ∧ xhrAbort 1 ∈ (ResumableFile.errorHandler file_with_sibling_in_flight 0).2
  ∧ ResumableFile.progress
      (ResumableFile.errorHandler file_with_sibling_in_flight 0).1
    = (Fin 1, (ResumableFile.errorHandler file_with_sibling_in_flight 0).1).
Proof.
  pose proof (chunk_error_fails_file file_with_sibling_in_flight 0) as H.
  cbv zeta in H. destruct H as (H1 & H2 & H3 & _ & _ & _ & _ & _ & H9).
  split; [reflexivity |]. split; [exact H1 |]. split; [exact H2 |]. split.
  - apply (H3 (set_xhr (newResumableChunk 10 1 small_chunks) (Some opened))).
    + apply elem_of_cons. right. apply elem_of_cons. left. reflexivity.
    + reflexivity.
    + eexists. reflexivity.
  - apply H9. reflexivity.
Defined.

(** C3, as stated, fails: the file does not stop a chunk that waits for the
    timer of a retry.  In a file of three chunks the first reports an error
    while the second waits for its timer: the handler cancels no request of
    the second chunk and leaves it as it was, waiting, and when the timer
    fires [send()] opens a request for it, after the file has failed.  The
    second chunk is in the state in which the answer 503 to its request
    has left it. *)
Lemma retry_timer_outlives_file_error :
  uploadAnswered transport_with_timer
    (set_tested (set_xhr (newResumableChunk 10 1 small_chunks) (Some opened))
                true)
    503
  = (waiting_chunk, [xhrAbort 1; chunkRetry 1], Some 1000)
  ∧ statuses file_with_retry_pending = [ERROR; UPLOADING; PENDING]
  ∧ ResumableFile._chunks file_with_retry_pending !! 1%nat
    = Some waiting_chunk
  ∧ (ResumableFile.errorHandler file_with_retry_pending 0).2
    = [chunkError 0; fileProgress; fileError]
  ∧ ResumableFile._chunks (ResumableFile.abort file_with_retry_pending).1
      !! 1%nat
    = Some waiting_chunk
  ∧ pendingRetry waiting_chunk = true
  ∧ in_flight (send transport_with_timer waiting_chunk).1 = true.
Proof. repeat split; vm_compute; reflexivity. Qed.

(** X7.  [abort()] of a file takes the request away from every chunk that
    reports UPLOADING and leaves the other chunks as they report: a chunk
    whose request was on its way is PENDING again, a chunk that waits for
    its retry timer still reports UPLOADING, so the file is uploading after
    [abort()] exactly when a retry is pending.  Retry counts and completion
    marks are kept, only a chunk marked complete can keep a request on its
    way, and [fileProgress] is fired exactly when some chunk reported
    UPLOADING. *)
Theorem file_abort_spec (f : ResumableFile.t) :
  let r := ResumableFile.abort f in
  statuses r.1 = after_abort <$> ResumableFile._chunks f
  ∧ (UPLOADING ∈ statuses r.1
     ↔ ∃ c, c ∈ ResumableFile._chunks f ∧ pendingRetry c = true)
  ∧ retries <$> ResumableFile._chunks r.1
    = retries <$> ResumableFile._chunks f
  ∧ isMarkedComplete <$> ResumableFile._chunks r.1
    = isMarkedComplete <$> ResumableFile._chunks f
  ∧ (∀ c', c' ∈ ResumableFile._chunks r.1 → in_flight c' = true →
           isMarkedComplete c' = true)
  ∧ (fileProgress ∈ r.2 ↔ UPLOADING ∈ statuses f).
Proof.
  cbn zeta. unfold ResumableFile.abort, statuses.
  pose proof (abort_loop_spec (ResumableFile._chunks f)) as H.
  cbn zeta in H.
  destruct (ResumableFile.abort_loop (ResumableFile._chunks f))
    as [[cs log] n].
  cbn [fst snd ResumableFile._chunks ResumableFile.set_chunks] in *.
  destruct H as (H1 & H2 & H3 & H4 & H5 & H6 & H7).
  split; [exact H1 |]. split; [| split; [exact H4 |]].
  2: split; [exact H3 |]. 2: split; [exact H5 |].
  - rewrite H1, list_elem_of_fmap. split.
    + intros (c & Hc & Hin). exists c. split; [exact Hin |].
      unfold after_abort in Hc.
      destruct (ResumableFile.is_UPLOADING (status_of c)) eqn:Hu;
        destruct (pendingRetry c); try reflexivity; cbn in Hc;
        try discriminate Hc.
      rewrite <- Hc in Hu. discriminate Hu.
    + intros (c & Hin & Hp). exists c. split; [| exact Hin].
      unfold after_abort, status_of, status. rewrite Hp. reflexivity.
  - rewrite elem_of_app, H6.
    assert (Hu : UPLOADING ∈ status_of <$> ResumableFile._chunks f
                 ↔ existsb ResumableFile.is_UPLOADING
                     (status_of <$> ResumableFile._chunks f) = true).
    { rewrite existsb_elem_of. split.
      - intros Hin. exists UPLOADING. now split.
      - intros (st & Hin & Hst). now destruct st. }
    rewrite Hu. split.
    + intros [Hin | Hin].
      * destruct (H7 _ Hin) as [off Hoff]. discriminate Hoff.
      * destruct (existsb _ _); [reflexivity | inversion Hin].
    + intros ->. right. apply list_elem_of_singleton. reflexivity.
Qed.

Lemma some_status_spec (p : ResumableChunkStatus → bool)
    (cs : list ResumableChunk.t) :
  (ResumableFile.some_status p cs).1 = existsb p (status_of <$> cs)
  ∧ status_of <$> (ResumableFile.some_status p cs).2 = status_of <$> cs.
Proof.
  induction cs as [| c cs IH]; [now split |].
  cbn [ResumableFile.some_status].
  pose proof (status_of_read c) as Hread.
  assert (Hst : status_of c = (status c).1.1) by reflexivity.
  destruct (status c) as [[st c1] l1]. cbn [fst snd] in *.
  rewrite fmap_cons. cbn [existsb]. rewrite Hst.
  destruct (p st).
  - cbn [fst snd orb]. rewrite fmap_cons, Hread, Hst. now split.
  - destruct (ResumableFile.some_status p cs) as [b rest'].
    cbn [fst snd orb] in *. destruct IH as [-> IH].
    rewrite fmap_cons, Hread, Hst, IH. now split.
Qed.

Lemma not_pending_or_uploading (l : list ResumableChunkStatus) :
  negb (existsb (λ st, ResumableFile.is_PENDING st
                       || ResumableFile.is_UPLOADING st) l)
  = forallb terminal l.
Proof.
  induction l as [| st l IH]; [reflexivity |].
  cbn [existsb forallb]. rewrite negb_orb, IH. now destruct st.
Qed.

(** X8.  The getters [isUploading] and [isComplete] of a file read the
    status of its chunks: [isUploading] holds exactly when some chunk
    reports UPLOADING, [isComplete] exactly when every chunk reports SUCCESS
    or ERROR, which a file without chunks does.  Reading either getter
    leaves every chunk reporting what it did before. *)
Theorem file_getters_spec (f : ResumableFile.t) :
  (ResumableFile.isUploading f).1
  = existsb ResumableFile.is_UPLOADING (statuses f)
  ∧ (ResumableFile.isComplete f).1 = forallb terminal (statuses f)
  ∧ statuses (ResumableFile.isUploading f).2 = statuses f
  ∧ statuses (ResumableFile.isComplete f).2 = statuses f.
Proof.
  unfold ResumableFile.isUploading, ResumableFile.isComplete, statuses.
  pose proof (some_status_spec ResumableFile.is_UPLOADING
                (ResumableFile._chunks f)) as [H1 H2].
  pose proof (some_status_spec
                (λ st, ResumableFile.is_PENDING st
                       || ResumableFile.is_UPLOADING st)
                (ResumableFile._chunks f)) as [H3 H4].
  destruct (ResumableFile.some_status ResumableFile.is_UPLOADING _)
    as [b1 cs1].
  destruct (ResumableFile.some_status (λ st, _) _) as [b2 cs2].
  cbn [fst snd ResumableFile._chunks ResumableFile.set_chunks] in *.
  rewrite H1, H3, not_pending_or_uploading. auto.
Qed.

(** X9.  The listener of [chunkSuccess] does nothing for a file in its
    error state.  Otherwise it fires [chunkSuccess] and [fileProgress], and
    [fileSuccess] after them exactly when every chunk of the file reports
    SUCCESS or ERROR. *)
Theorem successHandler_spec (f : ResumableFile.t) (off : Z) :
  let r := ResumableFile.successHandler f off in
  (ResumableFile._error f = true → r = (f, []))
  ∧ (ResumableFile._error f = false →
     r.2 = [chunkSuccess off; fileProgress]
           ++ (if forallb terminal (statuses f) then [fileSuccess] else [])
     ∧ statuses r.1 = statuses f).
Proof.
  cbn zeta. unfold ResumableFile.successHandler.
  destruct (ResumableFile._error f).
  - split; [reflexivity | discriminate].
  - split; [discriminate | intros _].
    unfold ResumableFile.isComplete, statuses.
    pose proof (some_status_spec
                  (λ st, ResumableFile.is_PENDING st
                         || ResumableFile.is_UPLOADING st)
                  (ResumableFile._chunks f)) as [H3 H4].
    destruct (ResumableFile.some_status (λ st, _) _) as [b2 cs2].
    cbn [fst snd ResumableFile._chunks ResumableFile.set_chunks] in *.
    rewrite H3, not_pending_or_uploading. now split.
Qed.

Lemma successHandler_spec_witness :
  (ResumableFile.successHandler (bootstrapped 10 no_options) 0).2
  = [chunkSuccess 0; fileProgress]
    ++ (if forallb terminal (statuses (bootstrapped 10 no_options))
        then [fileSuccess] else [])
  ∧ statuses (ResumableFile.successHandler (bootstrapped 10 no_options) 0).1
    = statuses (bootstrapped 10 no_options).
Proof.
  apply (proj2 (successHandler_spec (bootstrapped 10 no_options) 0)).
  reflexivity.
Defined.

Lemma cancel_loop_spec (cs : list ResumableChunk.t) :
  cancelled (ResumableFile.cancel_loop cs).2
  = offset <$> filter (λ c, ResumableFile.is_UPLOADING (status_of c) = true) cs.
Proof.
  induction cs as [| c cs IH]; [reflexivity |].
  cbn [ResumableFile.cancel_loop].
  pose proof (status_log_aborts c) as Hl1.
  assert (Hst : status_of c = (status c).1.1) by reflexivity.
  destruct (status c) as [[st c1] l1]. cbn [fst snd] in *.
  destruct (ResumableFile.cancel_loop cs) as [rest' l3]. cbn [snd] in *.
  assert (Hq : ∀ l, (∀ s, s ∈ l → ∃ off, s = xhrAbort off) →
                    cancelled l = []).
  { clear. induction l as [| s l IHl]; intros H; [reflexivity |].
    destruct (H s) as [off ->]; [apply elem_of_cons; now left |].
    cbn. apply IHl. intros s Hs. apply H. apply elem_of_cons. now right. }
  rewrite filter_cons.
  destruct (ResumableFile.is_UPLOADING st) eqn:Hup.
  - pose proof (abort_log_aborts c1) as Hl2.
    destruct (ResumableChunk.abort c1) as [c2 l2]. cbn [fst snd] in *.
    unfold cancelled in *. rewrite !omap_app, (Hq l1 Hl1), (Hq l2 Hl2), IH.
    rewrite decide_True by (now rewrite Hst). reflexivity.
  - cbn [snd]. unfold cancelled in *. rewrite !omap_app, (Hq l1 Hl1), IH.
    rewrite decide_False; [reflexivity |].
    rewrite Hst, Hup. discriminate.
Qed.

(** X10.  [cancel()] of a file fires [chunkCancel] for exactly the chunks
    that report UPLOADING, in chunk order, then [fileCancel] and
    [fileProgress], and leaves the file without chunks: the file is then
    complete and not uploading, and [upload()] finds nothing to send. *)
Theorem file_cancel_spec (o : TransportOptions) (f : ResumableFile.t) :
  let r := ResumableFile.cancel f in
  ResumableFile._chunks r.1 = []
  ∧ (∃ log, r.2 = log ++ [fileCancel; fileProgress]
            ∧ cancelled log
              = offset <$> filter (λ c, ResumableFile.is_UPLOADING (status_of c) = true)
                                  (ResumableFile._chunks f)
            ∧ fileCancel ∉ log)
  ∧ (ResumableFile.isComplete r.1).1 = true
  ∧ (ResumableFile.isUploading r.1).1 = false
  ∧ (ResumableFile.upload o r.1).1.1 = false.
Proof.
  cbn zeta. unfold ResumableFile.cancel.
  pose proof (cancel_loop_spec (ResumableFile._chunks f)) as H.
  assert (Hno : fileCancel ∉ (ResumableFile.cancel_loop
                                (ResumableFile._chunks f)).2).
  { clear. induction (ResumableFile._chunks f) as [| c cs IH];
      [apply not_elem_of_nil |].
    cbn [ResumableFile.cancel_loop].
    pose proof (status_log_aborts c) as Hl1.
    destruct (status c) as [[st c1] l1]. cbn [fst snd] in *.
    destruct (ResumableFile.cancel_loop cs) as [rest' l3]. cbn [snd] in *.
    destruct (ResumableFile.is_UPLOADING st).
    - pose proof (abort_log_aborts c1) as Hl2.
      destruct (ResumableChunk.abort c1) as [c2 l2]. cbn [fst snd] in *.
      rewrite !elem_of_app. intros [Hs | [[Hs | Hs] | Hs]]; auto.
      + destruct (Hl1 _ Hs) as [off E]. discriminate E.
      + destruct (Hl2 _ Hs) as [off E]. discriminate E.
      + apply list_elem_of_singleton in Hs. discriminate Hs.
    - cbn [snd]. rewrite !elem_of_app. intros [Hs | [Hs | Hs]]; auto.
      + destruct (Hl1 _ Hs) as [off E]. discriminate E.
      + inversion Hs. }
  destruct (ResumableFile.cancel_loop (ResumableFile._chunks f))
    as [cs log]. cbn [fst snd] in *.
  split; [reflexivity |]. split; [exists log; auto |].
  unfold ResumableFile.upload. cbn.
  destruct (ResumableFile.isPaused f); auto.
Qed.

(** ** Retrying a file *)

Lemma step_keeps (o : ResumableFile.Op) (f f' : ResumableFile.t)
    (r : option num) :
  ResumableFile.is_retry o = false →
  ResumableFile.step o f = Some (f', r) →
  ResumableFile.retryListeners f' = ResumableFile.retryListeners f
  ∧ ResumableFile.opts f' = ResumableFile.opts f.
Proof.
  intros Hr. destruct o; try discriminate Hr; cbn [ResumableFile.step].
  - unfold ResumableFile.progress.
    destruct (ResumableFile._error f);
      [| destruct (ResumableFile.progress_loop _ _ _) as [[? ?] ?]];
      intros [= <- _]; now split.
  - unfold ResumableFile.abort.
    destruct (ResumableFile.abort_loop _) as [[? ?] ?].
    intros [= <- _]; now split.
  - unfold ResumableFile.cancel.
    destruct (ResumableFile.cancel_loop _) as [? ?].
    intros [= <- _]; now split.
  - unfold ResumableFile.markChunksCompleted.
    destruct (_ <=? _)%nat; intros [= <- _]; now split.
  - unfold ResumableFile.isUploading.
    destruct (ResumableFile.some_status _ _) as [? ?].
    intros [= <- _]; now split.
  - unfold ResumableFile.isComplete.
    destruct (ResumableFile.some_status _ _) as [? ?].
    intros [= <- _]; now split.
  - intros [= <- _]; now split.
  - intros [= <- _]; now split.
  - intros [= <- _]; now split.
  - unfold ResumableFile.successHandler.
    destruct (ResumableFile._error f); [intros [= <- _]; now split |].
    unfold ResumableFile.isComplete.
    destruct (ResumableFile.some_status _ _) as [? ?].
    intros [= <- _]; now split.
  - unfold ResumableFile.errorHandler, ResumableFile.abort.
    destruct (ResumableFile.abort_loop _) as [[? ?] ?].
    intros [= <- _]; now split.
Qed.

Lemma run_keeps (ops : list ResumableFile.Op) :
  forallb (λ o, negb (ResumableFile.is_retry o)) ops = true →
  ∀ f : ResumableFile.t,
  ∃ f' rs,
    ResumableFile.run ops f = Some (f', rs)
    ∧ ResumableFile.retryListeners f' = ResumableFile.retryListeners f
    ∧ ResumableFile.opts f' = ResumableFile.opts f.
Proof.
  induction ops as [| o ops IH]; intros Hops f.
  - exists f, []. now split.
  - cbn [forallb] in Hops. apply andb_true_iff in Hops.
    destruct Hops as [Ho Hops]. apply negb_true_iff in Ho.
    destruct (step_effect o f Ho) as (f1 & r & Hstep & _).
    destruct (step_keeps o f f1 r Ho Hstep) as [K1 K2].
    destruct (IH Hops f1) as (f2 & rs & Hrun & K3 & K4).
    cbn [ResumableFile.run]. rewrite Hstep. cbn. rewrite Hrun. cbn.
    eexists _, _. split; [reflexivity |]. split; congruence.
Qed.

Lemma retry_log (f : ResumableFile.t) :
  0 < ResumableFile.chunkSize f →
  ∃ f' log,
    ResumableFile.retry f = Some (f', log)
    ∧ filter (λ s, is_fileRetry s = true) log
      = replicate (ResumableFile.retryListeners f) fileRetry
    ∧ ResumableFile.retryListeners f' = 1%nat
    ∧ ResumableFile.opts f' = ResumableFile.opts f.
Proof.
  intros HC. unfold ResumableFile.retry, ResumableFile.bootstrap.
  pose proof (abort_loop_spec (ResumableFile._chunks f))
    as (_ & _ & _ & _ & _ & _ & Hlog).
  unfold ResumableFile.abort.
  destruct (ResumableFile.abort_loop (ResumableFile._chunks f))
    as [[cs l] k]. cbn [fst snd] in Hlog.
  match goal with
  | |- context [for_turns (ResumableFile.maxOffset ?g)] =>
      assert (Hmax : ResumableFile.maxOffset g
                     = of_Z (Z.max (ceil_quot (ResumableFile._size f)
                                              (ResumableFile.chunkSize f)) 1))
        by (rewrite maxOffset_value by exact HC; reflexivity);
      rewrite Hmax
  end.
  rewrite for_turns_of_Z. cbn [mbind option_bind].
  eexists _, _. split; [reflexivity |].
  cbn [ResumableFile.retryListeners ResumableFile.set_retryListeners
       ResumableFile.set_chunks ResumableFile.set_prevProgress
       ResumableFile.set_error ResumableFile.opts].
  split; [| now split].
  rewrite !filter_app.
  assert (H1 : filter (λ s, is_fileRetry s = true) l = []).
  { clear - Hlog. induction l as [| s l IH]; [reflexivity |].
    destruct (Hlog s) as [off ->]; [apply elem_of_cons; now left |].
    rewrite filter_cons. cbn. apply IH. intros s Hs. apply Hlog.
    apply elem_of_cons. now right. }
  assert (H2 : filter (λ s, is_fileRetry s = true)
                 (if (0 <? k)%nat then [fileProgress] else []) = [])
    by now destruct (0 <? k)%nat.
  assert (H3 : ∀ (g : Z → FileSignal) (l : list Z),
             (∀ z, is_fileRetry (g z) = false) →
             filter (λ s, is_fileRetry s = true) (g <$> l) = []).
  { clear. intros g l Hg. induction l as [| z l IH]; [reflexivity |].
    rewrite fmap_cons, filter_cons, decide_False; [exact IH |].
    now rewrite Hg. }
  assert (H4 : ∀ n, filter (λ s, is_fileRetry s = true)
                      (replicate n fileRetry) = replicate n fileRetry).
  { clear. induction n as [| n IH]; [reflexivity |].
    cbn [replicate]. rewrite filter_cons, decide_True by reflexivity.
    now rewrite IH. }
  rewrite H1, H2, H3, H4 by reflexivity. reflexivity.
Qed.

(** X11.  The first [retry()] of a file never fires [fileRetry]: its
    listener is registered after [bootstrap()] has fired
    [chunkingComplete].  The listener stays armed, so the next [retry()]
    fires [fileRetry] exactly once, for the retry before it.  Nothing else
    that is done with the file in between changes that. *)
Theorem fileRetry_is_one_retry_late (name : string) (size : Z)
    (webkitRelativePath uniqueIdentifier fileCategory : string)
    (o : ChunkOptions) (ops1 ops2 : list ResumableFile.Op) :
  0 < default default_chunkSize (opt_chunkSize o) →
  forallb (λ op, negb (ResumableFile.is_retry op)) ops1 = true →
  forallb (λ op, negb (ResumableFile.is_retry op)) ops2 = true →
  ∃ f l f1 rs1 f2 l2 f3 rs3 f4 l4,
    ResumableFile.newResumableFile name size webkitRelativePath
      uniqueIdentifier fileCategory o = Some (f, l)
    ∧ ResumableFile.run ops1 f = Some (f1, rs1)
    ∧ ResumableFile.retry f1 = Some (f2, l2)
    ∧ (fileRetry ∉ l2)
    ∧ ResumableFile.run ops2 f2 = Some (f3, rs3)
    ∧ ResumableFile.retry f3 = Some (f4, l4)
    ∧ filter (λ s, is_fileRetry s = true) l4 = [fileRetry].
Proof.
  intros HC Hops1 Hops2. unfold ResumableFile.newResumableFile.
  match goal with
  | |- context [ResumableFile.bootstrap ?g] =>
      destruct (bootstrap_result g HC) as (f & l & Hb & _ & _ & Ho & _);
      assert (Hl : ResumableFile.retryListeners f = 0%nat)
  end.
  { unfold ResumableFile.bootstrap in Hb.
    destruct (ResumableFile.abort _) as [f0 l0].
    destruct (for_turns _) as [n |]; [| discriminate Hb].
    cbn in Hb. injection Hb as <- _. reflexivity. }
  rewrite Hb. cbn [mbind option_bind].
  destruct (run_keeps ops1 Hops1 f) as (f1 & rs1 & Hrun1 & K1 & K2).
  assert (HC1 : 0 < ResumableFile.chunkSize f1).
  { unfold ResumableFile.chunkSize. rewrite K2, Ho. exact HC. }
  destruct (retry_log f1 HC1) as (f2 & l2 & Hr2 & Hl2 & K3 & K4).
  destruct (run_keeps ops2 Hops2 f2) as (f3 & rs3 & Hrun3 & K5 & K6).
  assert (HC3 : 0 < ResumableFile.chunkSize f3).
  { unfold ResumableFile.chunkSize. rewrite K6, K4, K2, Ho. exact HC. }
  destruct (retry_log f3 HC3) as (f4 & l4 & Hr4 & Hl4 & _).
  exists f, (chunkingStart :: l), f1, rs1, f2, l2, f3, rs3, f4, l4.
  split; [reflexivity |]. split; [exact Hrun1 |]. split; [exact Hr2 |].
  split.
  - rewrite K1, Hl in Hl2. cbn in Hl2. intros Hin.
    assert (Hf : fileRetry ∈ filter (λ s, is_fileRetry s = true) l2)
      by (apply list_elem_of_filter; now split).
    rewrite Hl2 in Hf. inversion Hf.
  - split; [exact Hrun3 |]. split; [exact Hr4 |].
    now rewrite K5, K3 in Hl4.
Qed.

Lemma fileRetry_is_one_retry_late_witness :
  ∃ f l f1 rs1 f2 l2 f3 rs3 f4 l4,
    ResumableFile.newResumableFile "a.bin" 10 "" "10-abin" "default"
      no_options = Some (f, l)
    ∧ ResumableFile.run [ResumableFile.op_progress] f = Some (f1, rs1)
    ∧ ResumableFile.retry f1 = Some (f2, l2)
    ∧ (fileRetry ∉ l2)
    ∧ ResumableFile.run [ResumableFile.op_abort] f2 = Some (f3, rs3)
    ∧ ResumableFile.retry f3 = Some (f4, l4)
    ∧ filter (λ s, is_fileRetry s = true) l4 = [fileRetry].
Proof.
  apply (fileRetry_is_one_retry_late "a.bin" 10 "" "10-abin" "default"
           no_options [ResumableFile.op_progress] [ResumableFile.op_abort]).
  - reflexivity.
  - reflexivity.
  - reflexivity.
Defined.

(** ** The progress of a file, bounded *)

Lemma jdiv_finite (a b : Z) :
  b ≠ 0 → jdiv (of_Z a) (of_Z b) = Fin (inject_Z a / inject_Z b).
Proof.
  intros Hb. unfold jdiv, of_Z, Qis_zero. cbn [Qnum inject_Z].
  apply Z.eqb_neq in Hb. now rewrite Hb.
Qed.

Lemma chunk_progress_finite (c : ResumableChunk.t) :
  holds_bytes c → ∃ q, (ResumableChunk.progress c true).1.1 = Fin q.
Proof.
  intros [Hs Hl]. unfold ResumableChunk.progress.
  rewrite (jdiv_finite _ _ Hs).
  destruct (pendingRetry c); [eexists; reflexivity |].
  assert (Hc : endByte (status c).1.2 - startByte (status c).1.2 ≠ 0).
  { destruct (status_changes_only_xhr c) as [-> | (_ & -> & _)]; cbn; lia. }
  destruct (status c) as [[st c1] l1]. cbn [fst snd] in Hc.
  destruct (no_status_yet c && negb (isMarkedComplete c));
    destruct st; cbn [fst jmul]; try (eexists; reflexivity);
    rewrite (jdiv_finite _ _ Hc); eexists; reflexivity.
Qed.

Lemma read_holds_bytes (c : ResumableChunk.t) :
  holds_bytes c → holds_bytes (status c).1.2.
Proof.
  intros H. destruct (status_changes_only_xhr c) as [-> | (_ & -> & _)];
    exact H.
Qed.

Lemma progress_loop_finite (cs : list ResumableChunk.t) :
  (∀ c, c ∈ cs → holds_bytes c) →
  ∀ (error : bool) (q0 : Q),
  ∃ q, (ResumableFile.progress_loop cs error (Fin q0)).2 = Fin q.
Proof.
  induction cs as [| c cs IH]; intros H error q0.
  - exists q0. reflexivity.
  - cbn [ResumableFile.progress_loop].
    pose proof (read_holds_bytes c (H c ltac:(apply elem_of_cons; now left)))
      as Hc1.
    destruct (status c) as [[st c1] l1]. cbn [fst snd] in Hc1.
    destruct (chunk_progress_finite c1 Hc1) as [q Hq].
    destruct (ResumableChunk.progress c1 true) as [[p c2] l2].
    cbn [fst] in Hq. subst p. cbn [jadd].
    destruct (IH (λ d Hd, H d ltac:(apply elem_of_cons; now right))
                 (if ResumableFile.is_ERROR st then true else error)
                 (q0 + q)%Q) as [q' Hq'].
    destruct (ResumableFile.progress_loop cs _ _) as [[rest' e] ret].
    cbn [snd] in *. now exists q'.
Qed.

Lemma file_progress_bounded (f : ResumableFile.t) (p : Q) :
  ResumableFile._prevProgress f = Fin p → (0 <= p)%Q → (p <= 1)%Q →
  (∀ c, c ∈ ResumableFile._chunks f → holds_bytes c) →
  ∃ q, (ResumableFile.progress f).1 = Fin q
       ∧ (0 <= q)%Q ∧ (q <= 1)%Q ∧ (p <= q)%Q
       ∧ (ResumableFile._error f = false →
          ResumableFile._prevProgress (ResumableFile.progress f).2 = Fin q).
Proof.
  intros Hprev H0 H1 Hcs. unfold ResumableFile.progress.
  destruct (ResumableFile._error f).
  - exists 1%Q. cbn [fst]. repeat split; try assumption; try discriminate.
  - destruct (progress_loop_finite _ Hcs false 0%Q) as [q Hq].
    destruct (ResumableFile.progress_loop _ _ _) as [[cs e] ret].
    cbn [snd] in Hq. subst ret. rewrite Hprev.
    pose proof (progress_fresh_bounded e (Fin q)) as Hb.
    assert (Hfin : ∃ x, ResumableFile.progress_fresh e (Fin q) = Fin x).
    { unfold ResumableFile.progress_fresh.
      destruct e; [eexists; reflexivity |].
      destruct (jgt _ _); eexists; reflexivity. }
    destruct Hfin as [x Hx]. rewrite Hx in Hb |- *.
    unfold jmax, jlt. destruct (p ?= x)%Q eqn:Hc; cbn [fst snd].
    + exists p. repeat split; auto. apply Qle_refl.
    + apply Qlt_alt in Hc. exists x. repeat split; auto.
      * eapply Qle_trans; [exact H0 | now apply Qlt_le_weak].
      * now apply Qlt_le_weak.
    + exists p. repeat split; auto. apply Qle_refl.
Qed.

(** X12.  For a file whose chunks hold bytes, [progress()] returns a number
    between 0 and 1 that is not below the floor kept from the call before,
    and keeps it as the new floor. *)
Theorem file_progress_in_unit_interval (f : ResumableFile.t) (p : Q) :
  ResumableFile._prevProgress f = Fin p → (0 <= p)%Q → (p <= 1)%Q →
  (∀ c, c ∈ ResumableFile._chunks f → holds_bytes c) →
  ∃ q, (ResumableFile.progress f).1 = Fin q
       ∧ (0 <= q)%Q ∧ (q <= 1)%Q ∧ (p <= q)%Q
       ∧ (ResumableFile._error f = false →
          ResumableFile._prevProgress (ResumableFile.progress f).2 = Fin q).
Proof.
  intros Hprev H0 H1 Hcs.
  destruct (file_progress_bounded f p Hprev H0 H1 Hcs) as (q & Hq).
  exists q. exact Hq.
Qed.

Lemma file_progress_in_unit_interval_witness :
  ∃ q, (ResumableFile.progress (bootstrapped 10 no_options)).1 = Fin q
       ∧ (0 <= q)%Q ∧ (q <= 1)%Q ∧ (0 <= q)%Q
       ∧ (ResumableFile._error (bootstrapped 10 no_options) = false →
          ResumableFile._prevProgress
            (ResumableFile.progress (bootstrapped 10 no_options)).2 = Fin q).
Proof.
  apply (file_progress_in_unit_interval (bootstrapped 10 no_options) 0%Q).
  - reflexivity.
  - discriminate.
  - discriminate.
  - intros c Hc. vm_compute in Hc. apply list_elem_of_singleton in Hc.
    subst c. split; discriminate.
Defined.

(** ** Deduplication of a batch *)

Lemma uniqBy_general (l : list Resumable.ExtendedFile) :
  ∀ (seen : gset string) (fileCategory : string),
  let r := Resumable.uniqBy seen l fileCategory in
  NoDup (identifiers r.1)
  ∧ (∀ g, g ∈ r.1 → Resumable.uniqueIdentifier g ∉ seen)
  ∧ r.1 `sublist_of` l
  ∧ (∀ f, f ∈ l → Resumable.uniqueIdentifier f ∈ seen
                  ∨ Resumable.uniqueIdentifier f ∈ identifiers r.1)
  ∧ (∀ l1 f l2, l = l1 ++ f :: l2 →
       Resumable.uniqueIdentifier f ∉ seen →
       Resumable.uniqueIdentifier f ∉ identifiers l1 → f ∈ r.1)
  ∧ (length r.1 + length r.2 = length l)%nat
  ∧ Forall (is_duplicate_failure fileCategory) r.2.
Proof.
  induction l as [| item l IH]; intros seen fileCategory; cbn zeta.
  - cbn. repeat apply conj.
    + constructor.
    + intros g Hg. inversion Hg.
    + constructor.
    + intros f Hf. inversion Hf.
    + intros l1 f l2 E. now destruct l1.
    + reflexivity.
    + constructor.
  - cbn [Resumable.uniqBy].
    destruct (decide (Resumable.uniqueIdentifier item ∈ seen)) as [Hin | Hnin].
    + specialize (IH seen fileCategory). cbn zeta in IH.
      destruct (Resumable.uniqBy seen l fileCategory) as [out log].
      cbn [fst snd] in *.
      destruct IH as (I1 & I2 & I3 & I4 & I5 & I6 & I7).
      repeat apply conj.
      * exact I1.
      * exact I2.
      * now apply sublist_cons.
      * intros f Hf. apply elem_of_cons in Hf.
        destruct Hf as [-> | Hf]; [now left | now apply I4].
      * intros l1 f l2 E Hs Hl1. destruct l1 as [| x l1].
        -- injection E as -> ->. contradiction.
        -- injection E as -> ->. apply (I5 l1 f l2 eq_refl Hs).
           intros Hf. apply Hl1. unfold identifiers. rewrite fmap_cons.
           apply elem_of_cons. now right.
      * cbn [length]. lia.
      * constructor; [now exists item | exact I7].
    + specialize (IH ({[Resumable.uniqueIdentifier item]} ∪ seen)
                     fileCategory). cbn zeta in IH.
      destruct (Resumable.uniqBy _ l fileCategory) as [out log].
      cbn [fst snd] in *.
      destruct IH as (I1 & I2 & I3 & I4 & I5 & I6 & I7).
      repeat apply conj.
      * unfold identifiers. rewrite fmap_cons. apply NoDup_cons.
        split; [| exact I1].
        intros Hx. apply list_elem_of_fmap in Hx.
        destruct Hx as (g & Hg & Hgin). apply (I2 g Hgin).
        rewrite <- Hg. set_solver.
      * intros g Hg. apply elem_of_cons in Hg.
        destruct Hg as [-> | Hg]; [exact Hnin |].
        specialize (I2 g Hg). set_solver.
      * now apply sublist_skip.
      * intros f Hf. unfold identifiers. rewrite fmap_cons.
        apply elem_of_cons in Hf. destruct Hf as [-> | Hf].
        -- right. apply elem_of_cons. now left.
        -- destruct (I4 f Hf) as [Hs | Ho].
           ++ apply elem_of_union in Hs. destruct Hs as [Hs | Hs].
              ** right. apply elem_of_singleton in Hs. rewrite Hs.
                 apply elem_of_cons. now left.
              ** now left.
           ++ right. apply elem_of_cons. now right.
      * intros l1 f l2 E Hs Hl1. destruct l1 as [| x l1].
        -- injection E as -> ->. apply elem_of_cons. now left.
        -- injection E as -> ->. apply elem_of_cons. right.
           apply (I5 l1 f l2 eq_refl).
           ++ intros Hf. apply elem_of_union in Hf.
              destruct Hf as [Hf | Hf]; [| contradiction].
              apply elem_of_singleton in Hf. apply Hl1.
              unfold identifiers. rewrite fmap_cons, Hf.
              apply elem_of_cons. now left.
           ++ intros Hf. apply Hl1. unfold identifiers. rewrite fmap_cons.
              apply elem_of_cons. now right.
      * cbn [length]. lia.
      * exact I7.
Qed.

(** X13.  [uniqBy] keeps, in the order of the batch, exactly the first file
    of every identifier: the files kept have pairwise distinct identifiers,
    every identifier of the batch is still there, and each file left out is
    reported once as a duplicate.  A batch that went through it goes
    through it again unchanged. *)
Theorem uniqBy_keeps_first_occurrences (l : list Resumable.ExtendedFile)
    (fileCategory : string) :
  let r := Resumable.uniqBy ∅ l fileCategory in
  NoDup (identifiers r.1)
  ∧ r.1 `sublist_of` l
  ∧ (∀ f, f ∈ l → Resumable.uniqueIdentifier f ∈ identifiers r.1)
  ∧ (∀ l1 f l2, l = l1 ++ f :: l2 →
       Resumable.uniqueIdentifier f ∉ identifiers l1 → f ∈ r.1)
  ∧ (length r.1 + length r.2 = length l)%nat
  ∧ Forall (is_duplicate_failure fileCategory) r.2
  ∧ Resumable.uniqBy ∅ r.1 fileCategory = (r.1, []).
Proof.
  pose proof (uniqBy_general l ∅ fileCategory) as H. cbn zeta in *.
  destruct H as (H1 & H2 & H3 & H4 & H5 & H6 & H7).
  repeat apply conj; auto.
  - intros f Hf. destruct (H4 f Hf) as [Hs | Ho]; [set_solver | exact Ho].
  - intros l1 f l2 E Hl1. apply (H5 l1 f l2 E); [set_solver | exact Hl1].
  - apply uniqBy_distinct; [exact H1 | set_solver].
Qed.

(** ** The files held by the categories *)

Lemma gather_insert_notin (cats : list string)
    (m : gmap string (list ResumableFile.t)) (c : string)
    (x : list ResumableFile.t) :
  c ∉ cats → gather cats (<[c := x]> m) = gather cats m.
Proof.
  unfold gather. induction cats as [| d cats IH]; intros Hc; [reflexivity |].
  apply not_elem_of_cons in Hc. destruct Hc as [Hne Hc].
  rewrite !fmap_cons. cbn [concat].
  rewrite lookup_insert_ne by exact Hne. now rewrite IH.
Qed.

Lemma gather_insert_length (cats : list string)
    (m : gmap string (list ResumableFile.t)) (c : string)
    (fs fs' : list ResumableFile.t) :
  NoDup cats → c ∈ cats → m !! c = Some fs →
  (length (gather cats (<[c := fs']> m)) + length fs
   = length (gather cats m) + length fs')%nat.
Proof.
  induction cats as [| d cats IH]; intros Hnd Hc Hm; [inversion Hc |].
  apply NoDup_cons in Hnd. destruct Hnd as [Hd Hnd].
  unfold gather in *. rewrite !fmap_cons. cbn [concat].
  rewrite !length_app.
  destruct (decide (c = d)) as [-> | Hne].
  - rewrite lookup_insert_eq, Hm. cbn [default from_option id].
    pose proof (gather_insert_notin cats m d fs' Hd) as E.
    unfold gather in E. rewrite E. lia.
  - rewrite lookup_insert_ne by exact Hne.
    apply elem_of_cons in Hc. destruct Hc as [Hc | Hc]; [contradiction |].
    specialize (IH Hnd Hc Hm). lia.
Qed.

Lemma filterByResults_sublist {A : Type} (l : list A) (results : list bool) :
  ∀ index, Resumable.filterByResults index l results `sublist_of` l.
Proof.
  induction l as [| v l IH]; intros index; [constructor |].
  cbn [Resumable.filterByResults].
  destruct (default false (results !! index)).
  - apply sublist_skip, IH.
  - apply sublist_cons, IH.
Qed.

Lemma inherited_elem_of (key : string) :
  inherited key = true ↔ key ∈ Object_prototype.
Proof.
  unfold inherited. rewrite existsb_exists. split.
  - intros (x & Hx & E). apply String.eqb_eq in E. subst x.
    now apply list_elem_of_In.
  - intros H. exists key. split; [now apply list_elem_of_In |].
    apply String.eqb_refl.
Qed.

Lemma includes_elem_of (l : list string) (s : string) :
  Resumable.includes l s = true ↔ s ∈ l.
Proof.
  unfold Resumable.includes. rewrite existsb_exists. split.
  - intros (x & Hx & E). apply String.eqb_eq in E. subst x.
    now apply list_elem_of_In.
  - intros H. exists s. split; [now apply list_elem_of_In |].
    apply String.eqb_refl.
Qed.

Lemma validateFiles_sublist (r : Resumable.t)
    (l out : list Resumable.ExtendedFile) (fileCategory : string)
    (log : list Resumable.Signal) :
  Resumable.validateFiles r l fileCategory = Returns (Some out, log) →
  out `sublist_of` l ∧ fileCategory ∈ Resumable.fileCategories r.
Proof.
  unfold Resumable.validateFiles.
  destruct (Resumable.includes _ _) eqn:Hin; cbn [negb]; [| discriminate].
  destruct (Resumable.uniqBy ∅ l fileCategory) as [u l1].
  destruct (Resumable.validateAll r fileCategory u) as [[results l2] | |];
    cbn; try discriminate.
  intros [= <- _]. split; [apply filterByResults_sublist |].
  now apply includes_elem_of.
Qed.

Lemma createFiles_spec (validated : list Resumable.ExtendedFile)
    (fileCategory : string) :
  ∀ (r r' : Resumable.t) (log : list Resumable.Signal)
    (fs : list ResumableFile.t),
  Resumable.createFiles r validated fileCategory = Returns (r', log) →
  Resumable.files r !! fileCategory = Some fs →
  ∃ news,
    r' = Resumable.set_files r (<[fileCategory := fs ++ news]> (Resumable.files r))
    ∧ ResumableFile._uniqueIdentifier <$> news = identifiers validated
    ∧ Forall (λ f, ResumableFile._fileCategory f = fileCategory) news
    ∧ log = (λ f, Resumable.fileAdded f fileCategory) <$> news.
Proof.
  induction validated as [| v validated IH]; intros r r' log fs Hc Hfs.
  - cbn in Hc. injection Hc as <- <-. exists [].
    rewrite app_nil_r, insert_id by exact Hfs.
    repeat apply conj; try reflexivity; [now destruct r | constructor].
  - cbn [Resumable.createFiles] in Hc.
    destruct (ResumableFile.newResumableFile _ _ _ _ _ _)
      as [[rf lf] |] eqn:Hnew; cbn in Hc; [| discriminate Hc].
    rewrite Hfs in Hc. cbn in Hc.
    match type of Hc with
    | context [Resumable.createFiles ?r1 _ _] =>
        destruct (Resumable.createFiles r1 validated fileCategory)
          as [[r2 l2] | |] eqn:Hrest; cbn in Hc; try discriminate Hc;
        destruct (IH r1 r2 l2 (fs ++ [rf]) Hrest) as (news & E1 & E2 & E3 & E4)
    end.
    { cbn. apply lookup_insert_eq. }
    injection Hc as <- <-. exists (rf :: news).
    assert (Hrf : ResumableFile._uniqueIdentifier rf
                  = Resumable.uniqueIdentifier v
                  ∧ ResumableFile._fileCategory rf = fileCategory).
    { unfold ResumableFile.newResumableFile in Hnew.
      match type of Hnew with
      | context [ResumableFile.bootstrap ?g] =>
          destruct (ResumableFile.bootstrap g) as [[f1 l1] |] eqn:Hb;
          cbn in Hnew; [| discriminate Hnew]
      end.
      injection Hnew as <- _.
      unfold ResumableFile.bootstrap in Hb.
      destruct (ResumableFile.abort _) as [f0 l0] eqn:Hab.
      unfold ResumableFile.abort in Hab. cbn in Hab. injection Hab as <- _.
      destruct (for_turns _) as [n |]; cbn in Hb; [| discriminate Hb].
      injection Hb as <- _. now split. }
    destruct Hrf as [Hu Hcat].
    repeat apply conj.
    + rewrite E1. cbn. rewrite insert_insert_eq, <- app_assoc. reflexivity.
    + unfold identifiers in *. now rewrite !fmap_cons, E2, Hu.
    + constructor; assumption.
    + now rewrite E4.
Qed.

Lemma validateFiles_no_fileAdded (r : Resumable.t)
    (l : list Resumable.ExtendedFile) (fileCategory : string)
    (validated : option (list Resumable.ExtendedFile))
    (l1 : list Resumable.Signal) (f : ResumableFile.t) :
  Resumable.validateFiles r l fileCategory = Returns (validated, l1) →
  Resumable.fileAdded f fileCategory ∉ l1.
Proof.
  intros Hv Hf. unfold Resumable.validateFiles in Hv.
  destruct (negb _); [injection Hv as _ <-;
                      apply list_elem_of_singleton in Hf; discriminate Hf |].
  pose proof (uniqBy_general l ∅ fileCategory) as (_ & _ & _ & _ & _ & _ & Hd).
  destruct (Resumable.uniqBy ∅ _ fileCategory) as [u lu]. cbn [snd] in Hd.
  destruct (Resumable.validateAll r fileCategory u)
    as [[results lv] | |] eqn:Hall; cbn in Hv; try discriminate Hv.
  injection Hv as _ <-. apply elem_of_app in Hf. destruct Hf as [Hf | Hf].
  + rewrite Forall_forall in Hd. destruct (Hd _ Hf) as [item E].
    discriminate E.
  + revert results lv Hall Hf. clear.
    induction u as [| x u IH]; intros results lv Hall Hf.
    * cbn in Hall. injection Hall as _ <-. inversion Hf.
    * cbn [Resumable.validateAll] in Hall.
      destruct (Resumable.validateFile r fileCategory x)
        as [[b lx] | |] eqn:Hx; cbn in Hall; try discriminate Hall.
      destruct (Resumable.validateAll r fileCategory u)
        as [[bs lu] | |] eqn:Hu; cbn in Hall; try discriminate Hall.
      injection Hall as _ <-. apply elem_of_app in Hf.
      destruct Hf as [Hf | Hf]; [| exact (IH bs lu eq_refl Hf)].
      clear - Hx Hf. unfold Resumable.validateFile in Hx.
      destruct (Resumable.files r !! fileCategory); cbn in Hx;
        [| discriminate Hx].
      destruct (existsb _ _);
        [injection Hx as _ <-; apply list_elem_of_singleton in Hf;
         discriminate Hf |].
      destruct (Resumable.fileTypes r !! fileCategory); cbn in Hx;
        [| discriminate Hx].
      unfold Resumable.inherited_validator in Hx.
      repeat (cbn [mbind result_bind default] in Hx;
              match type of Hx with
              | context [if ?c then _ else _] => destruct c
              | context [match ?c with Some _ => _ | None => _ end] =>
                  destruct c
              end);
        cbn in Hx; try discriminate Hx;
        injection Hx as _ <-;
        repeat (apply elem_of_cons in Hf; destruct Hf as [Hf | Hf];
                [discriminate Hf |]);
        inversion Hf.
Qed.

Lemma admitFiles_spec (r r' : Resumable.t) (fileList : list Resumable.File)
    (fileCategory : string) (log : list Resumable.Signal)
    (ret : Resumable.Returned) (fs : list ResumableFile.t) :
  Resumable.admitFiles r fileList fileCategory = Returns (r', log, ret) →
  Resumable.files r !! fileCategory = Some fs →
  ∃ validated l1 news,
    Resumable.validateFiles r (extended r fileCategory <$> fileList)
      fileCategory = Returns (Some validated, l1)
    ∧ r' = Resumable.set_files r
             (<[fileCategory := fs ++ news]> (Resumable.files r))
    ∧ ResumableFile._uniqueIdentifier <$> news = identifiers validated
    ∧ Forall (λ f, ResumableFile._fileCategory f = fileCategory) news
    ∧ (∀ f, Resumable.fileAdded f fileCategory ∈ log → f ∈ news).
Proof.
  unfold Resumable.admitFiles. intros H Hfs.
  change (λ f, {| Resumable.file := f;
                  Resumable.uniqueIdentifier :=
                    Resumable.callGenerateUniqueIdentifier r f fileCategory |})
    with (extended r fileCategory) in H.
  destruct (Resumable.validateFiles r _ fileCategory)
    as [[[validated |] l1] | |] eqn:Hv; cbn in H; try discriminate H.
  destruct (Resumable.createFiles r validated fileCategory)
    as [[r1 l2] | |] eqn:Hc; cbn in H; try discriminate H.
  destruct (createFiles_spec validated fileCategory r r1 l2 fs Hc Hfs)
    as (news & E1 & E2 & E3 & E4).
  exists validated, l1, news.
  assert (Hlog : ∀ f, Resumable.fileAdded f fileCategory ∈ l1 ++ l2 → f ∈ news).
  { intros f Hf. apply elem_of_app in Hf. destruct Hf as [Hf | Hf].
    - exfalso. exact (validateFiles_no_fileAdded _ _ _ _ _ _ Hv Hf).
    - rewrite E4 in Hf. apply list_elem_of_fmap in Hf.
      destruct Hf as (g & E & Hg). now injection E as ->. }
  destruct ((length validated =? 0)%nat && _); injection H as <- <- _;
    repeat apply conj; auto.
  intros f Hf. apply Hlog. rewrite app_assoc in Hf.
  apply elem_of_app in Hf. destruct Hf as [Hf | Hf]; [exact Hf |].
  apply list_elem_of_singleton in Hf. discriminate Hf.
Qed.

Lemma admitFiles_no_entry (r r' : Resumable.t)
    (fileList : list Resumable.File) (fileCategory : string)
    (log : list Resumable.Signal) (ret : Resumable.Returned) :
  Resumable.files r !! fileCategory = None →
  Resumable.admitFiles r fileList fileCategory = Returns (r', log, ret) →
  r' = r ∧ ∀ f, Resumable.fileAdded f fileCategory ∉ log.
Proof.
  unfold Resumable.admitFiles. intros Hfs H.
  destruct (Resumable.validateFiles r _ fileCategory)
    as [[[validated |] l1] | |] eqn:Hv; cbn in H; try discriminate H.
  pose proof (λ f, validateFiles_no_fileAdded _ _ _ _ _ f Hv) as Hl1.
  destruct validated as [| v validated].
  - cbn in H. destruct (_ =? _)%nat; injection H as <- <- _;
      (split; [reflexivity |]); intros f Hf; apply (Hl1 f).
    + now rewrite app_nil_r in Hf.
    + apply elem_of_app in Hf. destruct Hf as [Hf | Hf]; [exact Hf |].
      apply list_elem_of_singleton in Hf. discriminate Hf.
  - cbn [Resumable.createFiles] in H.
    destruct (ResumableFile.newResumableFile _ _ _ _ _ _) as [[rf lf] |];
      cbn in H; [| discriminate H].
    rewrite Hfs in H. cbn in H. discriminate H.
Qed.

Lemma appendFiles_no_entry (r r' : Resumable.t)
    (fileList : list Resumable.File) (fileCategory : string)
    (log : list Resumable.Signal) (ret : Resumable.Returned) :
  Resumable.files r !! fileCategory = None →
  Resumable.appendFilesFromFileList r fileList fileCategory
  = Returns (r', log, ret) →
  r' = r ∧ ∀ f, Resumable.fileAdded f fileCategory ∉ log.
Proof.
  unfold Resumable.appendFilesFromFileList. intros Hfs. rewrite Hfs.
  destruct (negb _).
  { intros [= <- <- _]. split; [reflexivity |].
    intros f Hf. apply list_elem_of_singleton in Hf. discriminate Hf. }
  destruct (match Resumable.maxFiles r with Some _ => _ | None => _ end).
  - destruct (_ && _ && _); [cbn; discriminate |].
    intros [= <- <- _]. split; [reflexivity |].
    intros f Hf. apply elem_of_cons in Hf.
    destruct Hf as [Hf | Hf]; [discriminate Hf |].
    apply list_elem_of_singleton in Hf. discriminate Hf.
  - now apply admitFiles_no_entry.
Qed.

Lemma length_getFiles_insert (r : Resumable.t) (c : string)
    (fs fs' : list ResumableFile.t) :
  NoDup (Resumable.fileCategories r) → c ∈ Resumable.fileCategories r →
  Resumable.files r !! c = Some fs →
  (length (Resumable.getFilesOfAllCategories
             (Resumable.set_files r (<[c := fs']> (Resumable.files r))))
   + length fs
   = length (Resumable.getFilesOfAllCategories r) + length fs')%nat.
Proof.
  intros Hnd Hc Hfs.
  exact (gather_insert_length (Resumable.fileCategories r) (Resumable.files r)
           c fs fs' Hnd Hc Hfs).
Qed.

Lemma well_filed_insert (r : Resumable.t) (c : string)
    (fs' : list ResumableFile.t) :
  well_filed r →
  Forall (λ f, ResumableFile._fileCategory f = c) fs' →
  well_filed (Resumable.set_files r (<[c := fs']> (Resumable.files r))).
Proof.
  intros [Hnd Hf] Hall. split; [exact Hnd |].
  cbn. intros d fs f Hd Hin.
  destruct (decide (c = d)) as [-> | Hne].
  - rewrite lookup_insert_eq in Hd. injection Hd as <-.
    rewrite Forall_forall in Hall. now apply Hall.
  - rewrite lookup_insert_ne in Hd by exact Hne. now apply (Hf d fs).
Qed.

(** X14.  An intake that runs from its call to its end without another
    intake begun in between never takes the number of files held beyond
    [maxFiles]: whatever batch is given, and whether it is admitted,
    rejected or replaces the single file held, the files held when the
    call returns number at most [maxFiles], or as many as before if that
    was more.  Every file still names the category that holds it. *)
Theorem maxFiles_never_exceeded (r r' : Resumable.t)
    (fileList : list Resumable.File) (fileCategory : string) (m : Z)
    (log : list Resumable.Signal) (ret : Resumable.Returned) :
  well_filed r →
  Resumable.maxFiles r = Some m →
  Resumable.appendFilesFromFileList r fileList fileCategory
  = Returns (r', log, ret) →
  well_filed r'
  ∧ Z.of_nat (length (Resumable.getFilesOfAllCategories r'))
    ≤ Z.max m (Z.of_nat (length (Resumable.getFilesOfAllCategories r))).
Proof.
  intros Hwf Hm.
  destruct (Resumable.files r !! fileCategory) as [held |] eqn:Hheld.
  2: { intros Ha.
       rewrite (proj1 (appendFiles_no_entry _ _ _ _ _ _ Hheld Ha)).
       split; [exact Hwf | lia]. }
  unfold Resumable.appendFilesFromFileList. rewrite Hheld, Hm.
  rewrite bool_decide_eq_true_2 by eauto. cbn [orb negb].
  assert (Hadmit : ∀ r0 held0,
    well_filed r0 → Resumable.files r0 !! fileCategory = Some held0 →
    Resumable.admitFiles r0 fileList fileCategory = Returns (r', log, ret) →
    well_filed r'
    ∧ (length (Resumable.getFilesOfAllCategories r')
       ≤ length (Resumable.getFilesOfAllCategories r0) + length fileList)%nat).
  { intros r0 held0 Hwf0 Hheld0 Ha.
    destruct (admitFiles_spec r0 r' fileList fileCategory log ret held0 Ha
                Hheld0) as (validated & l1 & news & Hv & -> & Hu & Hcat & _).
    destruct (validateFiles_sublist _ _ _ _ _ Hv) as [Hsub Hin].
    apply sublist_length in Hsub. rewrite length_fmap in Hsub.
    assert (Hlen : length news = length validated).
    { apply (f_equal length) in Hu. unfold identifiers in Hu.
      now rewrite !length_fmap in Hu. }
    split.
    - apply well_filed_insert; [exact Hwf0 |]. apply Forall_app. split;
        [| exact Hcat].
      apply Forall_forall. intros f Hf. exact (proj2 Hwf0 _ _ _ Hheld0 Hf).
    - pose proof (length_getFiles_insert r0 fileCategory held0
                    (held0 ++ news) (proj1 Hwf0) Hin Hheld0) as E.
      rewrite length_app in E. lia. }
  destruct (m <? _) eqn:Htoo.
  2: { intros Ha. destruct (Hadmit r held Hwf Hheld Ha) as [W L].
       split; [exact W |]. apply Z.ltb_ge in Htoo. lia. }
  destruct ((m =? 1) && _ && _) eqn:Hone.
  2: { intros [= <- _ _]. split; [exact Hwf | lia]. }
  apply andb_true_iff in Hone. destruct Hone as [Hone H3].
  apply andb_true_iff in Hone. destruct Hone as [H1 H2].
  apply Z.eqb_eq in H1. apply Nat.eqb_eq in H2, H3. subst m.
  destruct held as [| first rest]; cbn; [discriminate |].
  unfold Resumable.removeFile.
  rewrite (proj2 Hwf _ _ first Hheld) by (apply elem_of_cons; now left).
  rewrite Hheld. cbn. rewrite String.eqb_refl. cbn.
  intros Ha.
  set (r1 := Resumable.set_files r
               (<[fileCategory := rest]> (Resumable.files r))) in *.
  assert (Hwf1 : well_filed r1).
  { apply well_filed_insert; [exact Hwf |]. apply Forall_forall.
    intros f Hf. apply (proj2 Hwf _ _ f Hheld). apply elem_of_cons. now right. }
  assert (Hheld1 : Resumable.files r1 !! fileCategory = Some rest)
    by apply lookup_insert_eq.
  destruct (Hadmit r1 rest Hwf1 Hheld1 Ha) as [W L].
  split; [exact W |].
  destruct (admitFiles_spec r1 r' fileList fileCategory log ret rest Ha
              Hheld1) as (validated & l1 & news & Hv & _).
  destruct (validateFiles_sublist _ _ _ _ _ Hv) as [_ Hin].
  pose proof (length_getFiles_insert r fileCategory (first :: rest) rest
                (proj1 Hwf) Hin Hheld) as E.
  fold r1 in E. cbn [length] in E. lia.
Qed.

(** ** The constructor *)

Lemma declare_categories_shape (cats : list string) :
  ∀ (m : gmap string (list ResumableFile.t)) (dedup : list string),
    NoDup dedup →
    (∀ c, m !! c = if decide (c ∈ dedup) then Some [] else None) →
    let r := Resumable.declare_categories cats m dedup dedup in
    r.1.2 = r.2
    ∧ NoDup r.2
    ∧ (∀ c, r.1.1 !! c = if decide (c ∈ r.2) then Some [] else None)
    ∧ (∀ c, c ∈ r.2 ↔ c ∈ dedup ∨ c ∈ cats ∧ inherited c = false)
    ∧ ∃ ks, r.2 = dedup ++ ks ∧ ks `sublist_of` cats.
Proof.
  induction cats as [| c cats IH]; intros m dedup Hnd Hm; cbn zeta.
  - cbn. repeat apply conj; auto.
    + intros c. split; [now left | intros [H | [H _]]; [exact H | inversion H]].
    + exists []. split; [now rewrite app_nil_r | constructor].
  - cbn [Resumable.declare_categories].
    assert (Hskip :
      (m !! c ≠ None ∨ inherited c = true) →
      let r := Resumable.declare_categories cats m dedup dedup in
      r.1.2 = r.2
      ∧ NoDup r.2
      ∧ (∀ x, r.1.1 !! x = if decide (x ∈ r.2) then Some [] else None)
      ∧ (∀ x, x ∈ r.2 ↔ x ∈ dedup ∨ x ∈ c :: cats ∧ inherited x = false)
      ∧ ∃ ks, r.2 = dedup ++ ks ∧ ks `sublist_of` c :: cats).
    { intros Hc. specialize (IH m dedup Hnd Hm). cbn zeta in *.
      destruct (Resumable.declare_categories cats m dedup dedup)
        as [[m' u'] d']. cbn [fst snd] in *.
      destruct IH as (I1 & I2 & I3 & I4 & ks & I5 & I6).
      repeat apply conj; auto.
      * intros x. rewrite I4. split.
        -- intros [H | [H Hx]]; [now left |]. right. split; [| exact Hx].
           apply elem_of_cons. now right.
        -- intros [H | [H Hx]]; [now left |]. apply elem_of_cons in H.
           destruct H as [-> | H]; [| right; now split].
           destruct Hc as [Hc | Hc]; [| congruence].
           left. rewrite Hm in Hc. destruct (decide (c ∈ dedup));
             [assumption | contradiction].
      * exists ks. split; [exact I5 | now apply sublist_cons]. }
    destruct (m !! c) as [fs |] eqn:Hc; [apply Hskip; now left |].
    destruct (inherited c) eqn:Hi; [apply Hskip; now right |]. clear Hskip.
    assert (Hnin : c ∉ dedup).
    { intros Hin. rewrite Hm, decide_True in Hc by exact Hin.
      discriminate Hc. }
    specialize (IH (<[c := []]> m) (dedup ++ [c])). cbn zeta in IH.
    destruct (Resumable.declare_categories cats (<[c := []]> m)
                (dedup ++ [c]) (dedup ++ [c])) as [[m' u'] d'].
    cbn [fst snd] in *.
    destruct IH as (I1 & I2 & I3 & I4 & ks & I5 & I6).
    + apply NoDup_app. split; [exact Hnd |]. split; [| apply NoDup_singleton].
      intros x Hx Hin. apply list_elem_of_singleton in Hin. now subst x.
    + intros x. destruct (decide (c = x)) as [-> | Hne].
      * rewrite lookup_insert_eq, decide_True; [reflexivity |].
        apply elem_of_app. right. now apply list_elem_of_singleton.
      * rewrite lookup_insert_ne, Hm by exact Hne.
        destruct (decide (x ∈ dedup)) as [Hin | Hin'].
        -- rewrite decide_True; [reflexivity |]. apply elem_of_app. now left.
        -- rewrite decide_False; [reflexivity |]. intros Hin.
           apply elem_of_app in Hin. destruct Hin as [Hin | Hin];
             [contradiction |].
           apply list_elem_of_singleton in Hin. now subst x.
    + repeat apply conj; auto.
      * intros x. rewrite I4, elem_of_app, list_elem_of_singleton,
          elem_of_cons. split.
        -- intros [[H | ->] | H];
             [now left | right; split; [now left | exact Hi] | right].
           split; [right |]; apply H.
        -- intros [H | [[-> | H] Hx]]; [left; now left | left; now right |].
           right. now split.
      * exists (c :: ks). split; [now rewrite I5, <- app_assoc |].
        now apply sublist_skip.
Qed.

Lemma newResumable_shape (o : Resumable.ResumableConfiguration) :
  match Resumable.newResumable o with
  | Returns r =>
      NoDup (Resumable.fileCategories r)
      ∧ Resumable.uncompletedFileCategories r = Resumable.fileCategories r
      ∧ (∀ c, Resumable.files r !! c
              = if decide (c ∈ Resumable.fileCategories r)
                then Some [] else None)
      ∧ (∀ c, c ∈ Resumable.fileCategories r
              ↔ c ∈ requested_categories o ∧ inherited c = false)
      ∧ Resumable.fileCategories r `sublist_of` requested_categories o
  | Throws =>
      Resumable.cfg_defaultFileCategory o = None
      ∧ Resumable.cfg_fileCategories o = []
  | Diverges => False
  end.
Proof.
  unfold Resumable.newResumable, requested_categories.
  assert (Hshape : ∀ cats,
    let r := Resumable.declare_categories cats ∅ [] [] in
    r.1.2 = r.2 ∧ NoDup r.2
    ∧ (∀ c, r.1.1 !! c = if decide (c ∈ r.2) then Some [] else None)
    ∧ (∀ c, c ∈ r.2 ↔ c ∈ cats ∧ inherited c = false)
    ∧ r.2 `sublist_of` cats).
  { intros cats.
    pose proof (declare_categories_shape cats ∅ [] (NoDup_nil_2)) as H.
    cbn zeta in *.
    destruct H as (H1 & H2 & H3 & H4 & ks & H5 & H6).
    - intros c. rewrite lookup_empty, decide_False; [reflexivity |].
      apply not_elem_of_nil.
    - repeat apply conj; auto.
      + intros c. rewrite H4. split; [intros [H | H]; [inversion H | exact H] |].
        now right.
      + now rewrite H5. }
  destruct (Resumable.cfg_defaultFileCategory o) as [d |].
  - destruct (Resumable.includes (Resumable.cfg_fileCategories o) d) eqn:Hin;
      cbn [mbind result_bind].
    + specialize (Hshape (Resumable.cfg_fileCategories o)). cbn zeta in Hshape.
      destruct (Resumable.declare_categories _ ∅ [] []) as [[m u] dd].
      cbn [fst snd Resumable.fileCategories Resumable.files
           Resumable.uncompletedFileCategories] in *.
      destruct Hshape as (H1 & H2 & H3 & H4 & H5).
      apply includes_elem_of in Hin.
      repeat apply conj; auto.
      * intros c. rewrite H4, elem_of_app, list_elem_of_singleton.
        split; [intros [H Hc]; split; [now left | exact Hc] |].
        intros [[H | ->] Hc]; split; assumption.
      * now apply sublist_inserts_r.
    + specialize (Hshape (Resumable.cfg_fileCategories o ++ [d])).
      cbn zeta in Hshape.
      destruct (Resumable.declare_categories _ ∅ [] []) as [[m u] dd].
      cbn [fst snd Resumable.fileCategories Resumable.files
           Resumable.uncompletedFileCategories] in *.
      destruct Hshape as (H1 & H2 & H3 & H4 & H5).
      repeat apply conj; auto.
  - destruct (length (Resumable.cfg_fileCategories o) =? 0)%nat eqn:Hlen;
      cbn [mbind result_bind].
    + split; [reflexivity |]. apply Nat.eqb_eq in Hlen.
      now apply nil_length_inv.
    + specialize (Hshape (Resumable.cfg_fileCategories o)). cbn zeta in Hshape.
      destruct (Resumable.declare_categories _ ∅ [] []) as [[m u] dd].
      cbn [fst snd Resumable.fileCategories Resumable.files
           Resumable.uncompletedFileCategories] in *.
      destruct Hshape as (H1 & H2 & H3 & H4 & H5).
      rewrite app_nil_r. repeat apply conj; auto.
Qed.

Lemma gather_empty (cats : list string)
    (m : gmap string (list ResumableFile.t)) :
  (∀ c, c ∈ cats → default [] (m !! c) = []) → gather cats m = [].
Proof.
  unfold gather. induction cats as [| c cats IH]; intros H; [reflexivity |].
  rewrite fmap_cons. cbn [concat].
  rewrite H by (apply elem_of_cons; now left).
  apply IH. intros x Hx. apply H. apply elem_of_cons. now right.
Qed.

Lemma newResumable_well_filed (o : Resumable.ResumableConfiguration)
    (r : Resumable.t) :
  Resumable.newResumable o = Returns r →
  well_filed r ∧ Resumable.getFilesOfAllCategories r = [].
Proof.
  intros H. pose proof (newResumable_shape o) as S. rewrite H in S.
  destruct S as (S1 & _ & S3 & _). split; [split; [exact S1 |] |].
  - intros c fs f Hc Hf. rewrite S3 in Hc.
    destruct (decide _); [| discriminate Hc]. injection Hc as <-.
    inversion Hf.
  - apply (gather_empty (Resumable.fileCategories r) (Resumable.files r)).
    intros c Hc. now rewrite S3, decide_True by exact Hc.
Qed.


Lemma maxFiles_never_exceeded_witness :
  ∃ r r' log ret,
    Resumable.newResumable (configuration (Some 2)) = Returns r
    ∧ Resumable.appendFilesFromFileList r
        [a_file 1 "a.mp4" 10; a_file 2 "b.mp4" 20] "default"
      = Returns (r', log, ret)
    ∧ well_filed r'
    ∧ Z.of_nat (length (Resumable.getFilesOfAllCategories r'))
      ≤ Z.max 2 (Z.of_nat (length (Resumable.getFilesOfAllCategories r))).
Proof.
  destruct (Resumable.newResumable (configuration (Some 2)))
    as [r | |] eqn:Hr; try discriminate Hr.
  pose proof (proj1 (newResumable_well_filed _ r Hr)) as Hwf.
  assert (Hm : Resumable.maxFiles r = Some 2)
    by (vm_compute in Hr; injection Hr as <-; reflexivity).
  destruct (Resumable.appendFilesFromFileList r
              [a_file 1 "a.mp4" 10; a_file 2 "b.mp4" 20] "default")
    as [[[r' log] ret] | |] eqn:Ha;
    [| vm_compute in Hr; injection Hr as <-; vm_compute in Ha;
       discriminate Ha ..].
  exists r, r', log, ret. split; [reflexivity |]. split; [exact Ha |].
  exact (maxFiles_never_exceeded r r' _ "default" 2 log ret Hwf Hm Ha).
Defined.

(** ** Removing and finding files *)

Lemma findIndex_spec {A : Type} (p : A → bool) (l : list A) :
  match Resumable.findIndex p l with
  | Some i =>
      ∃ l1 g l2, l = l1 ++ g :: l2 ∧ length l1 = i ∧ p g = true
                 ∧ Forall (λ x, p x = false) l1
  | None => Forall (λ x, p x = false) l
  end.
Proof.
  induction l as [| x l IH]; [constructor |].
  cbn [Resumable.findIndex]. destruct (p x) eqn:Hp.
  - exists [], x, l. repeat apply conj; auto.
  - destruct (Resumable.findIndex p l) as [i |]; cbn.
    + destruct IH as (l1 & g & l2 & -> & <- & Hg & Hl1).
      exists (x :: l1), g, l2. repeat apply conj; auto.
    + now constructor.
Qed.

Lemma no_match_identifiers (fs : list ResumableFile.t) (id : string) :
  Forall (λ g, String.eqb (ResumableFile._uniqueIdentifier g) id = false) fs
  ↔ id ∉ file_identifiers fs.
Proof.
  unfold file_identifiers. rewrite Forall_forall, list_elem_of_fmap. split.
  - intros H (g & -> & Hg). specialize (H g Hg).
    now rewrite String.eqb_refl in H.
  - intros H g Hg. apply String.eqb_neq. intros E. apply H. now exists g.
Qed.

(** X16.  [removeFile] throws for a file whose category has no entry.
    Otherwise it takes out of the category of the file the first file held
    there with the identifier of the file, and nothing else: a category
    that holds no such file is left as it is, the other categories and the
    categories still to complete are never touched, and when the
    identifiers held were pairwise distinct none with that identifier is
    left. *)
Theorem removeFile_spec (r : Resumable.t) (f : ResumableFile.t) :
  match Resumable.files r !! ResumableFile._fileCategory f with
  | None => Resumable.removeFile r f = Throws
  | Some fs =>
      ∃ r' fs',
        Resumable.removeFile r f = Returns r'
        ∧ Resumable.files r'
          = <[ResumableFile._fileCategory f := fs']> (Resumable.files r)
        ∧ Resumable.fileCategories r' = Resumable.fileCategories r
        ∧ Resumable.uncompletedFileCategories r'
          = Resumable.uncompletedFileCategories r
        ∧ (ResumableFile._uniqueIdentifier f ∉ file_identifiers fs →
           fs' = fs)
        ∧ (ResumableFile._uniqueIdentifier f ∈ file_identifiers fs →
           ∃ l1 g l2,
             fs = l1 ++ g :: l2 ∧ fs' = l1 ++ l2
             ∧ ResumableFile._uniqueIdentifier g
               = ResumableFile._uniqueIdentifier f
             ∧ ResumableFile._uniqueIdentifier f ∉ file_identifiers l1)
        ∧ (NoDup (file_identifiers fs) →
           ResumableFile._uniqueIdentifier f ∉ file_identifiers fs')
  end.
Proof.
  unfold Resumable.removeFile.
  destruct (Resumable.files r !! ResumableFile._fileCategory f)
    as [fs |] eqn:Hfs; [| reflexivity].
  cbn [mbind result_bind defined].
  pose proof (findIndex_spec
                (λ g, String.eqb (ResumableFile._uniqueIdentifier g)
                                 (ResumableFile._uniqueIdentifier f)) fs) as H.
  destruct (Resumable.findIndex _ fs) as [i |].
  - destruct H as (l1 & g & l2 & -> & <- & Hg & Hl1).
    apply String.eqb_eq in Hg. apply no_match_identifiers in Hl1.
    eexists _, (l1 ++ l2). split; [reflexivity |].
    rewrite delete_middle. repeat apply conj; try reflexivity.
    + intros Hn. exfalso. apply Hn. unfold file_identifiers.
      rewrite fmap_app, fmap_cons, Hg. apply elem_of_app. right.
      apply elem_of_cons. now left.
    + intros _. exists l1, g, l2. auto.
    + unfold file_identifiers in *.
      rewrite !fmap_app, fmap_cons, Hg. intros Hnd.
      apply NoDup_app in Hnd. destruct Hnd as (_ & Hdis & Hnd).
      apply NoDup_cons in Hnd. destruct Hnd as [Hnd _].
      rewrite not_elem_of_app. split; assumption.
  - apply no_match_identifiers in H.
    exists r, fs. split; [reflexivity |].
    rewrite insert_id by exact Hfs. repeat apply conj; try reflexivity.
    + intros Hin. contradiction.
    + intros _. exact H.
Qed.

Lemma elem_of_gather (cats : list string)
    (m : gmap string (list ResumableFile.t)) (c : string)
    (fs : list ResumableFile.t) (f : ResumableFile.t) :
  c ∈ cats → m !! c = Some fs → f ∈ fs → f ∈ gather cats m.
Proof.
  unfold gather. intros Hc Hm Hf.
  induction cats as [| d cats IH]; [inversion Hc |].
  rewrite fmap_cons. cbn [concat]. apply elem_of_app.
  apply elem_of_cons in Hc. destruct Hc as [<- | Hc].
  - left. now rewrite Hm.
  - right. now apply IH.
Qed.

Lemma removeFile_shape (r : Resumable.t) (f : ResumableFile.t) :
  match Resumable.removeFile r f with
  | Returns r1 =>
      ∃ fs fs',
        Resumable.files r !! ResumableFile._fileCategory f = Some fs
        ∧ Resumable.files r1
          = <[ResumableFile._fileCategory f := fs']> (Resumable.files r)
        ∧ Resumable.fileCategories r1 = Resumable.fileCategories r
        ∧ Resumable.fileTypes r1 = Resumable.fileTypes r
        ∧ Resumable.generateUniqueIdentifier r1
          = Resumable.generateUniqueIdentifier r
        ∧ fs' `sublist_of` fs
  | _ => True
  end.
Proof.
  unfold Resumable.removeFile.
  destruct (Resumable.files r !! ResumableFile._fileCategory f)
    as [fs |] eqn:Hfs; cbn; [| exact I].
  destruct (Resumable.findIndex _ fs) as [i |].
  - exists fs, (delete i fs). repeat apply conj; auto. apply sublist_delete.
  - exists fs, fs. rewrite insert_id by exact Hfs. repeat apply conj; auto.
Qed.

Lemma find_first {A : Type} (p : A → bool) (l : list A) (x : A) :
  x ∈ l → p x = true → ∃ g, find p l = Some g ∧ p g = true.
Proof.
  induction l as [| y l IH]; intros Hx Hp; [inversion Hx |].
  cbn [find]. destruct (p y) eqn:Hy; [now exists y |].
  apply elem_of_cons in Hx. destruct Hx as [-> | Hx]; [congruence |].
  now apply IH.
Qed.

Lemma append_admits (r r' : Resumable.t) (fileList : list Resumable.File)
    (fileCategory : string) (log : list Resumable.Signal)
    (ret : Resumable.Returned) :
  Resumable.appendFilesFromFileList r fileList fileCategory
  = Returns (r', log, ret) →
  r' = r ∧ (∀ f, Resumable.fileAdded f fileCategory ∉ log)
  ∨ ∃ r0 held,
      Resumable.admitFiles r0 fileList fileCategory = Returns (r', log, ret)
      ∧ Resumable.files r0 !! fileCategory = Some held
      ∧ Resumable.fileCategories r0 = Resumable.fileCategories r
      ∧ Resumable.fileTypes r0 = Resumable.fileTypes r
      ∧ Resumable.generateUniqueIdentifier r0
        = Resumable.generateUniqueIdentifier r
      ∧ (r0 = r
         ∨ ∃ c fs fs',
             Resumable.files r !! c = Some fs
             ∧ Resumable.files r0 = <[c := fs']> (Resumable.files r)
             ∧ fs' `sublist_of` fs).
Proof.
  destruct (Resumable.files r !! fileCategory) as [held |] eqn:Hheld.
  2: { intros Ha. left. exact (appendFiles_no_entry _ _ _ _ _ _ Hheld Ha). }
  unfold Resumable.appendFilesFromFileList. rewrite Hheld.
  rewrite bool_decide_eq_true_2 by eauto. cbn [orb negb].
  destruct (match Resumable.maxFiles r with Some m => _ | None => false end).
  2: { intros Ha. right. exists r, held. auto 10. }
  destruct (_ && _ && _).
  2: { intros [= <- <- _]. left. split; [reflexivity |].
       intros f Hf. apply elem_of_cons in Hf.
       destruct Hf as [Hf | Hf]; [discriminate Hf |].
       apply list_elem_of_singleton in Hf. discriminate Hf. }
  destruct held as [| first rest]; cbn; [discriminate |].
  pose proof (removeFile_shape r first) as Hrem.
  destruct (Resumable.removeFile r first) as [r1 | |] eqn:Hr1; cbn;
    try discriminate.
  intros Ha. right.
  destruct Hrem as (fs & fs' & Hcat & Hfiles & Hcats & Htypes & Hgen & Hsub).
  destruct (decide (ResumableFile._fileCategory first = fileCategory))
    as [E | Hne].
  - exists r1, fs'. rewrite Hfiles, E, lookup_insert_eq.
    repeat apply conj; auto. right.
    exists (ResumableFile._fileCategory first), fs, fs'. rewrite <- E. auto.
  - exists r1, (first :: rest).
    rewrite Hfiles, lookup_insert_ne by exact Hne.
    repeat apply conj; auto. right.
    exists (ResumableFile._fileCategory first), fs, fs'. auto.
Qed.

(** X17.  A file the intake reports with [fileAdded] is held afterwards by
    the category it was added to, names that category, and
    [getFromUniqueIdentifier] finds a file for its identifier. *)
Theorem added_file_is_found (r r' : Resumable.t)
    (fileList : list Resumable.File) (fileCategory : string)
    (log : list Resumable.Signal) (ret : Resumable.Returned)
    (rf : ResumableFile.t) :
  Resumable.appendFilesFromFileList r fileList fileCategory
  = Returns (r', log, ret) →
  Resumable.fileAdded rf fileCategory ∈ log →
  (∃ fs, Resumable.files r' !! fileCategory = Some fs ∧ rf ∈ fs)
  ∧ rf ∈ Resumable.getFilesOfAllCategories r'
  ∧ ResumableFile._fileCategory rf = fileCategory
  ∧ ∃ g, Resumable.getFromUniqueIdentifier r'
           (ResumableFile._uniqueIdentifier rf) = Some g
         ∧ ResumableFile._uniqueIdentifier g
           = ResumableFile._uniqueIdentifier rf.
Proof.
  intros Ha Hlog.
  destruct (append_admits r r' fileList fileCategory log ret Ha)
    as [[_ Hno] | (r0 & held & Hadm & Hheld & _)];
    [exfalso; exact (Hno rf Hlog) |].
  destruct (admitFiles_spec r0 r' fileList fileCategory log ret held Hadm
              Hheld) as (validated & l1 & news & Hv & -> & _ & Hcat & Hin).
  destruct (validateFiles_sublist _ _ _ _ _ Hv) as [_ Hc].
  specialize (Hin rf Hlog).
  assert (Hall : rf ∈ Resumable.getFilesOfAllCategories
                        (Resumable.set_files r0
                           (<[fileCategory := held ++ news]>
                              (Resumable.files r0)))).
  { apply (elem_of_gather (Resumable.fileCategories r0) _ fileCategory
             (held ++ news)); [exact Hc | apply lookup_insert_eq |].
    apply elem_of_app. now right. }
  repeat apply conj.
  - exists (held ++ news). split; [apply lookup_insert_eq |].
    apply elem_of_app. now right.
  - exact Hall.
  - rewrite Forall_forall in Hcat. now apply Hcat.
  - unfold Resumable.getFromUniqueIdentifier.
    destruct (find_first
                (λ f, String.eqb (ResumableFile._uniqueIdentifier f)
                                 (ResumableFile._uniqueIdentifier rf))
                _ rf Hall (String.eqb_refl _)) as (g & Hg & Hp).
    exists g. split; [exact Hg | now apply String.eqb_eq].
Qed.

Lemma added_file_is_found_witness :
  ∃ r r' log ret rf,
    Resumable.newResumable (configuration None) = Returns r
    ∧ Resumable.appendFilesFromFileList r [a_file 1 "a.mp4" 10] "default"
      = Returns (r', log, ret)
    ∧ Resumable.fileAdded rf "default" ∈ log
    ∧ (∃ fs, Resumable.files r' !! "default" = Some fs ∧ rf ∈ fs)
    ∧ rf ∈ Resumable.getFilesOfAllCategories r'
    ∧ ResumableFile._fileCategory rf = "default"
    ∧ ∃ g, Resumable.getFromUniqueIdentifier r'
             (ResumableFile._uniqueIdentifier rf) = Some g
           ∧ ResumableFile._uniqueIdentifier g
             = ResumableFile._uniqueIdentifier rf.
Proof.
  destruct (Resumable.newResumable (configuration None))
    as [r | |] eqn:Hr; try discriminate Hr.
  destruct (Resumable.appendFilesFromFileList r [a_file 1 "a.mp4" 10]
              "default") as [[[r' log] ret] | |] eqn:Ha.
  2, 3: vm_compute in Hr; injection Hr as <-; vm_compute in Ha;
    discriminate Ha.
  assert (Hin : ∃ rf, Resumable.fileAdded rf "default" ∈ log).
  { vm_compute in Hr. injection Hr as <-. vm_compute in Ha.
    injection Ha as _ <- _. eexists. apply elem_of_cons. left. reflexivity. }
  destruct Hin as [rf Hin].
  exists r, r', log, ret, rf. split; [reflexivity |]. split; [exact Ha |].
  split; [exact Hin |].
  exact (added_file_is_found r r' _ "default" log ret rf Ha Hin).
Defined.

(** ** The queue *)

Lemma store_files_notin (cats : list string) :
  ∀ (m : gmap string (list ResumableFile.t)) (fs : list ResumableFile.t)
    (c : string),
  c ∉ cats → Resumable.store_files cats m fs !! c = m !! c.
Proof.
  induction cats as [| d cats IH]; intros m fs c Hc; [reflexivity |].
  apply not_elem_of_cons in Hc. destruct Hc as [Hne Hc].
  cbn [Resumable.store_files]. destruct (m !! d) as [held |].
  - rewrite IH by exact Hc. now rewrite lookup_insert_ne by congruence.
  - now apply IH.
Qed.

Lemma gather_store_files (cats : list string) :
  ∀ (m : gmap string (list ResumableFile.t)) (fs : list ResumableFile.t),
  NoDup cats → length fs = length (gather cats m) →
  gather cats (Resumable.store_files cats m fs) = fs.
Proof.
  induction cats as [| c cats IH]; intros m fs Hnd Hlen.
  - cbn in Hlen. now destruct fs.
  - apply NoDup_cons in Hnd. destruct Hnd as [Hc Hnd].
    cbn [Resumable.store_files].
    unfold gather in *. rewrite fmap_cons in *. cbn [concat] in *.
    rewrite length_app in Hlen.
    destruct (m !! c) as [held |] eqn:Hm; cbn [default from_option id] in *.
    + rewrite store_files_notin, lookup_insert_eq by exact Hc.
      cbn [default from_option id].
      pose proof (gather_insert_notin cats m c (take (length held) fs) Hc)
        as E. unfold gather in E.
      rewrite IH; [apply take_drop | exact Hnd |].
      rewrite E, length_drop. lia.
    + rewrite store_files_notin, Hm by exact Hc. cbn [default from_option id].
      cbn. apply IH; [exact Hnd | exact Hlen].
Qed.

Lemma getFiles_with_files (r : Resumable.t) (fs : list ResumableFile.t) :
  NoDup (Resumable.fileCategories r) →
  length fs = length (Resumable.getFilesOfAllCategories r) →
  Resumable.getFilesOfAllCategories (Resumable.with_files r fs) = fs.
Proof.
  intros Hnd Hlen.
  exact (gather_store_files (Resumable.fileCategories r) (Resumable.files r)
           fs Hnd Hlen).
Qed.

Lemma firstFile_shape
    (step : ResumableFile.t → bool * ResumableFile.t * list FileSignal)
    (fs : list ResumableFile.t) :
  let r := Resumable.firstFile step fs in
  if r.1.1
  then ∃ before f after,
         fs = before ++ f :: after
         ∧ r.1.2 = ((λ g, (step g).1.2) <$> before) ++ (step f).1.2 :: after
         ∧ (step f).1.1 = true
         ∧ Forall (λ g, (step g).1.1 = false) before
  else r.1.2 = (λ g, (step g).1.2) <$> fs
       ∧ Forall (λ g, (step g).1.1 = false) fs.
Proof.
  induction fs as [| f fs IH]; cbn zeta.
  - cbn. split; [reflexivity | constructor].
  - cbn [Resumable.firstFile].
    destruct (step f) as [[b f1] l1] eqn:Hstep.
    destruct b.
    + cbn [fst snd]. exists [], f, fs. rewrite Hstep.
      repeat apply conj; auto.
    + cbn zeta in IH.
      destruct (Resumable.firstFile step fs) as [[b' rest'] l2].
      cbn [fst snd] in *. destruct b'.
      * destruct IH as (before & g & after & -> & -> & Hg & Hb).
        exists (f :: before), g, after. rewrite fmap_cons, Hstep.
        repeat apply conj; auto. constructor; [now rewrite Hstep | exact Hb].
      * destruct IH as [-> Hb]. rewrite fmap_cons, Hstep.
        split; [reflexivity |]. constructor; [now rewrite Hstep | exact Hb].
Qed.

Lemma statuses_of_app (l k : list ResumableFile.t) :
  statuses_of (l ++ k) = statuses_of l ++ statuses_of k.
Proof. unfold statuses_of. now rewrite fmap_app, concat_app. Qed.

Lemma statuses_of_cons (f : ResumableFile.t) (l : list ResumableFile.t) :
  statuses_of (f :: l) = statuses f ++ statuses_of l.
Proof. reflexivity. Qed.

Lemma statuses_of_unchanged
    (step : ResumableFile.t → bool * ResumableFile.t * list FileSignal)
    (fs : list ResumableFile.t) :
  Forall (λ g, statuses (step g).1.2 = statuses g) fs →
  statuses_of ((λ g, (step g).1.2) <$> fs) = statuses_of fs.
Proof.
  induction 1 as [| f fs Hf _ IH]; [reflexivity |].
  now rewrite fmap_cons, !statuses_of_cons, Hf, IH.
Qed.

Lemma one_sent_middle (a b l l' : list ResumableChunkStatus) :
  one_sent l l' → one_sent (a ++ l ++ b) (a ++ l' ++ b).
Proof.
  intros (l1 & l2 & -> & ->). exists (a ++ l1), (l2 ++ b).
  now rewrite <- !app_assoc.
Qed.

Lemma first_sent_middle (a b l l' : list ResumableChunkStatus) :
  PENDING ∉ a → first_sent l l' → first_sent (a ++ l ++ b) (a ++ l' ++ b).
Proof.
  intros Ha (l1 & l2 & -> & -> & Hl1). exists (a ++ l1), (l2 ++ b).
  rewrite <- !app_assoc. repeat apply conj; auto.
  rewrite not_elem_of_app. now split.
Qed.

Lemma first_sent_one_sent (l l' : list ResumableChunkStatus) :
  first_sent l l' → one_sent l l'.
Proof. intros (l1 & l2 & H1 & H2 & _). now exists l1, l2. Qed.

Lemma one_sent_pending (l l' : list ResumableChunkStatus) :
  one_sent l l' → PENDING ∈ l.
Proof.
  intros (l1 & l2 & -> & _). apply elem_of_app. right.
  apply elem_of_cons. now left.
Qed.

Lemma upload_step (o : TransportOptions) (f : ResumableFile.t) :
  let r := ResumableFile.upload o f in
  ResumableFile.isPaused r.1.2 = ResumableFile.isPaused f
  ∧ length (ResumableFile._chunks r.1.2) = length (ResumableFile._chunks f)
  ∧ if r.1.1 then first_sent (statuses f) (statuses r.1.2)
    else statuses r.1.2 = statuses f
         ∧ (ResumableFile.isPaused f = false → PENDING ∉ statuses f).
Proof.
  cbn zeta. unfold ResumableFile.upload, statuses.
  destruct (ResumableFile.isPaused f) eqn:Hp.
  - cbn. rewrite Hp. repeat apply conj; auto. discriminate.
  - pose proof (upload_loop_spec o (ResumableFile._chunks f)) as H.
    cbn zeta in H.
    destruct (ResumableFile.upload_loop o (ResumableFile._chunks f))
      as [[b cs] log].
    cbn [fst snd ResumableFile._chunks ResumableFile.set_chunks
         ResumableFile.isPaused] in *.
    split; [exact Hp |]. destruct b.
    + split; [| exact H]. destruct H as (l1 & l2 & E1 & E2 & _).
      apply (f_equal length) in E1, E2.
      rewrite length_fmap, length_app in E1, E2. cbn in E1, E2. lia.
    + destruct H as [E Hno]. split; [| auto].
      apply (f_equal length) in E. now rewrite !length_fmap in E.
Qed.

Lemma sendFirstOrLast_step (o : TransportOptions) (f : ResumableFile.t) :
  let r := Resumable.sendFirstOrLast o f in
  ResumableFile.isPaused r.1.2 = ResumableFile.isPaused f
  ∧ if r.1.1 then one_sent (statuses f) (statuses r.1.2)
    else statuses r.1.2 = statuses f.
Proof.
  cbn zeta. unfold Resumable.sendFirstOrLast, statuses.
  destruct (ResumableFile._chunks f) as [| c rest] eqn:Hcs.
  { cbn. now rewrite Hcs. }
  pose proof (status_of_read c) as Hread.
  pose proof (status_keeps c) as (_ & _ & _ & Hp & Hm & _).
  assert (Hst : status_of c = (status c).1.1) by reflexivity.
  destruct (status c) as [[st c1] l1]. cbn [fst snd] in *.
  destruct (ResumableFile.is_PENDING st) eqn:Hpend.
  - destruct st; try discriminate Hpend.
    destruct (status_PENDING_flags c Hst) as [Hp0 Hm0].
    pose proof (send_uploading o c1 (eq_trans Hp Hp0) (eq_trans Hm Hm0))
      as Hup.
    destruct (send o c1) as [c2 l2]. cbn [fst snd] in *.
    split; [reflexivity |].
    exists [], (status_of <$> rest). cbn. now rewrite Hst, Hup.
  - destruct (last rest) as [d |] eqn:Hlast.
    2: { cbn. now rewrite Hread. }
    apply last_Some in Hlast. destruct Hlast as [rest0 ->].
    rewrite length_app. cbn [length].
    replace (pred (length rest0 + 1)) with (length rest0 + 0)%nat by lia.
    pose proof (status_of_read d) as Hreadd.
    pose proof (status_keeps d) as (_ & _ & _ & Hpd & Hmd & _).
    assert (Hstd : status_of d = (status d).1.1) by reflexivity.
    destruct (status d) as [[st' d1] l3]. cbn [fst snd] in *.
    destruct (ResumableFile.is_PENDING st') eqn:Hpend'.
    + destruct st'; try discriminate Hpend'.
      destruct (status_PENDING_flags d Hstd) as [Hp0 Hm0].
      pose proof (send_uploading o d1 (eq_trans Hpd Hp0) (eq_trans Hmd Hm0))
        as Hup.
      destruct (send o d1) as [d2 l4]. cbn [fst snd] in *.
      split; [reflexivity |].
      rewrite insert_app_r. cbn.
      exists (status_of c :: (status_of <$> rest0)), [].
      rewrite !fmap_app. cbn. now rewrite Hread, Hstd, Hup.
    + cbn. rewrite insert_app_r. cbn.
      rewrite !fmap_app. cbn. now rewrite Hread, Hreadd.
Qed.

Lemma firstFile_upload (o : TransportOptions) (fs : list ResumableFile.t) :
  Forall (λ f, ResumableFile.isPaused f = false) fs →
  let r := Resumable.firstFile (ResumableFile.upload o) fs in
  length r.1.2 = length fs
  ∧ Forall (λ f, ResumableFile.isPaused f = false) r.1.2
  ∧ if r.1.1 then first_sent (statuses_of fs) (statuses_of r.1.2)
    else statuses_of r.1.2 = statuses_of fs ∧ PENDING ∉ statuses_of fs.
Proof.
  intros Hp. pose proof (firstFile_shape (ResumableFile.upload o) fs) as H.
  cbn zeta in *.
  assert (Hkeep : ∀ l, Forall (λ f, ResumableFile.isPaused f = false) l →
            Forall (λ f, ResumableFile.isPaused f = false)
                   ((λ g, (ResumableFile.upload o g).1.2) <$> l)).
  { intros l Hl. apply Forall_fmap. eapply Forall_impl; [exact Hl |].
    intros f Hf. cbn. now rewrite (proj1 (upload_step o f)). }
  assert (Hsame : ∀ l, Forall (λ f, ResumableFile.isPaused f = false) l →
            Forall (λ g, (ResumableFile.upload o g).1.1 = false) l →
            statuses_of ((λ g, (ResumableFile.upload o g).1.2) <$> l)
            = statuses_of l ∧ PENDING ∉ statuses_of l).
  { induction l as [| f l IH]; intros Hl Hb.
    - split; [reflexivity | apply not_elem_of_nil].
    - apply Forall_cons in Hl, Hb. destruct Hl as [Hf Hl], Hb as [Hbf Hb].
      destruct (IH Hl Hb) as [E Hno].
      pose proof (upload_step o f) as (_ & _ & Hu). cbn zeta in Hu.
      rewrite Hbf in Hu. destruct Hu as [Eu Hnu].
      rewrite fmap_cons, !statuses_of_cons, Eu, E.
      split; [reflexivity |]. rewrite not_elem_of_app. auto. }
  destruct (Resumable.firstFile (ResumableFile.upload o) fs)
    as [[b fs'] log]. cbn [fst snd] in *. destruct b.
  - destruct H as (before & f & after & -> & -> & Hf & Hb).
    apply Forall_app in Hp. destruct Hp as [Hpb Hpa].
    apply Forall_cons in Hpa. destruct Hpa as [Hpf Hpa].
    destruct (Hsame before Hpb Hb) as [E Hno].
    pose proof (upload_step o f) as (Hpf' & _ & Hu). cbn zeta in Hu.
    rewrite Hf in Hu.
    repeat apply conj.
    + rewrite !length_app, length_fmap. reflexivity.
    + apply Forall_app. split; [now apply Hkeep |].
      constructor; [congruence | exact Hpa].
    + rewrite !statuses_of_app, !statuses_of_cons, E.
      now apply first_sent_middle.
  - destruct H as [-> Hb]. destruct (Hsame fs Hp Hb) as [E Hno].
    repeat apply conj; auto. now rewrite length_fmap.
Qed.

Lemma firstFile_sendFirstOrLast (o : TransportOptions)
    (fs : list ResumableFile.t) :
  Forall (λ f, ResumableFile.isPaused f = false) fs →
  let r := Resumable.firstFile (Resumable.sendFirstOrLast o) fs in
  length r.1.2 = length fs
  ∧ Forall (λ f, ResumableFile.isPaused f = false) r.1.2
  ∧ if r.1.1 then one_sent (statuses_of fs) (statuses_of r.1.2)
    else statuses_of r.1.2 = statuses_of fs.
Proof.
  intros Hp.
  pose proof (firstFile_shape (Resumable.sendFirstOrLast o) fs) as H.
  cbn zeta in *.
  assert (Hkeep : ∀ l, Forall (λ f, ResumableFile.isPaused f = false) l →
            Forall (λ f, ResumableFile.isPaused f = false)
                   ((λ g, (Resumable.sendFirstOrLast o g).1.2) <$> l)).
  { intros l Hl. apply Forall_fmap. eapply Forall_impl; [exact Hl |].
    intros f Hf. cbn. now rewrite (proj1 (sendFirstOrLast_step o f)). }
  assert (Hsame : ∀ l,
            Forall (λ g, (Resumable.sendFirstOrLast o g).1.1 = false) l →
            statuses_of ((λ g, (Resumable.sendFirstOrLast o g).1.2) <$> l)
            = statuses_of l).
  { intros l Hb. apply statuses_of_unchanged.
    eapply Forall_impl; [exact Hb |]. intros f Hf.
    pose proof (sendFirstOrLast_step o f) as [_ Hs]. cbn zeta in Hs.
    now rewrite Hf in Hs. }
  destruct (Resumable.firstFile (Resumable.sendFirstOrLast o) fs)
    as [[b fs'] log]. cbn [fst snd] in *. destruct b.
  - destruct H as (before & f & after & -> & -> & Hf & Hb).
    apply Forall_app in Hp. destruct Hp as [Hpb Hpa].
    apply Forall_cons in Hpa. destruct Hpa as [Hpf Hpa].
    pose proof (sendFirstOrLast_step o f) as (Hpf' & Hs). cbn zeta in Hs.
    rewrite Hf in Hs.
    repeat apply conj.
    + rewrite !length_app, length_fmap. reflexivity.
    + apply Forall_app. split; [now apply Hkeep |].
      constructor; [congruence | exact Hpa].
    + rewrite !statuses_of_app, !statuses_of_cons, (Hsame before Hb).
      now apply one_sent_middle.
  - destruct H as [-> Hb].
    repeat apply conj; auto. now rewrite length_fmap.
Qed.

Lemma uploadNextChunk_files_spec (o : Resumable.QueueOptions)
    (fs : list ResumableFile.t) :
  Forall (λ f, ResumableFile.isPaused f = false) fs →
  let fs' := (Resumable.uploadNextChunk_files o fs).1 in
  length fs' = length fs
  ∧ Forall (λ f, ResumableFile.isPaused f = false) fs'
  ∧ (PENDING ∈ statuses_of fs → one_sent (statuses_of fs) (statuses_of fs'))
  ∧ (PENDING ∉ statuses_of fs → statuses_of fs' = statuses_of fs)
  ∧ (Resumable.prioritizeFirstAndLastChunk o = false →
     PENDING ∈ statuses_of fs →
     first_sent (statuses_of fs) (statuses_of fs')).
Proof.
  intros Hp. cbn zeta. unfold Resumable.uploadNextChunk_files.
  destruct (Resumable.prioritizeFirstAndLastChunk o).
  - pose proof (firstFile_sendFirstOrLast (Resumable.transport o) fs Hp)
      as H1. cbn zeta in H1.
    destruct (Resumable.firstFile (Resumable.sendFirstOrLast _) fs)
      as [[b fs1] l1]. cbn [fst snd] in *.
    destruct H1 as (L1 & P1 & S1). destruct b.
    + cbn [fst]. split; [exact L1 |]. split; [exact P1 |].
      split; [intros _; exact S1 |]. split; [| discriminate].
      intros Hno. exfalso. apply Hno. exact (one_sent_pending _ _ S1).
    + pose proof (firstFile_upload (Resumable.transport o) fs1 P1) as H2.
      cbn zeta in H2.
      destruct (Resumable.firstFile (ResumableFile.upload _) fs1)
        as [[b2 fs2] l2]. cbn [fst snd] in *.
      destruct H2 as (L2 & P2 & S2). rewrite S1 in S2.
      split; [congruence |]. split; [exact P2 |].
      split; [| split; [| discriminate]].
      * intros Hin. destruct b2; [now apply first_sent_one_sent |].
        destruct S2 as [_ Hno]. contradiction.
      * intros Hno. destruct b2; [| exact (proj1 S2)].
        exfalso. apply Hno.
        exact (one_sent_pending _ _ (first_sent_one_sent _ _ S2)).
  - pose proof (firstFile_upload (Resumable.transport o) fs Hp) as H2.
    cbn zeta in H2.
    destruct (Resumable.firstFile (ResumableFile.upload _) fs)
      as [[b2 fs2] l2]. cbn [fst snd] in *.
    destruct H2 as (L2 & P2 & S2).
    split; [exact L2 |]. split; [exact P2 |]. split; [| split].
    + intros Hin. destruct b2; [now apply first_sent_one_sent |].
      destruct S2 as [_ Hno]. contradiction.
    + intros Hno. destruct b2; [| exact (proj1 S2)].
      exfalso. apply Hno.
      exact (one_sent_pending _ _ (first_sent_one_sent _ _ S2)).
    + intros _ Hin. destruct b2; [exact S2 |].
      destruct S2 as [_ Hno]. contradiction.
Qed.

Lemma none_paused_Forall (r : Resumable.t) :
  none_paused r
  ↔ Forall (λ f, ResumableFile.isPaused f = false)
           (Resumable.getFilesOfAllCategories r).
Proof. unfold none_paused. now rewrite Forall_forall. Qed.

Lemma uploadNextChunk_spec (o : Resumable.QueueOptions) (r : Resumable.t) :
  NoDup (Resumable.fileCategories r) → none_paused r →
  let r' := (Resumable.uploadNextChunk o r).1 in
  Resumable.fileCategories r' = Resumable.fileCategories r
  ∧ none_paused r'
  ∧ length (Resumable.getFilesOfAllCategories r')
    = length (Resumable.getFilesOfAllCategories r)
  ∧ (PENDING ∈ all_statuses r → one_sent (all_statuses r) (all_statuses r'))
  ∧ (PENDING ∉ all_statuses r → all_statuses r' = all_statuses r)
  ∧ (Resumable.prioritizeFirstAndLastChunk o = false →
     PENDING ∈ all_statuses r →
     first_sent (all_statuses r) (all_statuses r')).
Proof.
  intros Hnd Hp. apply none_paused_Forall in Hp.
  pose proof (uploadNextChunk_files_spec o _ Hp) as H. cbn zeta in *.
  unfold Resumable.uploadNextChunk, all_statuses.
  destruct (Resumable.uploadNextChunk_files o _) as [fs' log].
  cbn [fst snd] in *. destruct H as (L & P & H1 & H2 & H3).
  rewrite (getFiles_with_files r fs' Hnd L).
  repeat apply conj; auto.
  apply none_paused_Forall. now rewrite (getFiles_with_files r fs' Hnd L).
Qed.

(** X19.  [uploadNextChunk()] sends one chunk and no more: when a chunk of
    the queue reports PENDING, one such chunk reports UPLOADING afterwards
    and every other chunk reports what it did before; when none does,
    nothing changes.  Without the priority for first and last chunks, the
    chunk sent is the first that reports PENDING, in the order of the
    categories, of the files in them and of the chunks in the files. *)
Theorem uploadNextChunk_sends_one (o : Resumable.QueueOptions)
    (r : Resumable.t) :
  NoDup (Resumable.fileCategories r) → none_paused r →
  let r' := (Resumable.uploadNextChunk o r).1 in
  (PENDING ∈ all_statuses r → one_sent (all_statuses r) (all_statuses r'))
  ∧ (PENDING ∉ all_statuses r → all_statuses r' = all_statuses r)
  ∧ (Resumable.prioritizeFirstAndLastChunk o = false →
     PENDING ∈ all_statuses r →
     first_sent (all_statuses r) (all_statuses r'))
  ∧ length (Resumable.getFilesOfAllCategories r')
    = length (Resumable.getFilesOfAllCategories r).
Proof.
  intros Hnd Hp.
  pose proof (uploadNextChunk_spec o r Hnd Hp) as (_ & _ & L & H1 & H2 & H3).
  cbn zeta in *. auto.
Qed.

Lemma uploadNextChunk_sends_one_witness :
  ∃ r,
    queue_with_one_file = Returns r
    ∧ one_sent (all_statuses r)
               (all_statuses (Resumable.uploadNextChunk default_queue r).1)
    ∧ first_sent (all_statuses r)
                 (all_statuses (Resumable.uploadNextChunk default_queue r).1).
Proof.
  destruct queue_with_one_file as [r | |] eqn:Hr; try discriminate Hr.
  vm_compute in Hr. injection Hr as <-.
  eexists. split; [reflexivity |].
  match goal with
  | |- one_sent (all_statuses ?r) _ ∧ _ =>
      assert (Hnd : NoDup (Resumable.fileCategories r))
        by (apply (bool_decide_unpack _); vm_compute; exact I);
      assert (Hp : none_paused r)
        by (intros f Hf; vm_compute in Hf;
            apply list_elem_of_singleton in Hf; subst f; reflexivity);
      assert (Hin : PENDING ∈ all_statuses r)
        by (vm_compute; apply elem_of_cons; now left);
      destruct (uploadNextChunk_sends_one default_queue r Hnd Hp)
        as (H1 & _ & H3 & _)
  end.
  split; [exact (H1 Hin) | exact (H3 eq_refl Hin)].
Defined.

(** ** Starting, pausing and resuming the queue *)

Lemma count_app (p : ResumableChunkStatus → bool)
    (l k : list ResumableChunkStatus) :
  count p (l ++ k) = (count p l + count p k)%nat.
Proof. unfold count. now rewrite filter_app, length_app. Qed.

Lemma one_sent_count (l l' : list ResumableChunkStatus) :
  one_sent l l' →
  count ResumableFile.is_UPLOADING l' = S (count ResumableFile.is_UPLOADING l)
  ∧ count ResumableFile.is_PENDING l = S (count ResumableFile.is_PENDING l').
Proof.
  intros (l1 & l2 & -> & ->). rewrite !count_app.
  change (PENDING :: l2) with ([PENDING] ++ l2).
  change (UPLOADING :: l2) with ([UPLOADING] ++ l2).
  rewrite !count_app.
  change (count ResumableFile.is_UPLOADING [PENDING]) with 0%nat.
  change (count ResumableFile.is_UPLOADING [UPLOADING]) with 1%nat.
  change (count ResumableFile.is_PENDING [PENDING]) with 1%nat.
  change (count ResumableFile.is_PENDING [UPLOADING]) with 0%nat.
  lia.
Qed.

Lemma count_elem_of (p : ResumableChunkStatus → bool)
    (l : list ResumableChunkStatus) :
  (0 < count p l)%nat ↔ ∃ st, st ∈ l ∧ p st = true.
Proof.
  unfold count. split.
  - intros H. destruct (filter _ l) as [| st k] eqn:E; [cbn in H; lia |].
    assert (Hin : st ∈ filter (λ st, p st = true) l)
      by (rewrite E; apply elem_of_cons; now left).
    apply list_elem_of_filter in Hin. exists st. tauto.
  - intros (st & Hin & Hp).
    assert (Hf : st ∈ filter (λ st, p st = true) l)
      by (apply list_elem_of_filter; now split).
    destruct (filter _ l); [inversion Hf | cbn; lia].
Qed.

Lemma count_PENDING (l : list ResumableChunkStatus) :
  (0 < count ResumableFile.is_PENDING l)%nat ↔ PENDING ∈ l.
Proof.
  rewrite count_elem_of. split.
  - intros (st & Hin & Hp). now destruct st.
  - intros Hin. now exists PENDING.
Qed.

Lemma count_UPLOADING (l : list ResumableChunkStatus) :
  (0 < count ResumableFile.is_UPLOADING l)%nat ↔ UPLOADING ∈ l.
Proof.
  rewrite count_elem_of. split.
  - intros (st & Hin & Hp). now destruct st.
  - intros Hin. now exists UPLOADING.
Qed.

Lemma uploadNextChunks_spec (o : Resumable.QueueOptions) (turns : nat) :
  ∀ r : Resumable.t,
  NoDup (Resumable.fileCategories r) → none_paused r →
  let r' := (Resumable.uploadNextChunks o turns r).1 in
  let sent := Nat.min turns (count ResumableFile.is_PENDING (all_statuses r)) in
  count ResumableFile.is_UPLOADING (all_statuses r')
  = (count ResumableFile.is_UPLOADING (all_statuses r) + sent)%nat
  ∧ (count ResumableFile.is_PENDING (all_statuses r') + sent
     = count ResumableFile.is_PENDING (all_statuses r))%nat
  ∧ length (all_statuses r') = length (all_statuses r).
Proof.
  induction turns as [| n IH]; intros r Hnd Hp; cbn zeta.
  - cbn. repeat split; lia.
  - cbn [Resumable.uploadNextChunks].
    pose proof (uploadNextChunk_spec o r Hnd Hp) as (C & P & _ & H1 & H2 & _).
    cbn zeta in *.
    destruct (Resumable.uploadNextChunk o r) as [r1 l1]. cbn [fst snd] in *.
    rewrite <- C in Hnd. specialize (IH r1 Hnd P). cbn zeta in IH.
    destruct (Resumable.uploadNextChunks o n r1) as [r2 l2].
    cbn [fst snd] in *. destruct IH as (I1 & I2 & I3).
    destruct (count ResumableFile.is_PENDING (all_statuses r)) as [| k] eqn:Ek.
    + assert (Hno : PENDING ∉ all_statuses r).
      { rewrite <- count_PENDING. lia. }
      rewrite (H2 Hno) in *. rewrite Ek in *.
      rewrite Nat.min_0_r in *. repeat split; lia.
    + assert (Hin : PENDING ∈ all_statuses r).
      { rewrite <- count_PENDING. lia. }
      destruct (one_sent_count _ _ (H1 Hin)) as [U E].
      assert (L : length (all_statuses r1) = length (all_statuses r)).
      { destruct (H1 Hin) as (a & b & -> & ->). rewrite !length_app.
        reflexivity. }
      rewrite U in I1. rewrite Ek in E. injection E as E. rewrite <- E in *.
      rewrite <- Nat.succ_min_distr. repeat split; lia.
Qed.

Lemma firstFile_isUploading (fs : list ResumableFile.t) :
  let r := Resumable.firstFile
             (λ f, let '(b, f1) := ResumableFile.isUploading f in
                   (b, f1, [])) fs in
  length r.1.2 = length fs
  ∧ Forall2 (λ f f', ResumableFile.isPaused f' = ResumableFile.isPaused f
                     ∧ statuses f' = statuses f) fs r.1.2
  ∧ (r.1.1 = true ↔ UPLOADING ∈ statuses_of fs).
Proof.
  induction fs as [| f fs IH]; cbn zeta.
  - cbn. repeat split; try constructor; try discriminate.
    intros H. inversion H.
  - cbn [Resumable.firstFile].
    pose proof (some_status_spec ResumableFile.is_UPLOADING
                  (ResumableFile._chunks f)) as [Hb Hs].
    unfold ResumableFile.isUploading.
    destruct (ResumableFile.some_status _ _) as [b cs]. cbn [fst snd] in *.
    assert (Hf : ResumableFile.isPaused (ResumableFile.set_chunks f cs)
                 = ResumableFile.isPaused f
                 ∧ statuses (ResumableFile.set_chunks f cs) = statuses f)
      by (split; [reflexivity | exact Hs]).
    assert (Hu : b = true ↔ UPLOADING ∈ statuses f).
    { rewrite Hb. unfold statuses. rewrite existsb_elem_of. split.
      - intros (st & Hin & Hst). now destruct st.
      - intros Hin. now exists UPLOADING. }
    rewrite statuses_of_cons, elem_of_app.
    destruct b.
    + cbn [fst snd]. repeat split; auto.
      * constructor; [exact Hf |]. apply Forall2_same_length_lookup.
        split; [reflexivity |]. intros i x y Hx Hy.
        rewrite Hx in Hy. injection Hy as <-. now split.
      * intros _. left. now apply Hu.
    + cbn zeta in IH.
      destruct (Resumable.firstFile _ fs) as [[b' rest'] l2].
      cbn [fst snd] in *. destruct IH as (L & F & B).
      repeat split; auto.
      * cbn [length]. now rewrite L.
      * intros Hb'. right. now apply B.
      * intros [Hin | Hin]; [apply Hu in Hin; discriminate Hin | now apply B].
Qed.

Lemma Forall2_statuses (fs fs' : list ResumableFile.t) :
  Forall2 (λ f f', ResumableFile.isPaused f' = ResumableFile.isPaused f
                   ∧ statuses f' = statuses f) fs fs' →
  statuses_of fs' = statuses_of fs
  ∧ (Forall (λ f, ResumableFile.isPaused f = false) fs →
     Forall (λ f, ResumableFile.isPaused f = false) fs').
Proof.
  induction 1 as [| f f' fs fs' [Hp Hs] _ [IH1 IH2]].
  - split; [reflexivity | auto].
  - rewrite !statuses_of_cons, Hs, IH1. split; [reflexivity |].
    intros Hall. apply Forall_cons in Hall. destruct Hall as [Hf Hall].
    constructor; [congruence | auto].
Qed.

Lemma upload_spec (o : Resumable.QueueOptions) (r : Resumable.t) :
  NoDup (Resumable.fileCategories r) → none_paused r →
  let r' := (Resumable.upload o r).1 in
  let log := (Resumable.upload o r).2 in
  (UPLOADING ∈ all_statuses r → log = [] ∧ all_statuses r' = all_statuses r)
  ∧ (UPLOADING ∉ all_statuses r →
     head log = Some Resumable.uploadStart
     ∧ count ResumableFile.is_UPLOADING (all_statuses r')
       = Nat.min (Z.to_nat (Resumable.simultaneousUploads o))
                 (count ResumableFile.is_PENDING (all_statuses r))
     ∧ (count ResumableFile.is_PENDING (all_statuses r')
        + count ResumableFile.is_UPLOADING (all_statuses r')
        = count ResumableFile.is_PENDING (all_statuses r))%nat
     ∧ length (all_statuses r') = length (all_statuses r)).
Proof.
  intros Hnd Hp. cbn zeta. unfold Resumable.upload, Resumable.isUploading.
  pose proof (firstFile_isUploading (Resumable.getFilesOfAllCategories r))
    as (L & F & B). cbn zeta in *.
  destruct (Resumable.firstFile _ (Resumable.getFilesOfAllCategories r))
    as [[b fs] l0]. cbn [fst snd] in *.
  destruct (Forall2_statuses _ _ F) as [S P].
  apply none_paused_Forall in Hp. specialize (P Hp).
  assert (G : Resumable.getFilesOfAllCategories (Resumable.with_files r fs)
              = fs) by (apply getFiles_with_files; auto).
  assert (A : all_statuses (Resumable.with_files r fs) = all_statuses r).
  { unfold all_statuses. now rewrite G. }
  destruct b.
  - cbn [fst snd]. split; [auto |].
    intros Hno. exfalso. apply Hno. now apply B.
  - assert (Hno : UPLOADING ∉ all_statuses r).
    { intros Hin. apply B in Hin. discriminate Hin. }
    split; [intros Hin; contradiction | intros _].
    assert (P1 : none_paused (Resumable.with_files r fs)).
    { apply none_paused_Forall. now rewrite G. }
    pose proof (uploadNextChunks_spec o
                  (Z.to_nat (Resumable.simultaneousUploads o))
                  (Resumable.with_files r fs) Hnd P1) as H.
    cbn zeta in H.
    destruct (Resumable.uploadNextChunks o _ _) as [r2 log].
    cbn [fst snd] in *. rewrite A in H. destruct H as (H1 & H2 & H3).
    assert (U0 : count ResumableFile.is_UPLOADING (all_statuses r) = 0%nat).
    { destruct (count ResumableFile.is_UPLOADING (all_statuses r)) eqn:E;
        [reflexivity |].
      exfalso. apply Hno. apply count_UPLOADING. lia. }
    rewrite U0 in H1. repeat split; auto; lia.
Qed.

(** X20.  [upload()] does nothing, and fires nothing, while some chunk of
    the queue reports UPLOADING.  Otherwise it fires [uploadStart] and
    sends as many chunks as [simultaneousUploads] allows and as report
    PENDING: afterwards that many chunks report UPLOADING, as many fewer
    report PENDING, and no chunk is added or lost. *)
Theorem upload_fills_the_queue (o : Resumable.QueueOptions)
    (r : Resumable.t) :
  NoDup (Resumable.fileCategories r) → none_paused r →
  let r' := (Resumable.upload o r).1 in
  let log := (Resumable.upload o r).2 in
  (UPLOADING ∈ all_statuses r → log = [] ∧ all_statuses r' = all_statuses r)
  ∧ (UPLOADING ∉ all_statuses r →
     head log = Some Resumable.uploadStart
     ∧ count ResumableFile.is_UPLOADING (all_statuses r')
       = Nat.min (Z.to_nat (Resumable.simultaneousUploads o))
                 (count ResumableFile.is_PENDING (all_statuses r))
     ∧ (count ResumableFile.is_PENDING (all_statuses r')
        + count ResumableFile.is_UPLOADING (all_statuses r')
        = count ResumableFile.is_PENDING (all_statuses r))%nat
     ∧ length (all_statuses r') = length (all_statuses r)).
Proof. exact (upload_spec o r). Qed.

Lemma upload_fills_the_queue_witness :
  ∃ r,
    queue_with_one_file = Returns r
    ∧ head (Resumable.upload default_queue r).2 = Some Resumable.uploadStart
    ∧ count ResumableFile.is_UPLOADING
        (all_statuses (Resumable.upload default_queue r).1)
      = Nat.min (Z.to_nat 3)
                (count ResumableFile.is_PENDING (all_statuses r))
    ∧ (count ResumableFile.is_PENDING
         (all_statuses (Resumable.upload default_queue r).1)
       + count ResumableFile.is_UPLOADING
           (all_statuses (Resumable.upload default_queue r).1)
       = count ResumableFile.is_PENDING (all_statuses r))%nat
    ∧ length (all_statuses (Resumable.upload default_queue r).1)
      = length (all_statuses r).
Proof.
  destruct queue_with_one_file as [r | |] eqn:Hr; try discriminate Hr.
  vm_compute in Hr. injection Hr as <-.
  eexists. split; [reflexivity |].
  match goal with
  | |- head (Resumable.upload _ ?r).2 = _ ∧ _ =>
      assert (Hnd : NoDup (Resumable.fileCategories r))
        by (apply (bool_decide_unpack _); vm_compute; exact I);
      assert (Hp : none_paused r)
        by (intros f Hf; vm_compute in Hf;
            apply list_elem_of_singleton in Hf; subst f; reflexivity);
      assert (Hno : UPLOADING ∉ all_statuses r)
        by (vm_compute; intros Hin; apply list_elem_of_singleton in Hin;
            discriminate Hin);
      exact (proj2 (upload_fills_the_queue default_queue r Hnd Hp) Hno)
  end.
Defined.

Lemma abortFiles_spec (fs : list ResumableFile.t) :
  let r := Resumable.abortFiles fs in
  length r.1 = length fs
  ∧ statuses_of r.1 = paused_statuses fs
  ∧ (Forall (λ f, ResumableFile.isPaused f = false) fs →
     Forall (λ f, ResumableFile.isPaused f = false) r.1).
Proof.
  induction fs as [| f fs IH]; cbn zeta.
  - cbn. auto.
  - cbn [Resumable.abortFiles]. unfold ResumableFile.abort.
    pose proof (abort_loop_spec (ResumableFile._chunks f)) as (H1 & _).
    destruct (ResumableFile.abort_loop (ResumableFile._chunks f))
      as [[cs l] k]. cbn [fst snd] in H1.
    cbn zeta in IH. destruct (Resumable.abortFiles fs) as [rest' l2].
    cbn [fst snd] in *. destruct IH as (L & S & P).
    repeat apply conj.
    + cbn [length]. now rewrite L.
    + rewrite statuses_of_cons. unfold paused_statuses in *.
      rewrite fmap_cons. cbn [concat]. rewrite <- S. unfold statuses.
      cbn [ResumableFile._chunks ResumableFile.set_chunks]. now rewrite H1.
    + intros Hall. apply Forall_cons in Hall. destruct Hall as [Hf Hall].
      constructor; [exact Hf | auto].
Qed.

Lemma count_singleton (p : ResumableChunkStatus → bool)
    (st : ResumableChunkStatus) :
  count p [st] = if p st then 1%nat else 0%nat.
Proof.
  unfold count. rewrite filter_cons. destruct (p st).
  - now rewrite decide_True.
  - now rewrite decide_False.
Qed.

Lemma after_abort_counts (cs : list ResumableChunk.t) :
  (∀ c, c ∈ cs → pendingRetry c = false) →
  count ResumableFile.is_UPLOADING (after_abort <$> cs) = 0%nat
  ∧ count ResumableFile.is_PENDING (after_abort <$> cs)
    = (count ResumableFile.is_PENDING (status_of <$> cs)
       + count ResumableFile.is_UPLOADING (status_of <$> cs))%nat.
Proof.
  induction cs as [| c cs IH]; intros H; [now split |].
  destruct IH as [I1 I2].
  { intros d Hd. apply H. apply elem_of_cons. now right. }
  rewrite !fmap_cons.
  change (?x :: ?l) with ([x] ++ l). rewrite !count_app, I1, I2.
  unfold after_abort. rewrite (H c) by (apply elem_of_cons; now left).
  rewrite !count_singleton.
  destruct (status_of c);
    cbn [ResumableFile.is_UPLOADING ResumableFile.is_PENDING andb negb];
    split; lia.
Qed.

Lemma paused_counts (fs : list ResumableFile.t) :
  (∀ f c, f ∈ fs → c ∈ ResumableFile._chunks f → pendingRetry c = false) →
  count ResumableFile.is_UPLOADING (paused_statuses fs) = 0%nat
  ∧ count ResumableFile.is_PENDING (paused_statuses fs)
    = (count ResumableFile.is_PENDING (statuses_of fs)
       + count ResumableFile.is_UPLOADING (statuses_of fs))%nat.
Proof.
  induction fs as [| f fs IH]; intros H; [now split |].
  destruct IH as [I1 I2].
  { intros g c Hg. apply H. apply elem_of_cons. now right. }
  destruct (after_abort_counts (ResumableFile._chunks f)) as [A1 A2].
  { intros c. apply H. apply elem_of_cons. now left. }
  unfold paused_statuses in *. rewrite fmap_cons. cbn [concat].
  rewrite statuses_of_cons, !count_app, I1, I2, A1, A2.
  unfold statuses. split; lia.
Qed.

(** X21.  [pause()] aborts every file and then fires [pause]: every chunk
    whose request was on its way reports PENDING again.  When no retry
    waits for its timer, no chunk reports UPLOADING after it, and a
    following [upload()] sends as many chunks as [simultaneousUploads]
    allows, of those that were pending or on their way.  A chunk whose
    retry waits for its timer still reports UPLOADING, and a following
    [upload()] then starts nothing. *)
Theorem pause_then_upload_resumes (o : Resumable.QueueOptions)
    (r : Resumable.t) :
  NoDup (Resumable.fileCategories r) → none_paused r →
  let r1 := (Resumable.pause r).1 in
  all_statuses r1 = paused_statuses (Resumable.getFilesOfAllCategories r)
  ∧ last (Resumable.pause r).2 = Some Resumable.pause_
  ∧ (no_retry_pending r →
     (UPLOADING ∉ all_statuses r1)
     ∧ count ResumableFile.is_UPLOADING
         (all_statuses (Resumable.upload o r1).1)
       = Nat.min (Z.to_nat (Resumable.simultaneousUploads o))
                 (count ResumableFile.is_PENDING (all_statuses r)
                  + count ResumableFile.is_UPLOADING (all_statuses r)))
  ∧ (∀ f c, f ∈ Resumable.getFilesOfAllCategories r →
            c ∈ ResumableFile._chunks f → pendingRetry c = true →
            (Resumable.upload o r1).2 = []
            ∧ all_statuses (Resumable.upload o r1).1 = all_statuses r1).
Proof.
  intros Hnd Hp. cbn zeta. unfold Resumable.pause.
  pose proof (abortFiles_spec (Resumable.getFilesOfAllCategories r))
    as (L & S & P). cbn zeta in *.
  destruct (Resumable.abortFiles (Resumable.getFilesOfAllCategories r))
    as [fs log]. cbn [fst snd] in *.
  assert (G : Resumable.getFilesOfAllCategories (Resumable.with_files r fs)
              = fs) by (apply getFiles_with_files; auto).
  assert (A : all_statuses (Resumable.with_files r fs)
              = paused_statuses (Resumable.getFilesOfAllCategories r)).
  { unfold all_statuses. now rewrite G. }
  assert (P1 : none_paused (Resumable.with_files r fs)).
  { apply none_paused_Forall. rewrite G. apply P.
    now apply none_paused_Forall. }
  pose proof (upload_spec o (Resumable.with_files r fs) Hnd P1) as [U1 U2].
  cbn zeta in *.
  split; [exact A |]. split; [apply last_snoc |]. split.
  - intros Hno. destruct (paused_counts _ Hno) as [C1 C2].
    assert (Hnu : UPLOADING ∉ all_statuses (Resumable.with_files r fs)).
    { rewrite A, <- count_UPLOADING. lia. }
    split; [exact Hnu |].
    destruct (U2 Hnu) as (_ & E & _). rewrite E, A, C2. reflexivity.
  - intros f c Hf Hc Hpr. apply U1. rewrite A.
    unfold paused_statuses. clear - Hf Hc Hpr.
    induction (Resumable.getFilesOfAllCategories r) as [| g fs IH];
      [inversion Hf |].
    rewrite fmap_cons. cbn [concat]. apply elem_of_app.
    apply elem_of_cons in Hf. destruct Hf as [<- | Hf]; [left | right; auto].
    apply list_elem_of_fmap. exists c. split; [| exact Hc].
    unfold after_abort, status_of, status. now rewrite Hpr.
Qed.

Lemma pause_then_upload_resumes_witness :
  ∃ r,
    queue_with_one_file = Returns r
    ∧ all_statuses (Resumable.pause (Resumable.upload default_queue r).1).1
      = paused_statuses
          (Resumable.getFilesOfAllCategories
             (Resumable.upload default_queue r).1)
    ∧ last (Resumable.pause (Resumable.upload default_queue r).1).2
      = Some Resumable.pause_.
Proof.
  destruct queue_with_one_file as [r | |] eqn:Hr; try discriminate Hr.
  vm_compute in Hr. injection Hr as <-.
  eexists. split; [reflexivity |].
  match goal with
  | |- all_statuses (Resumable.pause ?r).1 = _ ∧ _ =>
      assert (Hnd : NoDup (Resumable.fileCategories r))
        by (apply (bool_decide_unpack _); vm_compute; exact I);
      assert (Hp : none_paused r)
        by (intros f Hf; vm_compute in Hf;
            apply list_elem_of_singleton in Hf; subst f; reflexivity);
      destruct (pause_then_upload_resumes default_queue r Hnd Hp)
        as (H1 & H2 & _)
  end.
  split; [exact H1 | exact H2].
Defined.

(** ** Listeners *)

(** X22.  A callback registered with [on] for an event other than
    [__proto__] is called by every [fire] of the same event name, compared
    without regard to case, after the callbacks registered for that name
    before it and with the arguments of [fire]; a callback registered for
    ['*'] is called by every [fire], after all callbacks of the event and
    the earlier callbacks of ['*'], with the lowered event name before the
    arguments.  Registering a callback changes no other call:
    [fire('*')] calls the callbacks of ['*'] twice.  A callback registered
    for [__proto__] is not stored among the handlers and no [fire] calls
    it. *)
Theorem fire_after_on {Callback Arg : Type}
    (reg : ResumableEventHandler.t (Callback := Callback))
    (event fired : string) (callback : Callback) (args : list Arg) :
  (toLowerCase event ≠ "__proto__" →
   ResumableEventHandler.fire
     (ResumableEventHandler.on reg event callback) fired args
   = ResumableEventHandler.executeEventCallback reg (toLowerCase fired)
       (ResumableEventHandler.argument <$> args)
     ++ (if String.eqb (toLowerCase event) (toLowerCase fired)
         then [(callback, ResumableEventHandler.argument <$> args)]
         else [])
     ++ ResumableEventHandler.executeEventCallback reg "*"
          (ResumableEventHandler.eventName (toLowerCase fired)
           :: (ResumableEventHandler.argument <$> args))
     ++ (if String.eqb (toLowerCase event) "*"
         then [(callback,
                ResumableEventHandler.eventName (toLowerCase fired)
                :: (ResumableEventHandler.argument <$> args))]
         else []))
  ∧ (toLowerCase event = "__proto__" → reg !! "__proto__" = None →
     ResumableEventHandler.on reg event callback = reg
     ∧ ResumableEventHandler.fire
         (ResumableEventHandler.on reg event callback) fired args
       = ResumableEventHandler.fire reg fired args).
Proof.
  unfold ResumableEventHandler.fire, ResumableEventHandler.on,
    ResumableEventHandler.executeEventCallback, ResumableEventHandler.t in *.
  cbv zeta. split.
  2: { intros -> ->. cbn. split; reflexivity. }
  intros Hne.
  assert (Hlook : ∀ k,
    match reg !! toLowerCase event with
    | Some _ =>
        alter (λ callbacks, callbacks ++ [callback]) (toLowerCase event) reg
    | None =>
        if String.eqb (toLowerCase event) "__proto__" then reg
        else alter (λ callbacks, callbacks ++ [callback]) (toLowerCase event)
               (<[toLowerCase event := []]> reg)
    end !! k
    = if String.eqb (toLowerCase event) k
      then Some (default [] (reg !! k) ++ [callback])
      else reg !! k).
  { intros k. apply String.eqb_neq in Hne. rewrite Hne.
    destruct (String.eqb_spec (toLowerCase event) k) as [<- | Hk].
    - destruct (reg !! toLowerCase event) as [l |] eqn:E.
      + rewrite (lookup_alter_eq). now rewrite E.
      + rewrite (lookup_alter_eq).
        now rewrite (lookup_insert_eq).
    - destruct (reg !! toLowerCase event).
      + now rewrite (lookup_alter_ne) by exact Hk.
      + rewrite (lookup_alter_ne) by exact Hk.
        now rewrite (lookup_insert_ne) by exact Hk. }
  rewrite !Hlook.
  destruct (String.eqb (toLowerCase event) (toLowerCase fired));
    destruct (String.eqb (toLowerCase event) "*");
    destruct (reg !! toLowerCase fired) as [l1 |];
    destruct (reg !! "*") as [l2 |];
    cbn [default from_option id]; rewrite ?fmap_app, ?app_nil_r;
    cbn [fmap list_fmap app]; rewrite <- ?app_assoc; reflexivity.
Qed.

Lemma fire_after_on_witness :
  ResumableEventHandler.fire (Arg := nat)
    (ResumableEventHandler.on
       (ResumableEventHandler.on ResumableEventHandler.newResumableEventHandler
          "fileSuccess" 1%nat)
       "FileSuccess" 2%nat)
    "filesuccess" [7%nat]
  = [(1%nat, [ResumableEventHandler.argument 7%nat]);
     (2%nat, [ResumableEventHandler.argument 7%nat])]
  ∧ ResumableEventHandler.fire (Arg := nat)
      (ResumableEventHandler.on ResumableEventHandler.newResumableEventHandler
         "__proto__" 1%nat)
      "__proto__" [7%nat]
    = [].
Proof.
  split.
  - rewrite (proj1 (fire_after_on
                      (ResumableEventHandler.on
                         ResumableEventHandler.newResumableEventHandler
                         "fileSuccess" 1%nat)
                      "FileSuccess" "filesuccess" 2%nat [7%nat]));
      [vm_compute; reflexivity |].
    vm_compute. intros H. discriminate H.
  - rewrite (proj2 (proj2 (fire_after_on
                             ResumableEventHandler.newResumableEventHandler
                             "__proto__" "__proto__" 1%nat [7%nat])
                      eq_refl eq_refl)).
    vm_compute. reflexivity.
Defined.

(** ** Resuming an upload *)

Lemma first_sent_unique (a rest l' : list ResumableChunkStatus) :
  PENDING ∉ a → first_sent (a ++ PENDING :: rest) l' →
  l' = a ++ UPLOADING :: rest.
Proof.
  intros Ha (l1 & l2 & E1 & -> & Hl1).
  revert l1 E1 Hl1. induction a as [| x a IH]; intros l1 E1 Hl1.
  - destruct l1 as [| y l1]; [now injection E1 as -> |].
    injection E1 as <- _. exfalso. apply Hl1. apply elem_of_cons. now left.
  - apply not_elem_of_cons in Ha. destruct Ha as [Hx Ha].
    destruct l1 as [| y l1]; [injection E1 as -> _; congruence |].
    injection E1 as <- E1. apply not_elem_of_cons in Hl1.
    cbn. f_equal. exact (IH Ha l1 E1 (proj2 Hl1)).
Qed.

Lemma fmap_constant {A B : Type} (g : A → B) (x : B) (l : list A) :
  (∀ c, c ∈ l → g c = x) → g <$> l = replicate (length l) x.
Proof.
  induction l as [| c l IH]; intros H; [reflexivity |].
  rewrite fmap_cons, (H c) by (apply elem_of_cons; now left).
  cbn. f_equal. apply IH. intros d Hd. apply H. apply elem_of_cons. now right.
Qed.

Lemma status_of_marked (c : ResumableChunk.t) :
  status_of c = PENDING → status_of (markComplete c) = SUCCESS.
Proof.
  intros H. destruct (status_PENDING_flags c H) as [Hp _].
  unfold status_of, status. cbn. now rewrite Hp.
Qed.

(** X23.  Resuming: for a file that is not paused and whose chunks all
    report PENDING, [markChunksCompleted(n)] with [n] below the number of
    chunks makes the first [n] chunks report SUCCESS, and the [upload()]
    that follows sends the chunk of index [n], no chunk before it.  With
    [n] not below the number of chunks nothing is marked, and [upload()]
    sends the first chunk. *)
Theorem resume_after_markChunksCompleted (o : TransportOptions)
    (f : ResumableFile.t) (n : nat) :
  ResumableFile.isPaused f = false →
  (∀ c, c ∈ ResumableFile._chunks f → status_of c = PENDING) →
  let k := length (ResumableFile._chunks f) in
  let f1 := ResumableFile.markChunksCompleted f n in
  ((n < k)%nat →
   statuses f1 = replicate n SUCCESS ++ replicate (k - n) PENDING
   ∧ (ResumableFile.upload o f1).1.1 = true
   ∧ statuses (ResumableFile.upload o f1).1.2
     = replicate n SUCCESS ++ UPLOADING :: replicate (k - n - 1) PENDING)
  ∧ ((k ≤ n)%nat → (0 < k)%nat →
     statuses (ResumableFile.upload o f1).1.2
     = UPLOADING :: replicate (k - 1) PENDING).
Proof.
  intros Hp Hall. cbn zeta.
  assert (Hsent : ∀ g a m,
            ResumableFile.isPaused g = false →
            PENDING ∉ a →
            statuses g = a ++ PENDING :: replicate m PENDING →
            (ResumableFile.upload o g).1.1 = true
            ∧ statuses (ResumableFile.upload o g).1.2
              = a ++ UPLOADING :: replicate m PENDING).
  { intros g a m Hg Ha Hs.
    pose proof (upload_step o g) as (_ & _ & Hu). cbn zeta in Hu.
    destruct ((ResumableFile.upload o g).1.1).
    - split; [reflexivity |]. rewrite Hs in Hu.
      exact (first_sent_unique a _ _ Ha Hu).
    - exfalso. destruct Hu as [_ Hno]. apply (Hno Hg). rewrite Hs.
      apply elem_of_app. right. apply elem_of_cons. now left. }
  split.
  - intros Hn. unfold ResumableFile.markChunksCompleted.
    destruct (Nat.leb_spec (length (ResumableFile._chunks f)) n); [lia |].
    rewrite mark_prefix by lia.
    set (f1 := ResumableFile.set_chunks f _).
    assert (Hs : statuses f1
                 = replicate n SUCCESS
                   ++ replicate (length (ResumableFile._chunks f) - n) PENDING).
    { unfold f1, statuses. cbn [ResumableFile._chunks ResumableFile.set_chunks].
      rewrite fmap_app, <- list_fmap_compose.
      rewrite (fmap_constant (status_of ∘ markComplete) SUCCESS).
      2: { intros c Hc. apply status_of_marked, Hall.
           exact (elem_of_sublist _ _ _ Hc (sublist_take _ _)). }
      rewrite (fmap_constant status_of PENDING).
      2: { intros c Hc. apply Hall.
           exact (elem_of_sublist _ _ _ Hc (sublist_drop _ _)). }
      rewrite length_take, length_drop. f_equal. f_equal. lia. }
    split; [exact Hs |].
    apply (Hsent f1 (replicate n SUCCESS)
             (length (ResumableFile._chunks f) - n - 1)%nat).
    + exact Hp.
    + intros Hin. apply elem_of_replicate in Hin. destruct Hin as [Hin _].
      discriminate Hin.
    + rewrite Hs. f_equal.
      destruct (length (ResumableFile._chunks f) - n)%nat as [| m] eqn:E;
        [lia |].
      cbn. now rewrite Nat.sub_0_r.
  - intros Hk Hpos. unfold ResumableFile.markChunksCompleted.
    destruct (Nat.leb_spec (length (ResumableFile._chunks f)) n); [| lia].
    apply (Hsent f [] (length (ResumableFile._chunks f) - 1)%nat);
      [exact Hp | apply not_elem_of_nil |].
    unfold statuses. rewrite (fmap_constant status_of PENDING) by exact Hall.
    destruct (length (ResumableFile._chunks f)) as [| m]; [lia |].
    cbn. now rewrite Nat.sub_0_r.
Qed.

Lemma resume_after_markChunksCompleted_witness :
  statuses (ResumableFile.markChunksCompleted (bootstrapped 10 small_chunks) 2)
  = replicate 2 SUCCESS ++ replicate (3 - 2) PENDING
  ∧ (ResumableFile.upload default_transport
       (ResumableFile.markChunksCompleted (bootstrapped 10 small_chunks) 2)).1.1
    = true
  ∧ statuses
      (ResumableFile.upload default_transport
         (ResumableFile.markChunksCompleted (bootstrapped 10 small_chunks) 2)).1.2
    = replicate 2 SUCCESS ++ UPLOADING :: replicate (3 - 2 - 1) PENDING.
Proof.
  apply (proj1 (resume_after_markChunksCompleted default_transport
                  (bootstrapped 10 small_chunks) 2 eq_refl
                  ltac:(intros c Hc; vm_compute in Hc;
                        repeat (apply elem_of_cons in Hc;
                                destruct Hc as [-> | Hc]; [reflexivity |]);
                        inversion Hc))).
  vm_compute. lia.
Defined.

(** ** The progress of the queue *)

Lemma foldl_sizes (fs : list ResumableFile.t) (a : Z) :
  foldl (λ accumulator f, accumulator + ResumableFile._size f) a fs
  = a + total_size fs.
Proof.
  revert a. induction fs as [| f fs IH]; intros a; cbn; [lia |].
  rewrite IH. unfold total_size. lia.
Qed.

Lemma total_size_nonneg (fs : list ResumableFile.t) :
  (∀ f, f ∈ fs → 0 ≤ ResumableFile._size f) → 0 ≤ total_size fs.
Proof.
  induction fs as [| f fs IH]; intros H; [cbn; lia |].
  pose proof (H f ltac:(apply elem_of_cons; now left)).
  pose proof (IH (λ g Hg, H g ltac:(apply elem_of_cons; now right))).
  unfold total_size in *. cbn [foldr]. lia.
Qed.

Lemma progress_keeps_size (f : ResumableFile.t) :
  ResumableFile._size (ResumableFile.progress f).2 = ResumableFile._size f.
Proof.
  unfold ResumableFile.progress. destruct (ResumableFile._error f);
    [reflexivity |].
  now destruct (ResumableFile.progress_loop _ _ _) as [[? ?] ?].
Qed.

Lemma totalDone_spec (fs : list ResumableFile.t) :
  (∀ f, f ∈ fs → well_sized f) →
  ∀ a : Q, (0 <= a)%Q →
  let r := Resumable.totalDone fs (Fin a) in
  length r.1 = length fs
  ∧ total_size r.1 = total_size fs
  ∧ ∃ b, r.2 = Fin b ∧ (0 <= b)%Q ∧ (b <= a + inject_Z (total_size fs))%Q.
Proof.
  induction fs as [| f fs IH]; intros H a Ha; cbn zeta.
  - cbn. repeat split. exists a. repeat split; auto.
    rewrite Qplus_0_r. apply Qle_refl.
  - cbn [Resumable.totalDone].
    destruct (H f ltac:(apply elem_of_cons; now left))
      as (Hsize & (p & Hp & Hp0 & Hp1) & Hcs).
    destruct (file_progress_bounded f p Hp Hp0 Hp1 Hcs)
      as (q & Hq & Hq0 & Hq1 & _).
    pose proof (progress_keeps_size f) as Hks.
    destruct (ResumableFile.progress f) as [v f1]. cbn [fst snd] in *.
    subst v. cbn [jmul jadd of_Z].
    assert (Hs0 : (0 <= inject_Z (ResumableFile._size f))%Q).
    { change 0%Q with (inject_Z 0). now rewrite <- Zle_Qle. }
    assert (Hm0 : (0 <= inject_Z (ResumableFile._size f) * q)%Q)
      by now apply Qmult_le_0_compat.
    assert (Hm1 : (inject_Z (ResumableFile._size f) * q
                   <= inject_Z (ResumableFile._size f))%Q) by nra.
    destruct (IH (λ g Hg, H g ltac:(apply elem_of_cons; now right))
                 (a + inject_Z (ResumableFile._size f) * q)%Q)
      as (L & T & b & Hb & Hb0 & Hb1).
    { lra. }
    cbn zeta in L, T, Hb.
    destruct (Resumable.totalDone fs _) as [rest' total].
    cbn [fst snd] in *. repeat split.
    + cbn [length]. now rewrite L.
    + cbn [total_size foldr]. unfold total_size in T. now rewrite T, Hks.
    + exists b. repeat split; auto.
      cbn [total_size foldr]. rewrite inject_Z_plus.
      unfold total_size in Hb1. lra.
Qed.

(** X24.  The progress of the queue is the part of the bytes held that has
    gone, and 0 when no bytes are held: for files of sizes that are not
    negative, with floors between 0 and 1 and chunks that hold bytes, it is
    a number between 0 and 1.  The call changes no size. *)
Theorem queue_progress_in_unit_interval (r : Resumable.t) :
  NoDup (Resumable.fileCategories r) →
  (∀ f, f ∈ Resumable.getFilesOfAllCategories r → well_sized f) →
  ∃ q, (Resumable.progress r).1 = Fin q ∧ (0 <= q)%Q ∧ (q <= 1)%Q
       ∧ (Resumable.getSize r ≤ 0 → (Resumable.progress r).1 = Fin 0)
       ∧ Resumable.getSize (Resumable.progress r).2 = Resumable.getSize r.
Proof.
  intros Hnd Hall. unfold Resumable.progress.
  destruct (totalDone_spec _ Hall 0%Q (Qle_refl 0))
    as (L & T & b & Hb & Hb0 & Hb1). cbn zeta in *.
  destruct (Resumable.totalDone (Resumable.getFilesOfAllCategories r) (Fin 0))
    as [fs done]. cbn [fst snd] in *. subst done.
  assert (G : Resumable.getFilesOfAllCategories (Resumable.with_files r fs)
              = fs) by (apply getFiles_with_files; auto).
  assert (E : Resumable.getSize r
              = total_size (Resumable.getFilesOfAllCategories r)).
  { unfold Resumable.getSize. rewrite foldl_sizes. lia. }
  assert (S : Resumable.getSize (Resumable.with_files r fs)
              = Resumable.getSize r).
  { rewrite E. unfold Resumable.getSize. rewrite G, foldl_sizes. lia. }
  rewrite S.
  destruct (Z.ltb_spec 0 (Resumable.getSize r)) as [Hpos | Hzero].
  - unfold jdiv, of_Z, Qis_zero. cbn [Qnum inject_Z].
    replace (Resumable.getSize r =? 0) with false
      by (symmetry; apply Z.eqb_neq; lia).
    assert (HT : (0 < inject_Z (Resumable.getSize r))%Q).
    { change 0%Q with (inject_Z 0). now rewrite <- Zlt_Qlt. }
    rewrite <- E in Hb1.
    exists (b / inject_Z (Resumable.getSize r))%Q.
    split; [reflexivity |]. split; [| split; [| split; [lia | reflexivity]]].
    + apply Qle_shift_div_l; [exact HT | lra].
    + apply Qle_shift_div_r; [exact HT | lra].
  - exists 0%Q. repeat split; try reflexivity; try apply Qle_refl.
    discriminate.
Qed.

Lemma queue_progress_in_unit_interval_witness :
  ∃ r,
    queue_with_one_file = Returns r
    ∧ ∃ q, (Resumable.progress r).1 = Fin q ∧ (0 <= q)%Q ∧ (q <= 1)%Q
           ∧ (Resumable.getSize r ≤ 0 → (Resumable.progress r).1 = Fin 0)
           ∧ Resumable.getSize (Resumable.progress r).2 = Resumable.getSize r.
Proof.
  destruct queue_with_one_file as [r | |] eqn:Hr; try discriminate Hr.
  vm_compute in Hr. injection Hr as <-.
  eexists. split; [reflexivity |].
  match goal with
  | |- ∃ q, (Resumable.progress ?r).1 = _ ∧ _ =>
      apply (queue_progress_in_unit_interval r)
  end.
  - apply (bool_decide_unpack _). vm_compute. exact I.
  - intros f Hf. vm_compute in Hf. apply list_elem_of_singleton in Hf.
    subst f. split; [discriminate |]. split.
    + exists 0%Q. repeat split; discriminate.
    + intros c Hc. vm_compute in Hc. apply list_elem_of_singleton in Hc.
      subst c. split; discriminate.
Defined.

(** ** Helpers *)

Lemma foldl_concat {A B : Type} (g : B → list A) (l : list B) :
  ∀ acc, foldl (λ a b, a ++ g b) acc l = acc ++ concat (g <$> l).
Proof.
  induction l as [| b l IH]; intros acc; cbn.
  - now rewrite app_nil_r.
  - now rewrite IH, app_assoc.
Qed.

(** X25.  [flattenDeep] of an array is the concatenation, in order, of what
    [flattenDeep] makes of its elements: an array of values is returned as
    it is, an array inside an array counts for its elements, and arrays
    without values at any depth add nothing. *)
Theorem flattenDeep_concat {A : Type} (elements : list (Nested A)) :
  flattenDeep (array elements) = concat (flattenDeep <$> elements)
  ∧ (∀ l : list A, flattenDeep (array (value <$> l)) = l)
  ∧ (∀ l1 l2 : list (Nested A),
       flattenDeep (array (l1 ++ [array l2])) = flattenDeep (array (l1 ++ l2)))
  ∧ flattenDeep (array (array [] :: elements)) = flattenDeep (array elements).
Proof.
  assert (H : ∀ l : list (Nested A),
            flattenDeep (array l) = concat (flattenDeep <$> l)).
  { intros l. cbn [flattenDeep]. now rewrite foldl_concat. }
  repeat apply conj.
  - apply H.
  - intros l. rewrite H. induction l as [| a l IH]; [reflexivity |].
    rewrite !fmap_cons. cbn [concat flattenDeep app]. now rewrite IH.
  - intros l1 l2. rewrite !H, !fmap_app, !concat_app. cbn [fmap list_fmap concat].
    now rewrite H, app_nil_r.
  - rewrite !H, fmap_cons. reflexivity.
Qed.

(** ** Validators and file types *)

Lemma lower_idempotent (c : ascii) : lower (lower c) = lower c.
Proof.
  destruct c as [[] [] [] [] [] [] [] []]; reflexivity.
Qed.

Lemma toLowerCase_idempotent (s : string) :
  toLowerCase (toLowerCase s) = toLowerCase s.
Proof.
  unfold toLowerCase. rewrite list_ascii_of_string_of_list_ascii.
  rewrite <- list_fmap_compose. f_equal.
  apply list_fmap_ext. intros _ c _. apply lower_idempotent.
Qed.

Lemma toLowerCase_inherited (s : string) :
  inherited (toLowerCase s) = true →
  toLowerCase s = "constructor" ∨ toLowerCase s = "__proto__".
Proof.
  intros H. apply inherited_elem_of in H. unfold Object_prototype in H.
  pose proof (toLowerCase_idempotent s) as I.
  repeat (apply elem_of_cons in H; destruct H as [H | H];
          [first [now left | now right
                 | rewrite H in I; vm_compute in I; discriminate I] |]).
  inversion H.
Qed.

(** X26.  A validator registered for a file type other than [__proto__]
    decides the files with an ASCII name whose lower-cased extension is
    that file type, once they have passed the checks made before it: such
    a file is accepted when the validator says so and is turned down with
    the reason [validation] otherwise.  No other file is validated
    differently than before, so a validator registered for a file type with
    an upper-case letter is never asked.  Registering again for a file type
    replaces the validator registered before. *)
Theorem addFileValidator_spec (r : Resumable.t) (fileType_ : string)
    (validator validator0 : Resumable.ExtendedFile → string → bool)
    (fileCategory : string) (f : Resumable.ExtendedFile) :
  fileType_ ≠ "__proto__" →
  ascii_only (Resumable.name (Resumable.file f)) →
  ∃ r',
    Resumable.addFileValidator r fileType_ validator = Some r'
    ∧ (fileExtension_of f = fileType_ →
       is_Some (Resumable.files r !! fileCategory) →
       is_Some (Resumable.fileTypes r !! fileCategory) →
       already_added r fileCategory f = false →
       type_allowed r fileCategory f = true →
       min_size_ok r f = true → max_size_ok r f = true →
       Resumable.validateFile r' fileCategory f
       = Returns (validator f fileCategory,
                  if validator f fileCategory then []
                  else failure Resumable.validation fileCategory f))
    ∧ (fileExtension_of f ≠ fileType_ →
       Resumable.validateFile r' fileCategory f
       = Resumable.validateFile r fileCategory f)
    ∧ (toLowerCase fileType_ ≠ fileType_ →
       Resumable.validateFile r' fileCategory f
       = Resumable.validateFile r fileCategory f)
    ∧ (r0 ← Resumable.addFileValidator r fileType_ validator0;
       Resumable.addFileValidator r0 fileType_ validator) = Some r'.
Proof.
  intros Hproto _. unfold Resumable.addFileValidator.
  apply String.eqb_neq in Hproto. rewrite Hproto. cbn [mbind option_bind].
  eexists. split; [reflexivity |].
  assert (Hother : fileExtension_of f ≠ fileType_ →
            Resumable.validateFile
              (Resumable.set_validators r
                 (<[fileType_ := validator]> (Resumable.validators r)))
              fileCategory f
            = Resumable.validateFile r fileCategory f).
  { intros Hne. unfold Resumable.validateFile.
    cbn [Resumable.files Resumable.fileTypes Resumable.minFileSize
         Resumable.maxFileSize Resumable.validators Resumable.set_validators].
    unfold fileExtension_of in Hne.
    now rewrite lookup_insert_ne by congruence. }
  repeat apply conj.
  - intros <- [held Hheld] [types Htypes] Hadded Htype Hmin Hmax.
    unfold Resumable.validateFile, already_added, type_allowed, min_size_ok,
      max_size_ok, fileExtension_of, failure in *.
    cbn [Resumable.files Resumable.fileTypes Resumable.minFileSize
         Resumable.maxFileSize Resumable.validators Resumable.set_validators].
    rewrite Hheld, Htypes in *.
    cbn [default from_option id mbind result_bind defined] in *.
    rewrite Hadded, lookup_insert_eq.
    destruct (length types) as [| k]; cbn [Nat.eqb Nat.ltb Nat.leb orb andb] in *.
    2: rewrite Htype; cbn [negb].
    all: destruct (Resumable.minFileSize r) as [m |];
      [rewrite Z.ltb_antisym, Hmin; cbn [negb] |].
    all: destruct (Resumable.maxFileSize r) as [m' |];
      [rewrite Z.ltb_antisym, Hmax; cbn [negb] |].
    all: cbn [mbind result_bind]; now destruct (validator f fileCategory).
  - exact Hother.
  - intros Hup. apply Hother. intros E. apply Hup. rewrite <- E.
    unfold fileExtension_of. apply toLowerCase_idempotent.
  - cbn [Resumable.validators Resumable.set_validators].
    now rewrite insert_insert_eq.
Qed.

Lemma addFileValidator_spec_witness :
  ∃ r r',
    Resumable.newResumable (configuration None) = Returns r
    ∧ Resumable.addFileValidator r "mp4" (λ _ _, false) = Some r'
    ∧ Resumable.validateFile r' "default" (identified (a_file 1 "a.MP4" 10))
      = Returns (false,
                 failure Resumable.validation "default"
                   (identified (a_file 1 "a.MP4" 10)))
    ∧ Resumable.validateFile r' "default" (identified (a_file 2 "a.txt" 10))
      = Resumable.validateFile r "default" (identified (a_file 2 "a.txt" 10)).
Proof.
  destruct (Resumable.newResumable (configuration None)) as [r | |] eqn:Hr;
    try discriminate Hr.
  vm_compute in Hr. injection Hr as <-.
  match goal with
  | |- ∃ r0 r', Returns ?r = Returns r0 ∧ _ =>
      assert (Hascii : ∀ n name size,
                name = "a.MP4" ∨ name = "a.txt" →
                ascii_only (Resumable.name
                              (Resumable.file (identified (a_file n name size)))))
        by (intros n name size [-> | ->];
            apply (bool_decide_unpack _); vm_compute; exact I);
      destruct (addFileValidator_spec r "mp4" (λ _ _, false) (λ _ _, true)
                  "default" (identified (a_file 1 "a.MP4" 10)))
        as (r1 & Hadd & Hasked & _);
      [vm_compute; intros H; discriminate H | apply Hascii; now left |];
      destruct (addFileValidator_spec r "mp4" (λ _ _, false) (λ _ _, true)
                  "default" (identified (a_file 2 "a.txt" 10)))
        as (r2 & Hadd2 & _ & Hother & _);
      [vm_compute; intros H; discriminate H | apply Hascii; now right |];
      exists r, r1
  end.
  assert (r2 = r1) as -> by congruence.
  split; [reflexivity |]. split; [exact Hadd |]. split.
  - apply Hasked; try (vm_compute; reflexivity); vm_compute; eauto.
  - apply Hother. vm_compute. intros H. discriminate H.
Defined.

Lemma append_cons (c : ascii) (s t : string) :
  String c s +:+ t = String c (s +:+ t).
Proof. reflexivity. Qed.

Lemma append_empty (s : string) : EmptyString +:+ s = s.
Proof. reflexivity. Qed.

Lemma string_append_nil_r (s : string) : s +:+ EmptyString = s.
Proof.
  induction s as [| c s IH]; [reflexivity |]. now rewrite append_cons, IH.
Qed.

Lemma string_append_assoc (a b c : string) :
  (a +:+ b) +:+ c = a +:+ (b +:+ c).
Proof.
  induction a as [| x a IH]; [reflexivity |].
  now rewrite !append_cons, IH.
Qed.

Lemma last_segment_no_dot (e : string) :
  includes_char "." e = false →
  ∀ acc, last_segment acc e = acc +:+ e.
Proof.
  unfold includes_char. induction e as [| c e IH]; intros H acc.
  - cbn [last_segment]. now rewrite string_append_nil_r.
  - cbn [list_ascii_of_string existsb] in H.
    apply orb_false_iff in H. destruct H as [Hc He].
    cbn [last_segment]. rewrite Ascii.eqb_sym in Hc. rewrite Hc.
    rewrite (IH He), string_append_assoc. reflexivity.
Qed.

Lemma last_segment_extension (base e : string) :
  includes_char "." e = false →
  ∀ acc, last_segment acc (base +:+ String "." e) = e.
Proof.
  intros He. induction base as [| c base IH]; intros acc.
  - rewrite append_empty. cbn [last_segment]. cbn.
    now rewrite (last_segment_no_dot e He).
  - rewrite append_cons. cbn [last_segment].
    destruct (Ascii.eqb c "."); apply IH.
Qed.

Lemma index_star (p q : string) :
  includes_char "*" p = false →
  String.index 0 "*" (p +:+ String "*" q) = Some (String.length p).
Proof.
  unfold includes_char. induction p as [| c p IH]; intros H.
  - rewrite append_empty. cbn [String.index].
    assert (String.prefix "*" (String "*" q) = true) as ->
      by (cbn; now destruct q).
    reflexivity.
  - cbn [list_ascii_of_string existsb] in H.
    apply orb_false_iff in H. destruct H as [Hc Hp].
    rewrite append_cons.
    cbn [String.index String.prefix String.length].
    destruct (ascii_dec "*" c) as [E | _].
    { subst c. now rewrite Ascii.eqb_refl in Hc. }
    now rewrite (IH Hp).
Qed.

Lemma substring_prefix (p s : string) :
  String.substring 0 (String.length p) (p +:+ s) = p.
Proof.
  induction p as [| c p IH].
  - rewrite append_empty. now destruct s.
  - rewrite append_cons. cbn [String.length String.substring].
    now rewrite IH.
Qed.

Lemma includes_star (p q : string) :
  includes_char "*" (p +:+ String "*" q) = true.
Proof.
  unfold includes_char. induction p as [| c p IH].
  - reflexivity.
  - rewrite append_cons. cbn [list_ascii_of_string existsb].
    rewrite IH. apply orb_true_r.
Qed.

Lemma fileType_rejection (r : Resumable.t) (fileCategory : string)
    (f : Resumable.ExtendedFile) (held : list ResumableFile.t)
    (types : list string) :
  Resumable.files r !! fileCategory = Some held →
  Resumable.fileTypes r !! fileCategory = Some types →
  (Resumable.validateFile r fileCategory f
   = Returns (false, failure Resumable.fileType fileCategory f)
   ↔ already_added r fileCategory f = false
     ∧ type_allowed r fileCategory f = false).
Proof.
  intros Hheld Htypes.
  unfold Resumable.validateFile, already_added, type_allowed, fileExtension_of,
    failure, Resumable.inherited_validator.
  rewrite Hheld, Htypes. cbn [mbind result_bind defined default from_option id].
  destruct (existsb _ held).
  { split; [intros H; discriminate H | intros [H _]; discriminate H]. }
  destruct (length types) as [| k]; cbn [Nat.ltb Nat.leb Nat.eqb andb orb].
  - split; [| intros [_ H]; discriminate H].
    repeat (cbn [mbind result_bind default];
            match goal with
            | |- context [if ?c then _ else _] => destruct c
            | |- context [match ?c with Some _ => _ | None => _ end] =>
                destruct c
            end); cbn; intros H; discriminate H.
  - destruct (existsb _ types); cbn [negb].
    + split; [| intros [_ H]; discriminate H].
      repeat (cbn [mbind result_bind default];
              match goal with
              | |- context [if ?c then _ else _] => destruct c
              | |- context [match ?c with Some _ => _ | None => _ end] =>
                  destruct c
              end); cbn; intros H; discriminate H.
    + split; [now split | reflexivity].
Qed.

Lemma substring_is_prefix (p s : string) :
  String.eqb (String.substring 0 (String.length p) s) p = true
  ↔ String.prefix p s = true.
Proof.
  revert s. induction p as [| a p IH]; intros s.
  - cbn. now destruct s.
  - destruct s as [| b s]; cbn [String.length String.substring String.prefix].
    + cbn. split; discriminate.
    + cbn [String.eqb]. destruct (ascii_dec a b) as [-> | Hne].
      * rewrite Ascii.eqb_refl. apply IH.
      * assert (Ascii.eqb b a = false) as ->
          by (apply Ascii.eqb_neq; congruence).
        split; discriminate.
Qed.

Lemma star_split (s : string) :
  includes_char "*" s = true →
  ∃ p q, s = p +:+ String "*" q ∧ includes_char "*" p = false.
Proof.
  unfold includes_char. induction s as [| c s IH]; intros H.
  - discriminate H.
  - cbn [list_ascii_of_string existsb] in H.
    destruct (Ascii.eqb "*" c) eqn:E.
    + apply Ascii.eqb_eq in E. subst c. exists EmptyString, s.
      split; reflexivity.
    + cbn [orb] in H. destruct (IH H) as (p & q & -> & Hp).
      exists (String c p), q. rewrite append_cons. split; [reflexivity |].
      cbn [list_ascii_of_string existsb]. now rewrite E, Hp.
Qed.

Lemma fileTypeMatches_spec (extension mime type_ : string) :
  Resumable.fileTypeMatches extension mime type_ = true
  ↔ type_matches extension mime type_.
Proof.
  unfold Resumable.fileTypeMatches, type_matches.
  rewrite orb_true_iff, String.eqb_eq, andb_true_iff, orb_true_iff,
    andb_true_iff.
  split; (intros [H | [Hslash H]]; [now left | right; split; [exact Hslash |]]).
  - destruct H as [[Hstar Hpre] | H];
      [right | left; now apply String.eqb_eq].
    destruct (star_split type_ Hstar) as (p & q & -> & Hp).
    exists p, q. split; [reflexivity |]. split; [exact Hp |].
    unfold before_star in Hpre. rewrite (index_star p q Hp) in Hpre.
    rewrite substring_prefix in Hpre. now apply substring_is_prefix.
  - destruct H as [H | (p & q & -> & Hp & Hpre)];
      [right; now apply String.eqb_eq | left].
    split; [apply includes_star |].
    unfold before_star. rewrite (index_star p q Hp), substring_prefix.
    now apply substring_is_prefix.
Qed.

Lemma type_allowed_false (r : Resumable.t) (fileCategory : string)
    (f : Resumable.ExtendedFile) (declared : list string) :
  Resumable.fileTypes r !! fileCategory = Some declared →
  type_allowed r fileCategory f = false
  ↔ declared ≠ []
    ∧ ∀ type_, type_ ∈ declared →
        ¬ type_matches (fileExtension_of f)
            (toLowerCase (Resumable.type (Resumable.file f))) type_.
Proof.
  intros Ht. unfold type_allowed. rewrite Ht.
  cbn [default from_option id]. rewrite orb_false_iff. split.
  - intros [Hlen Hnone]. split.
    + intros ->. discriminate Hlen.
    + intros type_ Hin Hm. apply fileTypeMatches_spec in Hm.
      assert (existsb (Resumable.fileTypeMatches (fileExtension_of f)
                         (toLowerCase (Resumable.type (Resumable.file f))))
                declared = true); [| congruence].
      apply existsb_exists. exists type_.
      split; [now apply list_elem_of_In | exact Hm].
  - intros [Hne Hnone]. split.
    + destruct declared; [contradiction | reflexivity].
    + apply not_true_iff_false. intros H. apply existsb_exists in H.
      destruct H as (type_ & Hin & Hm). apply list_elem_of_In in Hin.
      apply (Hnone type_ Hin). now apply fileTypeMatches_spec.
Qed.

(** X27.  Which files the allowed file types of a category turn down.  A
    file with an ASCII name and MIME type that is not held yet is refused
    with the reason [fileType], before any other check, exactly when the
    category has allowed types and none of them matches it.  A type
    matches a file when it is the extension of its name, lower-cased; a
    type with a slash also when it is the MIME type of the file,
    lower-cased, or when it holds a star and the MIME type begins with
    what stands before the first star.  The extension is what follows the
    last dot of the name. *)
Theorem type_allowed_spec (r : Resumable.t) (fileCategory : string)
    (f : Resumable.ExtendedFile) (held : list ResumableFile.t)
    (declared : list string) :
  Resumable.files r !! fileCategory = Some held →
  Resumable.fileTypes r !! fileCategory = Some declared →
  ascii_only (Resumable.name (Resumable.file f)) →
  ascii_only (Resumable.type (Resumable.file f)) →
  (Resumable.validateFile r fileCategory f
   = Returns (false, failure Resumable.fileType fileCategory f)
   ↔ already_added r fileCategory f = false
     ∧ declared ≠ []
     ∧ ∀ type_, type_ ∈ declared →
         ¬ type_matches (fileExtension_of f)
             (toLowerCase (Resumable.type (Resumable.file f))) type_)
  ∧ (∀ base e,
       Resumable.name (Resumable.file f) = base +:+ String "." e →
       includes_char "." e = false →
       fileExtension_of f = toLowerCase e).
Proof.
  intros Hheld Htypes _ _. split.
  - rewrite (fileType_rejection r fileCategory f held declared Hheld Htypes).
    now rewrite (type_allowed_false r fileCategory f declared Htypes).
  - intros base e Hname He. unfold fileExtension_of.
    now rewrite Hname, (last_segment_extension base e He).
Qed.

Lemma type_allowed_spec_witness :
  ∃ r log,
    Resumable.files r !! "default" = Some []
    ∧ Resumable.fileTypes r !! "default" = Some ["jpg"; "image/*"]
    ∧ Resumable.validateFile r "default" (identified (a_file 1 "a.MP4" 10))
      = Returns (false,
                 failure Resumable.fileType "default"
                   (identified (a_file 1 "a.MP4" 10)))
    ∧ fileExtension_of (identified (a_file 1 "a.MP4" 10)) = "mp4"
    ∧ Resumable.validateFile r "default" (identified (a_file 2 "b.JPG" 10))
      = Returns (true, log).
Proof.
  pose (o := {| Resumable.cfg_chunk := no_options;
                Resumable.cfg_fileCategories := [];
                Resumable.cfg_defaultFileCategory := Some "default";
                Resumable.cfg_fileTypes := [".JPG"; "image/*"];
                Resumable.cfg_generateUniqueIdentifier := None;
                Resumable.cfg_maxFileSize := None;
                Resumable.cfg_maxFiles := None;
                Resumable.cfg_minFileSize := Some 1 |}).
  destruct (Resumable.newResumable o) as [r | |] eqn:Hr;
    [| vm_compute in Hr; discriminate Hr ..].
  exists r, []. vm_compute in Hr. injection Hr as <-.
  match goal with
  | |- Resumable.files ?r !! _ = _ ∧ _ =>
      destruct (type_allowed_spec r "default"
                  (identified (a_file 1 "a.MP4" 10)) [] ["jpg"; "image/*"])
        as [Hiff Hext]
  end.
  1, 2: vm_compute; reflexivity.
  1, 2: apply (bool_decide_unpack _); vm_compute; exact I.
  split; [vm_compute; reflexivity |]. split; [vm_compute; reflexivity |].
  split; [| split; [apply (Hext "a" "MP4"); reflexivity
                   | vm_compute; reflexivity]].
  apply Hiff. split; [vm_compute; reflexivity |]. split; [discriminate |].
  intros type_ Hin Hm. apply fileTypeMatches_spec in Hm.
  apply elem_of_cons in Hin. destruct Hin as [-> | Hin];
    [vm_compute in Hm; discriminate Hm |].
  apply list_elem_of_singleton in Hin. subst type_.
  vm_compute in Hm. discriminate Hm.
Defined.

(** ** A new file *)

Lemma fresh_chunk_status (size off : Z) (o : ChunkOptions) :
  status (newResumableChunk size off o)
  = (PENDING, newResumableChunk size off o, []).
Proof. reflexivity. Qed.

Lemma fresh_progress_loop (cs : list ResumableChunk.t) (error : bool) :
  (∀ c, c ∈ cs → xhr c = None ∧ pendingRetry c = false
                 ∧ isMarkedComplete c = false) →
  ResumableFile.progress_loop cs error (Fin 0) = (cs, error, Fin 0).
Proof.
  induction cs as [| c cs IH]; intros H; [reflexivity |].
  destruct (H c ltac:(apply elem_of_cons; now left)) as (Hx & Hp & Hm).
  cbn [ResumableFile.progress_loop].
  assert (Hst : status c = (PENDING, c, [])).
  { unfold status. now rewrite Hp, Hm, Hx. }
  rewrite Hst. cbn [ResumableFile.is_ERROR].
  assert (Hpr : ResumableChunk.progress c true = (Fin 0, c, [])).
  { unfold ResumableChunk.progress. now rewrite Hp, Hst. }
  rewrite Hpr. cbn [jadd].
  change (0 + 0)%Q with 0%Q.
  rewrite IH; [reflexivity |].
  intros d Hd. apply H. apply elem_of_cons. now right.
Qed.

(** X28.  A file comes out of its constructor ready to be sent: it is not in
    its error state, it has at least one chunk and every chunk reports
    PENDING, so that it is neither uploading nor complete, and its progress
    is 0.  The constructor fires [chunkingStart] first and
    [chunkingComplete] last. *)
Theorem new_file_is_pending (name : string) (size : Z)
    (webkitRelativePath uniqueIdentifier fileCategory : string)
    (o : ChunkOptions) :
  0 < default default_chunkSize (opt_chunkSize o) →
  ∃ f log,
    ResumableFile.newResumableFile name size webkitRelativePath
      uniqueIdentifier fileCategory o = Some (f, log)
    ∧ ResumableFile._error f = false
    ∧ (0 < length (ResumableFile._chunks f))%nat
    ∧ statuses f = replicate (length (ResumableFile._chunks f)) PENDING
    ∧ (ResumableFile.isUploading f).1 = false
    ∧ (ResumableFile.isComplete f).1 = false
    ∧ (ResumableFile.progress f).1 = Fin 0
    ∧ head log = Some chunkingStart
    ∧ last log = Some chunkingComplete.
Proof.
  intros HC. unfold ResumableFile.newResumableFile.
  match goal with
  | |- context [ResumableFile.bootstrap ?g] =>
      destruct (bootstrap_result g HC)
        as (f & l & Hb & Hcs & _ & _ & He & Hprev & _);
      pose proof Hb as Hlog;
      unfold ResumableFile.bootstrap, ResumableFile.abort in Hlog;
      cbn [ResumableFile._chunks ResumableFile.abort_loop] in Hlog
  end.
  rewrite Hb. cbn [mbind option_bind].
  exists f, (chunkingStart :: l). split; [reflexivity |].
  cbn [ResumableFile._size ResumableFile.opts] in Hcs.
  set (k := Z.to_nat (Z.max (ceil_quot size
                 (ResumableFile.chunkSize _)) 1)) in Hcs.
  assert (Hk : (0 < k)%nat) by (unfold k; lia).
  assert (Hfresh : ∀ c, c ∈ ResumableFile._chunks f →
            xhr c = None ∧ pendingRetry c = false
            ∧ isMarkedComplete c = false).
  { intros c Hc. rewrite Hcs in Hc. apply list_elem_of_fmap in Hc.
    destruct Hc as (i & -> & _). now repeat split. }
  assert (Hst : statuses f
                = replicate (length (ResumableFile._chunks f)) PENDING).
  { unfold statuses. apply fmap_constant. intros c Hc.
    destruct (Hfresh c Hc) as (Hx & Hp & Hm).
    unfold status_of, status. now rewrite Hp, Hm, Hx. }
  assert (Hlen : length (ResumableFile._chunks f) = k).
  { rewrite Hcs, length_fmap. apply length_seq. }
  pose proof (some_status_spec ResumableFile.is_UPLOADING
                (ResumableFile._chunks f)) as [U _].
  pose proof (some_status_spec
                (λ st, ResumableFile.is_PENDING st
                       || ResumableFile.is_UPLOADING st)
                (ResumableFile._chunks f)) as [C _].
  fold (statuses f) in U, C. rewrite Hst, Hlen in U, C.
  repeat apply conj.
  - exact He.
  - rewrite Hlen. exact Hk.
  - exact Hst.
  - unfold ResumableFile.isUploading. clear C.
    destruct (ResumableFile.some_status _ _) as [b cs]. cbn [fst] in *.
    rewrite U. clear. induction k as [| k IH]; [reflexivity | exact IH].
  - unfold ResumableFile.isComplete. clear U.
    destruct (ResumableFile.some_status _ _) as [b cs]. cbn [fst] in *.
    rewrite C. destruct k as [| k]; [lia | reflexivity].
  - unfold ResumableFile.progress. rewrite He, Hprev.
    now rewrite (fresh_progress_loop _ false Hfresh).
  - reflexivity.
  - destruct (for_turns _) as [n |]; [| discriminate Hlog].
    cbn in Hlog. injection Hlog as _ <-.
    cbn [app replicate ResumableFile.retryListeners
         ResumableFile.set_prevProgress ResumableFile.set_chunks
         ResumableFile.set_error].
    change (chunkingStart :: ?a ++ [chunkingComplete])
      with ((chunkingStart :: a) ++ [chunkingComplete]).
    apply last_snoc.
Qed.

Lemma new_file_is_pending_witness :
  ∃ f log,
    ResumableFile.newResumableFile "a.bin" 10 "" "10-abin" "default"
      small_chunks = Some (f, log)
    ∧ ResumableFile._error f = false
    ∧ (0 < length (ResumableFile._chunks f))%nat
    ∧ statuses f = replicate (length (ResumableFile._chunks f)) PENDING
    ∧ (ResumableFile.isUploading f).1 = false
    ∧ (ResumableFile.isComplete f).1 = false
    ∧ (ResumableFile.progress f).1 = Fin 0
    ∧ head log = Some chunkingStart
    ∧ last log = Some chunkingComplete.
Proof.
  apply (new_file_is_pending "a.bin" 10 "" "10-abin" "default" small_chunks).
  reflexivity.
Defined.

(** ** The progress of a chunk, bounded *)

Lemma ratio_in_unit_interval (a b : Z) :
  0 ≤ a → a ≤ b → 0 < b →
  (0 <= inject_Z a / inject_Z b)%Q ∧ (inject_Z a / inject_Z b <= 1)%Q.
Proof.
  intros Ha Hab Hb.
  assert (HB : (0 < inject_Z b)%Q)
    by (change 0%Q with (inject_Z 0); now rewrite <- Zlt_Qlt).
  assert (HA : (0 <= inject_Z a)%Q)
    by (change 0%Q with (inject_Z 0); now rewrite <- Zle_Qle).
  assert (HAB : (inject_Z a <= inject_Z b)%Q) by now rewrite <- Zle_Qle.
  split.
  - apply Qle_shift_div_l; [exact HB | lra].
  - apply Qle_shift_div_r; [exact HB | lra].
Qed.

(** X29.  The progress of a chunk is a number between 0 and 1, relative to
    the file or not, as long as the bytes counted as loaded do not exceed
    the bytes of the chunk and the chunk lies within its file. *)
Theorem chunk_progress_in_unit_interval (c : ResumableChunk.t)
    (relative : bool) :
  0 ≤ loaded c → loaded c ≤ endByte c - startByte c →
  0 < endByte c - startByte c → endByte c - startByte c ≤ fileObjSize c →
  ∃ q, (ResumableChunk.progress c relative).1.1 = Fin q
       ∧ (0 <= q)%Q ∧ (q <= 1)%Q.
Proof.
  intros HL0 HL1 Hlen Hsize. unfold ResumableChunk.progress.
  destruct (ratio_in_unit_interval (endByte c - startByte c) (fileObjSize c))
    as [F0 F1]; [lia | lia | lia |].
  destruct (ratio_in_unit_interval (loaded c) (endByte c - startByte c))
    as [R0 R1]; [lia | lia | lia |].
  assert (Hfac : ∃ x,
            (if relative
             then jdiv (of_Z (endByte c - startByte c)) (of_Z (fileObjSize c))
             else Fin 1) = Fin x ∧ (0 <= x)%Q ∧ (x <= 1)%Q).
  { destruct relative.
    - rewrite jdiv_finite by lia. eexists. split; [reflexivity |]. now split.
    - exists 1%Q. repeat split; discriminate. }
  destruct Hfac as (x & -> & X0 & X1).
  destruct (pendingRetry c).
  { exists 0%Q. repeat split; discriminate. }
  assert (Hfac2 : ∃ y,
            (if no_status_yet c && negb (isMarkedComplete c)
             then jmul (Fin x) (Fin (95 # 100)) else Fin x) = Fin y
            ∧ (0 <= y)%Q ∧ (y <= 1)%Q).
  { destruct (no_status_yet c && negb (isMarkedComplete c)).
    - exists (x * (95 # 100))%Q. split; [reflexivity |]. split; nra.
    - exists x. now repeat split. }
  destruct Hfac2 as (y & -> & Y0 & Y1).
  assert (Hc : loaded (status c).1.2 = loaded c
               ∧ endByte (status c).1.2 - startByte (status c).1.2
                 = endByte c - startByte c).
  { destruct (status_changes_only_xhr c) as [-> | (_ & -> & _)]; now split. }
  destruct (status c) as [[st c1] l1]. cbn [fst snd] in Hc.
  destruct Hc as [-> ->].
  destruct st; cbn [fst].
  - exists 0%Q. repeat split; discriminate.
  - rewrite jdiv_finite by lia. cbn [jmul].
    eexists. split; [reflexivity |]. split; nra.
  - exists y. now repeat split.
  - exists y. now repeat split.
Qed.

Lemma chunk_progress_in_unit_interval_witness :
  ∃ q, (ResumableChunk.progress
          (set_loaded (set_xhr (newResumableChunk 10 0 no_options)
                               (Some opened)) 4) true).1.1 = Fin q
       ∧ (0 <= q)%Q ∧ (q <= 1)%Q.
Proof.
  apply (chunk_progress_in_unit_interval
           (set_loaded (set_xhr (newResumableChunk 10 0 no_options)
                                (Some opened)) 4) true).
  - discriminate.
  - discriminate.
  - reflexivity.
  - discriminate.
Defined.

Lemma file_getters_state (f : ResumableFile.t) :
  (ResumableFile.isUploading f).1
  = existsb ResumableFile.is_UPLOADING (statuses f)
  ∧ (ResumableFile.isComplete f).1 = forallb terminal (statuses f).
Proof.
  unfold ResumableFile.isUploading, ResumableFile.isComplete, statuses.
  pose proof (some_status_spec ResumableFile.is_UPLOADING
                (ResumableFile._chunks f)) as [H1 _].
  pose proof (some_status_spec
                (λ st, ResumableFile.is_PENDING st
                       || ResumableFile.is_UPLOADING st)
                (ResumableFile._chunks f)) as [H3 _].
  destruct (ResumableFile.some_status ResumableFile.is_UPLOADING _)
    as [b1 cs1].
  destruct (ResumableFile.some_status (λ st, _) _) as [b2 cs2].
  cbn [fst snd] in *.
  rewrite H1, H3, not_pending_or_uploading. auto.
Qed.

Lemma fresh_file_state (f : ResumableFile.t) (size : Z) (o : ChunkOptions)
    (k : nat) :
  ResumableFile._chunks f
  = (λ i : nat, newResumableChunk size (Z.of_nat i) o) <$> seq 0 k →
  (0 < k)%nat →
  ResumableFile._error f = false →
  ResumableFile._prevProgress f = Fin 0 →
  statuses f = replicate k PENDING
  ∧ (ResumableFile.isUploading f).1 = false
  ∧ (ResumableFile.isComplete f).1 = false
  ∧ (ResumableFile.progress f).1 = Fin 0.
Proof.
  intros Hcs Hk He Hprev.
  assert (Hfresh : ∀ c, c ∈ ResumableFile._chunks f →
            xhr c = None ∧ pendingRetry c = false
            ∧ isMarkedComplete c = false).
  { intros c Hc. rewrite Hcs in Hc. apply list_elem_of_fmap in Hc.
    destruct Hc as (i & -> & _). now repeat split. }
  assert (Hlen : length (ResumableFile._chunks f) = k).
  { rewrite Hcs, length_fmap. apply length_seq. }
  assert (Hst : statuses f = replicate k PENDING).
  { rewrite <- Hlen. unfold statuses. apply fmap_constant. intros c Hc.
    destruct (Hfresh c Hc) as (Hx & Hp & Hm).
    unfold status_of, status. now rewrite Hp, Hm, Hx. }
  pose proof (file_getters_state f) as (U & C).
  rewrite Hst in U, C.
  repeat apply conj.
  - exact Hst.
  - rewrite U. clear. induction k as [| k IH]; [reflexivity | exact IH].
  - rewrite C. destruct k as [| k]; [lia | reflexivity].
  - unfold ResumableFile.progress. rewrite He, Hprev.
    now rewrite (fresh_progress_loop _ false Hfresh).
Qed.

(** X30.  The first [retry()] of a file, whatever state the file is in,
    the error state after a failed chunk included, gives the file its
    chunks anew: the requests of the chunks that were uploading are
    cancelled, the error state is left, the chunks are those of a new file
    of the same size, all of them PENDING, the progress starts from 0
    again, and no [fileRetry] is fired, so that no listener sends a chunk
    on account of the retry. *)
Theorem retry_restores_file (f : ResumableFile.t) :
  0 < ResumableFile.chunkSize f →
  ResumableFile.retryListeners f = 0%nat →
  ∃ f' log,
    ResumableFile.retry f = Some (f', log)
    ∧ ResumableFile._error f' = false
    ∧ ResumableFile._chunks f'
      = (λ i : nat, newResumableChunk (ResumableFile._size f) (Z.of_nat i)
                                      (ResumableFile.opts f))
          <$> seq 0 (Z.to_nat (Z.max (ceil_quot (ResumableFile._size f)
                                                 (ResumableFile.chunkSize f)) 1))
    ∧ statuses f'
      = replicate (Z.to_nat (Z.max (ceil_quot (ResumableFile._size f)
                                              (ResumableFile.chunkSize f)) 1))
                  PENDING
    ∧ (ResumableFile.isUploading f').1 = false
    ∧ (ResumableFile.isComplete f').1 = false
    ∧ (ResumableFile.progress f').1 = Fin 0
    ∧ ResumableFile._size f' = ResumableFile._size f
    ∧ ResumableFile._uniqueIdentifier f' = ResumableFile._uniqueIdentifier f
    ∧ (∀ c, c ∈ ResumableFile._chunks f → status_of c = UPLOADING →
            is_Some (xhr c) → xhrAbort (offset c) ∈ log)
    ∧ (fileRetry ∉ log).
Proof.
  intros HC Hfirst.
  destruct (retry_log f HC) as (f2 & log2 & Hr2 & Hfil & _).
  rewrite Hfirst in Hfil. cbn [replicate] in Hfil.
  unfold ResumableFile.retry in *.
  destruct (bootstrap_result f HC)
    as (f1 & l & Hb & Hcs & Hsize & _ & He & Hprev & Hid & _).
  rewrite Hb in *. cbn [mbind option_bind] in *. injection Hr2 as _ <-.
  eexists _, _. split; [reflexivity |].
  set (k := Z.to_nat (Z.max (ceil_quot (ResumableFile._size f)
                                       (ResumableFile.chunkSize f)) 1)) in *.
  assert (Hk : (0 < k)%nat) by (unfold k; lia).
  destruct (fresh_file_state
              (ResumableFile.set_retryListeners f1
                 (S (ResumableFile.retryListeners f1)))
              (ResumableFile._size f) (ResumableFile.opts f) k Hcs Hk He Hprev)
    as (S1 & S2 & S3 & S4).
  repeat apply conj; auto.
  - intros c Hc Hst Hx.
    pose proof (abort_loop_aborts _ c Hc Hst Hx) as Hl.
    unfold ResumableFile.bootstrap, ResumableFile.abort in Hb.
    destruct (ResumableFile.abort_loop (ResumableFile._chunks f))
      as [[cs l0] n]. cbn [fst snd] in Hl.
    destruct (for_turns _) as [m |]; [| discriminate Hb].
    cbn in Hb. injection Hb as _ <-.
    rewrite <- app_assoc. apply elem_of_app. now left.
  - intros Hin.
    assert (H : fileRetry ∈ filter (λ s, is_fileRetry s = true) l)
      by (apply list_elem_of_filter; now split).
    rewrite Hfil in H. inversion H.
Qed.

Lemma retry_restores_file_witness :
  ∃ f' log,
    ResumableFile.retry
      (ResumableFile.errorHandler (bootstrapped 10 small_chunks) 0).1
    = Some (f', log)
    ∧ ResumableFile._error f' = false
    ∧ statuses f' = replicate 3 PENDING
    ∧ (ResumableFile.progress f').1 = Fin 0.
Proof.
  destruct (retry_restores_file
              (ResumableFile.errorHandler (bootstrapped 10 small_chunks) 0).1
              eq_refl eq_refl)
    as (f' & log & H1 & H2 & _ & H4 & _ & _ & H7 & _).
  exists f', log. repeat split; assumption.
Defined.
